(** * AI-TRPG agent simulation engine: trust map, history log, memory store,
      action parsing and response policy, embedded from the JavaScript
      modules and verified against the written specification. *)

From Stdlib Require Import ZArith NArith QArith List String Ascii DecimalString Lia Sorted.
From stdpp Require Import base option list gmap.

Local Open Scope Z_scope.

(** ** JavaScript strings

    A JavaScript string is a sequence of UTF-16 code units; [includes],
    the default [sort] order and regular expressions without the [u] flag
    all work on code units. *)
Module JS.

Abbreviation jsstring := (list N).

(** Bytes of a Rocq string literal (the source file is UTF-8). *)
Fixpoint bytes_of (s : string) : list N :=
  match s with
  | EmptyString => []
  | String c r => N_of_ascii c :: bytes_of r
  end.

(** UTF-8 decoding into code points. *)
Fixpoint utf8_decode (bs : list N) : list N :=
  match bs with
  | [] => []
  | b0 :: r0 =>
    if (b0 <? 128)%N then b0 :: utf8_decode r0
    else match r0 with
    | [] => []
    | b1 :: r1 =>
      if (b0 <? 224)%N then
        N.lor (N.shiftl (N.land b0 31) 6) (N.land b1 63) :: utf8_decode r1
      else match r1 with
      | [] => []
      | b2 :: r2 =>
        if (b0 <? 240)%N then
          N.lor (N.shiftl (N.land b0 15) 12)
            (N.lor (N.shiftl (N.land b1 63) 6) (N.land b2 63))
            :: utf8_decode r2
        else match r2 with
        | [] => []
        | b3 :: r3 =>
          N.lor (N.shiftl (N.land b0 7) 18)
            (N.lor (N.shiftl (N.land b1 63) 12)
               (N.lor (N.shiftl (N.land b2 63) 6) (N.land b3 63)))
            :: utf8_decode r3
        end
      end
    end
  end.

(** UTF-16 encoding of code points (surrogate pairs above the BMP). *)
Definition utf16_units (cp : N) : list N :=
  if (cp <? 65536)%N then [cp]
  else
    let v := (cp - 65536)%N in
    [(55296 + N.shiftr v 10)%N; (56320 + N.land v 1023)%N].

(** The JavaScript string denoted by a source literal. *)
Definition js (s : string) : jsstring :=
  flat_map utf16_units (utf8_decode (bytes_of s)).

(** [s.startsWith(p)] *)
Fixpoint startsWith (p s : jsstring) : bool :=
  match p, s with
  | [], _ => true
  | _ :: _, [] => false
  | x :: p', y :: s' => (x =? y)%N && startsWith p' s'
  end.

(** [s.includes(p)]: [p] occurs in [s] as a contiguous run of code units. *)
Fixpoint includes (s p : jsstring) : bool :=
  startsWith p s ||
  match s with
  | [] => false
  | _ :: s' => includes s' p
  end.

(** [x < y] on strings: lexicographic on code units. *)
Fixpoint str_lt (x y : jsstring) : bool :=
  match x, y with
  | _, [] => false
  | [], _ :: _ => true
  | a :: x', b :: y' =>
    if (a <? b)%N then true
    else if (b <? a)%N then false
    else str_lt x' y'
  end.

(** [Array.prototype.sort()] with the default comparison, on strings:
    a stable insertion sort by [str_lt]. *)
Fixpoint sort_insert (x : jsstring) (l : list jsstring) : list jsstring :=
  match l with
  | [] => [x]
  | y :: l' => if str_lt y x then y :: sort_insert x l'
               else if str_lt x y then x :: y :: l'
               else y :: sort_insert x l'
  end.

Definition sort (l : list jsstring) : list jsstring :=
  fold_left (fun acc x => sort_insert x acc) l [].

(** [Array.prototype.join(sep)] *)
Fixpoint join (sep : jsstring) (l : list jsstring) : jsstring :=
  match l with
  | [] => []
  | [x] => x
  | x :: l' => x ++ sep ++ join sep l'
  end.

(** Truthiness of a string value: only the empty string is falsy. *)
Definition truthy (s : jsstring) : bool :=
  match s with [] => false | _ => true end.

End JS.
Import JS.


(** ** Regular expressions of action_space.js

    A backtracking matcher as a list of successes: every combinator returns
    the remainders it can leave, in the order the engine tries them, so the
    head of the list is the match [String.prototype.match] reports.  The
    three patterns start with [^] and carry no flag, so a match can only
    start at index 0 and [$] is the end of the input. *)
Module Regex.

(** [\s] *)
Definition is_space (c : N) : bool :=
  existsb (N.eqb c) [9; 10; 11; 12; 13; 32; 160; 5760; 8232; 8233; 8239; 8287; 12288; 65279]%N
  || ((8192 <=? c) && (c <=? 8202))%N.

(** [.] without the [s] flag: any code unit but a line terminator. *)
Definition is_line_terminator (c : N) : bool :=
  existsb (N.eqb c) [10; 13; 8232; 8233]%N.

Definition dot (c : N) : bool := negb (is_line_terminator c).

(** A character class given by its members. *)
Definition in_class (members : jsstring) (c : N) : bool :=
  existsb (N.eqb c) members.

(** One code unit of a class. *)
Definition one (p : N -> bool) (s : jsstring) : list jsstring :=
  match s with
  | c :: r => if p c then [r] else []
  | [] => []
  end.

(** [p*], greedy: the longest run first, then one unit less at a time. *)
Fixpoint star_greedy (p : N -> bool) (s : jsstring) : list jsstring :=
  match s with
  | c :: r => if p c then star_greedy p r ++ [s] else [s]
  | [] => [[]]
  end.

(** [(p+?)], lazy and capturing: the shortest run first. Each success is
    the captured text with the remainder. *)
Fixpoint plus_lazy (p : N -> bool) (s : jsstring) : list (jsstring * jsstring) :=
  match s with
  | c :: r =>
    if p c then ([c], r) :: ((fun cr => (c :: cr.1, cr.2)) <$> plus_lazy p r)
    else []
  | [] => []
  end.

(** [p?], greedy: take the unit if it is there, else (or on backtracking) skip. *)
Definition opt_greedy (p : N -> bool) (s : jsstring) : list jsstring :=
  match s with
  | c :: r => if p c then [r; s] else [s]
  | [] => [[]]
  end.

(** [$] *)
Definition eos (s : jsstring) : list unit :=
  match s with [] => [tt] | _ => [] end.

(** [/^\s*[open](.+?)[close]\s*$/]: capture group 1 of the first match. *)
Definition exec_enclosed (open close : N -> bool) (input : jsstring) : option jsstring :=
  head (s1 ← star_greedy is_space input;
        s2 ← one open s1;
        cr ← plus_lazy dot s2;
        s4 ← one close cr.2;
        s5 ← star_greedy is_space s4;
        _ ← eos s5;
        [cr.1]).

(** [/^\s*[open](.+?)[close]?\s*$/] *)
Definition exec_opened (open close : N -> bool) (input : jsstring) : option jsstring :=
  head (s1 ← star_greedy is_space input;
        s2 ← one open s1;
        cr ← plus_lazy dot s2;
        s4 ← opt_greedy close cr.2;
        s5 ← star_greedy is_space s4;
        _ ← eos s5;
        [cr.1]).

End Regex.

(** ** action_space.js *)
Module ActionSpace.
Import Regex.

Inductive ActionType := DIALOGUE | ACTION | ITEM.

Inductive TargetType := NONE | CHARACTER | ENVIRONMENT | TARGET_ITEM.

Record BaseAction := {
  act_id : jsstring;
  act_type : ActionType;
  actorId : jsstring;
  act_content : jsstring;
  targetType : TargetType;
  targetId : option jsstring;   (* [None] is JavaScript's null *)
  act_timestamp : Z
}.

Record ParseResult := { pr_type : ActionType; pr_content : jsstring }.

(** [const actionRegex = /^\s*[\[【](.+?)[\]】]\s*$/] *)
Definition actionRegex : jsstring -> option jsstring :=
  exec_enclosed (in_class (js "[【")) (in_class (js "]】")).

(** [const itemRegex = /^\s*[{「](.+?)[}」]\s*$/] *)
Definition itemRegex : jsstring -> option jsstring :=
  exec_enclosed (in_class (js "{「")) (in_class (js "}」")).

(** [dialogueRegex]: white space, an ASCII double quote (code unit 34), the
    lazy capture, an optional closing double quote, white space, [$]. *)
Definition dialogueRegex : jsstring -> option jsstring :=
  exec_opened (in_class [34%N]) (in_class [34%N]).

Definition parseActionInput (input : jsstring) : ParseResult :=
  match actionRegex input with
  | Some c => {| pr_type := ACTION; pr_content := c |}
  | None =>
    match itemRegex input with
    | Some c => {| pr_type := ITEM; pr_content := c |}
    | None =>
      match dialogueRegex input with
      | Some c => {| pr_type := DIALOGUE; pr_content := c |}
      | None => {| pr_type := DIALOGUE; pr_content := input |}
      end
    end
  end.

End ActionSpace.

(** ** Data model shared by the singleton modules *)
Module Model.
Import ActionSpace.

(** A value of a [createdAt] / [updatedAt] / [timestamp] field: either the
    string [new Date(ms).toISOString()], or any other text, which is falsy
    when empty and which [Date] reads as the engine's parser decides. *)
Inductive DateStr := ISO (ms : Z) | Text (s : jsstring).

Definition date_truthy (d : DateStr) : bool :=
  match d with ISO _ => true | Text s => truthy s end.

(** [new Date(d).getTime()]; [None] is NaN.  [parse] is the engine's
    [Date.parse] on the texts [toISOString] did not produce: most of its
    formats are left to the implementation. *)
Definition getTime (parse : jsstring -> option Z) (d : DateStr) : option Z :=
  match d with ISO ms => Some ms | Text s => parse s end.

(** A relationship factor is a JavaScript number: an integer here, or NaN. *)
Inductive Num := Int (z : Z) | NaN.

#[export] Instance Num_eq_dec : EqDecision Num.
Proof. solve_decision. Defined.

(** trust_map.js: [RelationshipType] *)
Inductive RelationshipType :=
  FRIEND | ENEMY | FAMILY | LOVER | ALLY | RIVAL | STRANGER
| MENTOR | STUDENT | EMPLOYER | EMPLOYEE.

(** trust_map.js: [RelationshipFactor], the keys of [factors]. *)
Definition TRUST : jsstring := js "trust".
Definition INTIMACY : jsstring := js "intimacy".
Definition RESPECT : jsstring := js "respect".
Definition LOYALTY : jsstring := js "loyalty".
Definition DEPENDENCY : jsstring := js "dependency".

Record Effect := { eff_trust : Z; eff_intimacy : Z; eff_respect : Z }.

(** An entry of [relationship.history]. *)
Record RelHistoryEntry := {
  rh_actionType : ActionType;
  rh_content : jsstring;
  rh_effect : Effect;
  rh_timestamp : DateStr
}.

(** [factors] is a plain object used as a map from factor names to numbers:
    the map holds its own properties; what it inherits from
    [Object.prototype] is the same for every such object. *)
Record Relationship := {
  rel_type : RelationshipType;
  factors : gmap jsstring Num;
  rel_history : list RelHistoryEntry;
  notes : jsstring;
  createdAt : DateStr;
  updatedAt : DateStr
}.

(** The [relationship] argument of [setRelationship]: any subset of the
    fields, spread over the default template. *)
Record RelationshipData := {
  d_type : option RelationshipType;
  d_factors : option (gmap jsstring Num);
  d_history : option (list RelHistoryEntry);
  d_notes : option jsstring;
  d_createdAt : option DateStr;
  d_updatedAt : option DateStr
}.

(** agent_registry.js *)
Inductive AgentType := PLAYER | NPC | GM | ENV_AGENT.

Inductive EmotionalState :=
  HAPPY | SAD | ANGRY | FEARFUL | DISGUSTED | SURPRISED | NEUTRAL.

Record Agent := {
  agent_id : jsstring;
  agent_name : jsstring;
  agent_type : AgentType;
  currentEmotion : EmotionalState;
  emotionIntensity : Z;
  location : jsstring;
  relationships : option (gmap jsstring Relationship);
  memoryIds : list jsstring;
  agent_createdAt : DateStr;
  agent_updatedAt : DateStr
}.

(** The [updates] argument of [updateAgent]. *)
Record AgentUpdates := {
  upd_relationships : option (gmap jsstring Relationship);
  upd_memoryIds : option (list jsstring);
  upd_currentEmotion : option EmotionalState;
  upd_emotionIntensity : option Z;
  upd_location : option jsstring
}.

Definition no_updates : AgentUpdates :=
  {| upd_relationships := None; upd_memoryIds := None;
     upd_currentEmotion := None; upd_emotionIntensity := None;
     upd_location := None |}.

(** memory_manager.js *)
Inductive MemoryType :=
  MEM_EVENT | MEM_CHARACTER | MEM_RELATIONSHIP | MEM_ENVIRONMENT
| MEM_KNOWLEDGE | MEM_GOAL.

(** [MemoryImportance] *)
Definition LOW : Z := 1.
Definition MEDIUM : Z := 2.
Definition HIGH : Z := 3.
Definition CRITICAL : Z := 4.

(** [importance] is always a number here ([MemoryImportance] or any other
    integer). *)
Record Memory := {
  mem_id : jsstring;
  mem_type : MemoryType;
  mem_content : jsstring;
  mem_agentId : option jsstring;
  importance : Z;
  accessCount : Z;
  mem_createdAt : DateStr;
  mem_updatedAt : DateStr
}.

(** history.js *)
Inductive HistoryEntryType :=
  H_ACTION | H_STATE_CHANGE | H_SYSTEM | H_NPC_RESPONSE | H_ENVIRONMENT.

Record HistoryEntry := {
  he_id : jsstring;
  he_timestamp : Z;
  he_type : HistoryEntryType;
  he_actorId : option jsstring;
  he_npcId : option jsstring;
  he_content : jsstring
}.

(** The [entry] argument of [addEntry]: [id] and [timestamp] are optional
    and, when given, override the generated ones. *)
Record EntryInput := {
  ei_id : option jsstring;
  ei_timestamp : option Z;
  ei_type : HistoryEntryType;
  ei_actorId : option jsstring;
  ei_npcId : option jsstring;
  ei_content : jsstring
}.

(** game_state.js: the slots of [gameState.state] the modules below write. *)
Record GameStateData := {
  gs_player : option Agent;
  gs_agents : list Agent;
  gs_memories : list Memory;
  gs_updatedAt : DateStr
}.

(** The process-wide singletons, with the sources of outside input: the
    readings [Date] will give, the engine's [Date.parse] and the ids the
    generators will draw. *)
Record World := {
  tm_relationships : gmap jsstring Relationship;   (* trustMap.relationships *)
  reg_agents : gmap jsstring Agent;                (* agentRegistry.agents *)
  game : GameStateData;                            (* gameState.state *)
  mm_memories : list (jsstring * Memory);          (* memoryManager.memories, in insertion order *)
  mm_agentMemories : gmap jsstring (list jsstring);(* memoryManager.agentMemories *)
  maxMemories : nat;
  hm_history : list HistoryEntry;                  (* historyManager.history *)
  maxHistoryLength : nat;
  clock : nat -> Z;
  date_parse : jsstring -> option Z;
  tick : nat;
  idgen : nat -> jsstring;
  drawn : nat
}.

Definition set_tm_relationships (f : gmap jsstring Relationship -> gmap jsstring Relationship) (w : World) : World :=
  {| tm_relationships := f (tm_relationships w); reg_agents := reg_agents w;
     game := game w; mm_memories := mm_memories w;
     mm_agentMemories := mm_agentMemories w; maxMemories := maxMemories w;
     hm_history := hm_history w; maxHistoryLength := maxHistoryLength w;
     clock := clock w; date_parse := date_parse w; tick := tick w; idgen := idgen w; drawn := drawn w |}.

Definition set_reg_agents (f : gmap jsstring Agent -> gmap jsstring Agent) (w : World) : World :=
  {| tm_relationships := tm_relationships w; reg_agents := f (reg_agents w);
     game := game w; mm_memories := mm_memories w;
     mm_agentMemories := mm_agentMemories w; maxMemories := maxMemories w;
     hm_history := hm_history w; maxHistoryLength := maxHistoryLength w;
     clock := clock w; date_parse := date_parse w; tick := tick w; idgen := idgen w; drawn := drawn w |}.

Definition set_game (f : GameStateData -> GameStateData) (w : World) : World :=
  {| tm_relationships := tm_relationships w; reg_agents := reg_agents w;
     game := f (game w); mm_memories := mm_memories w;
     mm_agentMemories := mm_agentMemories w; maxMemories := maxMemories w;
     hm_history := hm_history w; maxHistoryLength := maxHistoryLength w;
     clock := clock w; date_parse := date_parse w; tick := tick w; idgen := idgen w; drawn := drawn w |}.

Definition set_mm_memories (f : list (jsstring * Memory) -> list (jsstring * Memory)) (w : World) : World :=
  {| tm_relationships := tm_relationships w; reg_agents := reg_agents w;
     game := game w; mm_memories := f (mm_memories w);
     mm_agentMemories := mm_agentMemories w; maxMemories := maxMemories w;
     hm_history := hm_history w; maxHistoryLength := maxHistoryLength w;
     clock := clock w; date_parse := date_parse w; tick := tick w; idgen := idgen w; drawn := drawn w |}.

Definition set_mm_agentMemories (f : gmap jsstring (list jsstring) -> gmap jsstring (list jsstring)) (w : World) : World :=
  {| tm_relationships := tm_relationships w; reg_agents := reg_agents w;
     game := game w; mm_memories := mm_memories w;
     mm_agentMemories := f (mm_agentMemories w); maxMemories := maxMemories w;
     hm_history := hm_history w; maxHistoryLength := maxHistoryLength w;
     clock := clock w; date_parse := date_parse w; tick := tick w; idgen := idgen w; drawn := drawn w |}.

Definition set_hm_history (f : list HistoryEntry -> list HistoryEntry) (w : World) : World :=
  {| tm_relationships := tm_relationships w; reg_agents := reg_agents w;
     game := game w; mm_memories := mm_memories w;
     mm_agentMemories := mm_agentMemories w; maxMemories := maxMemories w;
     hm_history := f (hm_history w); maxHistoryLength := maxHistoryLength w;
     clock := clock w; date_parse := date_parse w; tick := tick w; idgen := idgen w; drawn := drawn w |}.

Definition set_tick (f : nat -> nat) (w : World) : World :=
  {| tm_relationships := tm_relationships w; reg_agents := reg_agents w;
     game := game w; mm_memories := mm_memories w;
     mm_agentMemories := mm_agentMemories w; maxMemories := maxMemories w;
     hm_history := hm_history w; maxHistoryLength := maxHistoryLength w;
     clock := clock w; date_parse := date_parse w; tick := f (tick w); idgen := idgen w; drawn := drawn w |}.

Definition set_drawn (f : nat -> nat) (w : World) : World :=
  {| tm_relationships := tm_relationships w; reg_agents := reg_agents w;
     game := game w; mm_memories := mm_memories w;
     mm_agentMemories := mm_agentMemories w; maxMemories := maxMemories w;
     hm_history := hm_history w; maxHistoryLength := maxHistoryLength w;
     clock := clock w; date_parse := date_parse w; tick := tick w; idgen := idgen w; drawn := f (drawn w) |}.

(** *** The effect monad: state threading with JavaScript exceptions.
    A [Throw] keeps the world as it was when the error was raised. *)
Inductive Outcome (A : Type) :=
| Ok (a : A) (w : World)
| Throw (msg : jsstring) (w : World).
Arguments Ok {A} a w.
Arguments Throw {A} msg w.

Definition M (A : Type) : Type := World -> Outcome A.

Definition ret {A} (a : A) : M A := fun w => Ok a w.

Definition bind {A B} (m : M A) (k : A -> M B) : M B :=
  fun w => match m w with
           | Ok a w' => k a w'
           | Throw msg w' => Throw msg w'
           end.

Definition throw {A} (msg : jsstring) : M A := fun w => Throw msg w.
Definition gets {A} (f : World -> A) : M A := fun w => Ok (f w) w.
Definition modify (f : World -> World) : M unit := fun w => Ok tt (f w).

#[export] Instance M_ret : MRet M := @ret.
#[export] Instance M_bind : MBind M := fun A B k m => bind m k.
#[export] Instance M_fmap : FMap M := fun A B f m => bind m (fun a => ret (f a)).

(** [Date.now()] *)
Definition Date_now : M Z :=
  fun w => Ok (clock w (tick w)) (set_tick S w).

(** [new Date().toISOString()] *)
Definition new_Date_toISOString : M DateStr :=
  t ← Date_now; mret (ISO t).

(** The random suffix of a generated id. *)
Definition draw_id : M jsstring :=
  fun w => Ok (idgen w (drawn w)) (set_drawn S w).

End Model.

(** ** game_state.js and agent_registry.js *)
Module Registry.
Import ActionSpace Model.

(** [gameState.updateState({ agents })] *)
Definition updateState_agents (agents : list Agent) : M unit :=
  now ← new_Date_toISOString;
  modify (set_game (fun g =>
    {| gs_player := gs_player g; gs_agents := agents;
       gs_memories := gs_memories g; gs_updatedAt := now |})).

(** [gameState.updateState({ memories })] *)
Definition updateState_memories (memories : list Memory) : M unit :=
  now ← new_Date_toISOString;
  modify (set_game (fun g =>
    {| gs_player := gs_player g; gs_agents := gs_agents g;
       gs_memories := memories; gs_updatedAt := now |})).

(** [{ ...existing, ...agent }]: every property of [agent] wins, and what
    [agent] lacks stays as [existing] has it.  Of the fields here only
    [relationships] can be lacking. *)
Definition spread_over (existing : option Agent) (agent : Agent) : Agent :=
  {| agent_id := agent_id agent;
     agent_name := agent_name agent;
     agent_type := agent_type agent;
     currentEmotion := currentEmotion agent;
     emotionIntensity := emotionIntensity agent;
     location := location agent;
     relationships :=
       match relationships agent with
       | Some r => Some r
       | None => existing ≫= relationships
       end;
     memoryIds := memoryIds agent;
     agent_createdAt := agent_createdAt agent;
     agent_updatedAt := agent_updatedAt agent |}.

(** [gameState.updatePlayer(playerData)]: the agent's fields are spread over
    the player slot. *)
Definition updatePlayer (playerData : Agent) : M unit :=
  _ ← modify (set_game (fun g =>
    {| gs_player := Some (spread_over (gs_player g) playerData);
       gs_agents := gs_agents g;
       gs_memories := gs_memories g; gs_updatedAt := gs_updatedAt g |}));
  now ← new_Date_toISOString;
  modify (set_game (fun g =>
    {| gs_player := gs_player g; gs_agents := gs_agents g;
       gs_memories := gs_memories g; gs_updatedAt := now |})).

(** [agentRegistry.getAgent(agentId)] *)
Definition getAgent (agentId : jsstring) : M (option Agent) :=
  gets (fun w => reg_agents w !! agentId).

(** [{ ...agent, ...updates, updatedAt: now }] *)
Definition apply_updates (agent : Agent) (updates : AgentUpdates) (now : DateStr) : Agent :=
  {| agent_id := agent_id agent;
     agent_name := agent_name agent;
     agent_type := agent_type agent;
     currentEmotion := default (currentEmotion agent) (upd_currentEmotion updates);
     emotionIntensity := default (emotionIntensity agent) (upd_emotionIntensity updates);
     location := default (location agent) (upd_location updates);
     relationships :=
       match upd_relationships updates with
       | Some r => Some r
       | None => relationships agent
       end;
     memoryIds := default (memoryIds agent) (upd_memoryIds updates);
     agent_createdAt := agent_createdAt agent;
     agent_updatedAt := now |}.

(** [agents.findIndex(a => a.id === agentId)] *)
Fixpoint findIndex (agentId : jsstring) (agents : list Agent) : option nat :=
  match agents with
  | [] => None
  | a :: rest =>
    if decide (agent_id a = agentId) then Some O
    else S <$> findIndex agentId rest
  end.

Definition AgentType_eqb (x y : AgentType) : bool :=
  match x, y with
  | PLAYER, PLAYER | NPC, NPC | GM, GM | ENV_AGENT, ENV_AGENT => true
  | _, _ => false
  end.

(** [agentRegistry.updateAgent(agentId, updates)] *)
Definition updateAgent (agentId : jsstring) (updates : AgentUpdates) : M (option Agent) :=
  found ← gets (fun w => reg_agents w !! agentId);
  match found with
  | None => mret None
  | Some agent =>
    now ← new_Date_toISOString;
    let updatedAgent := apply_updates agent updates now in
    _ ← modify (set_reg_agents (fun m => <[agentId := updatedAgent]> m));
    _ ← (if decide (agentId = js "player") then updatePlayer updatedAgent
         else if AgentType_eqb (agent_type agent) NPC then
           agents ← gets (fun w => gs_agents (game w));
           updateState_agents
             match findIndex agentId agents with
             | Some i => <[i := updatedAgent]> agents
             | None => agents ++ [updatedAgent]
             end
         else mret tt);
    mret (Some updatedAgent)
  end.

End Registry.

(** ** trust_map.js *)
Module TrustMap.
Import ActionSpace Model Registry.

Definition DEFAULT_RELATIONSHIP : Relationship :=
  {| rel_type := STRANGER;
     factors := {[ TRUST := Int 50; INTIMACY := Int 0; RESPECT := Int 50;
                   LOYALTY := Int 0; DEPENDENCY := Int 0 ]};
     rel_history := [];
     notes := [];
     createdAt := Text [];
     updatedAt := Text [] |}.

(** [[agentId1, agentId2].sort().join('_')] *)
Definition _getRelationshipKey (agentId1 agentId2 : jsstring) : jsstring :=
  join (js "_") (sort [agentId1; agentId2]).

(** [{ ...relationship }] of a stored relationship: every field present. *)
Definition spread (r : Relationship) : RelationshipData :=
  {| d_type := Some (rel_type r); d_factors := Some (factors r);
     d_history := Some (rel_history r); d_notes := Some (notes r);
     d_createdAt := Some (createdAt r); d_updatedAt := Some (updatedAt r) |}.

(** [{ ...DEFAULT_RELATIONSHIP, ...relationship, updatedAt: now }] *)
Definition merge_onto_default (relationship : RelationshipData) (now : DateStr) : Relationship :=
  {| rel_type := default (rel_type DEFAULT_RELATIONSHIP) (d_type relationship);
     factors := default (factors DEFAULT_RELATIONSHIP) (d_factors relationship);
     rel_history := default (rel_history DEFAULT_RELATIONSHIP) (d_history relationship);
     notes := default (notes DEFAULT_RELATIONSHIP) (d_notes relationship);
     createdAt := default (createdAt DEFAULT_RELATIONSHIP) (d_createdAt relationship);
     updatedAt := now |}.

Definition with_createdAt (r : Relationship) (c : DateStr) : Relationship :=
  {| rel_type := rel_type r; factors := factors r; rel_history := rel_history r;
     notes := notes r; createdAt := c; updatedAt := updatedAt r |}.

(** [{ relationships }] as the [updates] of [updateAgent] *)
Definition relationships_update (rs : gmap jsstring Relationship) : AgentUpdates :=
  {| upd_relationships := Some rs; upd_memoryIds := None;
     upd_currentEmotion := None; upd_emotionIntensity := None;
     upd_location := None |}.

Definition _updateAgentRelationships (agentId1 agentId2 : jsstring) (relationship : Relationship) : M unit :=
  agent1 ← getAgent agentId1;
  agent2 ← getAgent agentId2;
  _ ← match agent1 with
      | Some a1 =>
        let relationships1 := <[agentId2 := relationship]> (default ∅ (relationships a1)) in
        _ ← updateAgent agentId1 (relationships_update relationships1); mret tt
      | None => mret tt
      end;
  match agent2 with
  | Some a2 =>
    let relationships2 := <[agentId1 := relationship]> (default ∅ (relationships a2)) in
    _ ← updateAgent agentId2 (relationships_update relationships2); mret tt
  | None => mret tt
  end.

Definition setRelationship (agentId1 agentId2 : jsstring) (relationship : RelationshipData) : M Relationship :=
  if decide (agentId1 = agentId2) then throw (js "不能设置角色与自身的关系")
  else
    let key := _getRelationshipKey agentId1 agentId2 in
    now ← new_Date_toISOString;
    let merged := merge_onto_default relationship now in
    let completeRelationship :=
      if negb (date_truthy (createdAt merged)) then with_createdAt merged now
      else merged in
    _ ← modify (set_tm_relationships (fun m => <[key := completeRelationship]> m));
    _ ← _updateAgentRelationships agentId1 agentId2 completeRelationship;
    mret completeRelationship.

Definition getRelationship (agentId1 agentId2 : jsstring) : M (option Relationship) :=
  if decide (agentId1 = agentId2) then mret None
  else
    let key := _getRelationshipKey agentId1 agentId2 in
    gets (fun w => tm_relationships w !! key).

(** [Math.max(0, Math.min(100, value))]: NaN goes through both. *)
Definition clamp_number (value : Num) : Num :=
  match value with
  | Int z => Int (Z.max 0 (Z.min 100 z))
  | NaN => NaN
  end.

Definition updateRelationshipFactor (agentId1 agentId2 factor : jsstring) (value : Num) : M (option Relationship) :=
  found ← getRelationship agentId1 agentId2;
  match found with
  | None => mret None
  | Some relationship =>
    let clampedValue := clamp_number value in
    now ← new_Date_toISOString;
    let updatedRelationship :=
      {| d_type := Some (rel_type relationship);
         d_factors := Some (<[factor := clampedValue]> (factors relationship));
         d_history := Some (rel_history relationship);
         d_notes := Some (notes relationship);
         d_createdAt := Some (createdAt relationship);
         d_updatedAt := Some now |} in
    Some <$> setRelationship agentId1 agentId2 updatedRelationship
  end.

(** The names every plain object inherits from [Object.prototype]: eleven
    functions and the accessor [__proto__]. *)
Definition Object_prototype : list jsstring :=
  [ js "constructor"; js "__defineGetter__"; js "__defineSetter__";
    js "hasOwnProperty"; js "__lookupGetter__"; js "__lookupSetter__";
    js "isPrototypeOf"; js "propertyIsEnumerable"; js "toString";
    js "valueOf"; js "__proto__"; js "toLocaleString" ].

(** What a property read gives on a plain object of numbers: a number,
    undefined, or one of the functions and objects of [Object.prototype]. *)
Inductive Value := Number (n : Num) | Undefined | Inherited.

(** [object[name]]: the own property, else the inherited one. *)
Definition get_property (object : gmap jsstring Num) (name : jsstring) : Value :=
  match object !! name with
  | Some n => Number n
  | None => if bool_decide (name ∈ Object_prototype) then Inherited else Undefined
  end.

(** [value || 0]: 0, NaN and undefined are falsy, a function or an object
    is not. *)
Definition or_zero (value : Value) : Value :=
  match value with
  | Number (Int z) => Number (Int z)
  | Number NaN | Undefined => Number (Int 0)
  | Inherited => Inherited
  end.

(** [value + delta] as [Math.min] reads it: the sum of two numbers; with a
    function or an object the sum is a string that is no numeral, NaN. *)
Definition plus (value : Value) (delta : Z) : Num :=
  match value with
  | Number (Int z) => Int (z + delta)
  | Number NaN | Undefined | Inherited => NaN
  end.

Definition adjustRelationshipFactor (agentId1 agentId2 factor : jsstring) (delta : Z) : M (option Relationship) :=
  found ← getRelationship agentId1 agentId2;
  match found with
  | None => mret None
  | Some relationship =>
    let currentValue := or_zero (get_property (factors relationship) factor) in
    let newValue := clamp_number (plus currentValue delta) in
    updateRelationshipFactor agentId1 agentId2 factor newValue
  end.

(** The [historyEntry] argument of [addRelationshipHistory]. *)
Record RelHistoryInput := {
  rhi_actionType : ActionType;
  rhi_content : jsstring;
  rhi_effect : Effect;
  rhi_timestamp : option DateStr
}.

Definition addRelationshipHistory (agentId1 agentId2 : jsstring) (historyEntry : RelHistoryInput) : M (option Relationship) :=
  found ← getRelationship agentId1 agentId2;
  match found with
  | None => mret None
  | Some relationship =>
    let history := rel_history relationship in
    timestamp ← match rhi_timestamp historyEntry with
                | Some t => if date_truthy t then mret t else new_Date_toISOString
                | None => new_Date_toISOString
                end;
    let completeEntry :=
      {| rh_actionType := rhi_actionType historyEntry;
         rh_content := rhi_content historyEntry;
         rh_effect := rhi_effect historyEntry;
         rh_timestamp := timestamp |} in
    let history := history ++ [completeEntry] in
    now ← new_Date_toISOString;
    let updatedRelationship :=
      {| d_type := Some (rel_type relationship);
         d_factors := Some (factors relationship);
         d_history := Some history;
         d_notes := Some (notes relationship);
         d_createdAt := Some (createdAt relationship);
         d_updatedAt := Some now |} in
    Some <$> setRelationship agentId1 agentId2 updatedRelationship
  end.

(** The [switch (action.type)] of [processActionEffect]: the deltas
    [(trustDelta, intimacyDelta, respectDelta)] chosen by the if / else-if
    chain of the action's type. *)
Definition keyword_deltas (type : ActionType) (content : jsstring) : Effect :=
  match type with
  | DIALOGUE =>
    if includes content (js "感谢") || includes content (js "谢谢") then
      {| eff_trust := 2; eff_intimacy := 0; eff_respect := 1 |}
    else if includes content (js "抱歉") || includes content (js "对不起") then
      {| eff_trust := 1; eff_intimacy := 0; eff_respect := 2 |}
    else if includes content (js "喜欢") || includes content (js "爱") then
      {| eff_trust := 1; eff_intimacy := 3; eff_respect := 0 |}
    else if includes content (js "讨厌") || includes content (js "恨") then
      {| eff_trust := -1; eff_intimacy := -3; eff_respect := 0 |}
    else {| eff_trust := 0; eff_intimacy := 0; eff_respect := 0 |}
  | ACTION =>
    if includes content (js "帮助") || includes content (js "援助") then
      {| eff_trust := 3; eff_intimacy := 0; eff_respect := 2 |}
    else if includes content (js "攻击") || includes content (js "伤害") then
      {| eff_trust := -5; eff_intimacy := 0; eff_respect := -3 |}
    else if includes content (js "拥抱") || includes content (js "亲吻") then
      {| eff_trust := 0; eff_intimacy := 4; eff_respect := 0 |}
    else {| eff_trust := 0; eff_intimacy := 0; eff_respect := 0 |}
  | ITEM =>
    if includes content (js "赠送") || includes content (js "给予") then
      {| eff_trust := 2; eff_intimacy := 1; eff_respect := 0 |}
    else if includes content (js "偷窃") || includes content (js "抢夺") then
      {| eff_trust := -4; eff_intimacy := 0; eff_respect := -2 |}
    else {| eff_trust := 0; eff_intimacy := 0; eff_respect := 0 |}
  end.

Definition TargetType_eqb (x y : TargetType) : bool :=
  match x, y with
  | NONE, NONE | CHARACTER, CHARACTER | ENVIRONMENT, ENVIRONMENT
  | TARGET_ITEM, TARGET_ITEM => true
  | _, _ => false
  end.

(** [if (delta !== 0) this.adjustRelationshipFactor(...)] *)
Definition adjust_if_nonzero (actor target factor : jsstring) (delta : Z) : M unit :=
  if decide (delta = 0) then mret tt
  else _ ← adjustRelationshipFactor actor target factor delta; mret tt.

Definition processActionEffect (action : BaseAction) : M (option Relationship) :=
  if negb (TargetType_eqb (targetType action) CHARACTER)
     || negb (from_option truthy false (targetId action))
  then mret None
  else
    let actor := actorId action in
    let target := default [] (targetId action) in
    if decide (actor = target) then mret None
    else
      found ← getRelationship actor target;
      match found with
      | None => mret None
      | Some relationship =>
        let deltas := keyword_deltas (act_type action) (act_content action) in
        _ ← adjust_if_nonzero actor target TRUST (eff_trust deltas);
        _ ← adjust_if_nonzero actor target INTIMACY (eff_intimacy deltas);
        _ ← adjust_if_nonzero actor target RESPECT (eff_respect deltas);
        _ ← addRelationshipHistory actor target
              {| rhi_actionType := act_type action;
                 rhi_content := act_content action;
                 rhi_effect := deltas;
                 rhi_timestamp := None |};
        getRelationship actor target
      end.

End TrustMap.

(** ** history.js *)
Module History.
Import Model.

(** Decimal rendering of a number inside a template literal. *)
Definition show_Z (z : Z) : jsstring :=
  bytes_of (DecimalString.NilZero.string_of_int (Z.to_int z)).

(** [`entry_${Date.now()}_${Math.random().toString(36).substr(2, 9)}`] *)
Definition _generateEntryId : M jsstring :=
  t ← Date_now;
  r ← draw_id;
  mret (js "entry_" ++ show_Z t ++ js "_" ++ r).

Definition addEntry (entry : EntryInput) : M HistoryEntry :=
  generated ← _generateEntryId;
  now ← Date_now;
  let completeEntry :=
    {| he_id := default generated (ei_id entry);
       he_timestamp := default now (ei_timestamp entry);
       he_type := ei_type entry;
       he_actorId := ei_actorId entry;
       he_npcId := ei_npcId entry;
       he_content := ei_content entry |} in
  (* this.history.push(completeEntry) *)
  _ ← modify (set_hm_history (fun h => h ++ [completeEntry]));
  len ← gets (fun w => length (hm_history w));
  max ← gets maxHistoryLength;
  (* if (this.history.length > this.maxHistoryLength) this.history.shift() *)
  _ ← (if (max <? len)%nat then modify (set_hm_history (fun h => tail h))
       else mret tt);
  mret completeEntry.

(** [addEntry] over a sequence of entries, with the completed entries it
    returned, in order. *)
Fixpoint addEntries (entries : list EntryInput) : M (list HistoryEntry) :=
  match entries with
  | [] => mret []
  | e :: rest =>
    c ← addEntry e;
    cs ← addEntries rest;
    mret (c :: cs)
  end.

End History.

(** ** memory_manager.js *)
Module MemoryManager.
Import Model Registry.

(** [Map.prototype.get / set / delete] on a map kept in insertion order. *)
Fixpoint map_get {V} (k : jsstring) (m : list (jsstring * V)) : option V :=
  match m with
  | [] => None
  | (k', v) :: rest => if decide (k' = k) then Some v else map_get k rest
  end.

Fixpoint map_set {V} (k : jsstring) (v : V) (m : list (jsstring * V)) : list (jsstring * V) :=
  match m with
  | [] => [(k, v)]
  | (k', v') :: rest =>
    if decide (k' = k) then (k, v) :: rest else (k', v') :: map_set k v rest
  end.

Fixpoint map_delete {V} (k : jsstring) (m : list (jsstring * V)) : list (jsstring * V) :=
  match m with
  | [] => []
  | (k', v') :: rest =>
    if decide (k' = k) then rest else (k', v') :: map_delete k rest
  end.

(** The [memory] argument of [addMemory]; [id] and [createdAt] may be
    missing. *)
Record MemoryInput := {
  mi_id : option jsstring;
  mi_type : MemoryType;
  mi_content : jsstring;
  mi_agentId : option jsstring;
  mi_importance : Z;
  mi_accessCount : Z;
  mi_createdAt : option DateStr
}.

(** [`memory_${Date.now()}_${Math.random().toString(36).substr(2, 9)}`] *)
Definition _generateMemoryId : M jsstring :=
  t ← Date_now;
  r ← draw_id;
  mret (js "memory_" ++ History.show_Z t ++ js "_" ++ r).

Definition _updateGameStateMemories : M unit :=
  memories ← gets (fun w => map snd (mm_memories w));
  updateState_memories memories.

Definition memoryIds_update (ids : list jsstring) : AgentUpdates :=
  {| upd_relationships := None; upd_memoryIds := Some ids;
     upd_currentEmotion := None; upd_emotionIntensity := None;
     upd_location := None |}.

Definition _dissociateMemoryFromAgent (memoryId agentId : jsstring) : M unit :=
  found ← gets (fun w => mm_agentMemories w !! agentId);
  match found with
  | None => mret tt
  | Some agentMemoryIds =>
    let remaining := filter (fun i => i ≠ memoryId) agentMemoryIds in
    _ ← modify (set_mm_agentMemories (fun m => <[agentId := remaining]> m));
    agent ← getAgent agentId;
    match agent with
    | Some _ => _ ← updateAgent agentId (memoryIds_update remaining); mret tt
    | None => mret tt
    end
  end.

Definition deleteMemory (memoryId : jsstring) : M bool :=
  found ← gets (fun w => map_get memoryId (mm_memories w));
  match found with
  | None => mret false
  | Some memory =>
    _ ← modify (set_mm_memories (map_delete memoryId));
    _ ← (if from_option truthy false (mem_agentId memory)
         then _dissociateMemoryFromAgent memoryId (default [] (mem_agentId memory))
         else mret tt);
    _ ← _updateGameStateMemories;
    mret true
  end.

(** One iteration of the [forEach] of [_removeOldestMemory], on the pair
    [(oldestId, oldestTime)]. *)
Definition scan_step (parse : jsstring -> option Z) (acc : option jsstring * Z) (entry : jsstring * Memory) : option jsstring * Z :=
  if importance entry.2 <? CRITICAL then
    match getTime parse (mem_createdAt entry.2) with
    | Some createdTime =>
      if createdTime <? acc.2 then (Some entry.1, createdTime) else acc
    | None => acc   (* NaN < oldestTime is false *)
    end
  else acc.

Definition _removeOldestMemory : M unit :=
  now ← Date_now;
  memories ← gets mm_memories;
  parse ← gets date_parse;
  match (fold_left (scan_step parse) memories (None, now)).1 with
  | Some oldestId =>
    if truthy oldestId then _ ← deleteMemory oldestId; mret tt else mret tt
  | None => mret tt
  end.

Definition addMemory (memory : MemoryInput) : M jsstring :=
  id ← (if from_option truthy false (mi_id memory)
        then mret (default [] (mi_id memory)) else _generateMemoryId);
  created ← (if from_option date_truthy false (mi_createdAt memory)
             then mret (default (Text []) (mi_createdAt memory))
             else new_Date_toISOString);
  updated ← new_Date_toISOString;
  let stored :=
    {| mem_id := id; mem_type := mi_type memory; mem_content := mi_content memory;
       mem_agentId := mi_agentId memory; importance := mi_importance memory;
       accessCount := mi_accessCount memory;
       mem_createdAt := created; mem_updatedAt := updated |} in
  _ ← modify (set_mm_memories (map_set id stored));
  size ← gets (fun w => length (mm_memories w));
  max ← gets maxMemories;
  _ ← (if (max <? size)%nat then _removeOldestMemory else mret tt);
  _ ← _updateGameStateMemories;
  mret id.

(** A run of [addMemory] calls. *)
Fixpoint addMemories (memories : list MemoryInput) : M (list jsstring) :=
  match memories with
  | [] => mret []
  | m :: rest =>
    i ← addMemory m;
    ids ← addMemories rest;
    mret (i :: ids)
  end.

End MemoryManager.

(** ** agent_policy.js *)
Module AgentPolicy.
Import ActionSpace Model.

Inductive ResponseType :=
  R_DIALOGUE | R_ACTION | R_EMOTION | R_DECISION | R_REJECTION.

#[export] Instance ResponseType_eq_dec : EqDecision ResponseType.
Proof. solve_decision. Defined.

(** The parts of the response context [_determineResponseType] reads. *)
Record ContextAgent := {
  ca_id : jsstring;
  ca_emotionIntensity : Z
}.

Record ContextAction := {
  cx_type : ActionType;
  cx_content : jsstring;
  cx_targetId : option jsstring
}.

(** [relationship.factors[...]]: a factor missing from the map reads as
    undefined. *)
Record ContextRelationship := {
  cr_trust : option Z;
  cr_intimacy : option Z;
  cr_respect : option Z
}.

Record Context := {
  ctx_agent : ContextAgent;
  ctx_action : ContextAction;
  ctx_relationship : option ContextRelationship
}.

Definition ActionType_eqb (x y : ActionType) : bool :=
  match x, y with
  | DIALOGUE, DIALOGUE | ACTION, ACTION | ITEM, ITEM => true
  | _, _ => false
  end.

(** [relationship && relationship.trust < 20] *)
Definition low_trust (r : option ContextRelationship) : bool :=
  match r with
  | Some rel => match cr_trust rel with Some t => t <? 20 | None => false end
  | None => false
  end.

(** [_determineResponseType(context)]; [random] is the value [Math.random()]
    returns when the fourth test reaches it. *)
Definition _determineResponseType (random : Q) (context : Context) : ResponseType :=
  let agent := ctx_agent context in
  let action := ctx_action context in
  let relationship := ctx_relationship context in
  if ActionType_eqb (cx_type action) DIALOGUE
     && bool_decide (cx_targetId action = Some (ca_id agent))
  then R_DIALOGUE
  else if 70 <? ca_emotionIntensity agent then R_EMOTION
  else if includes (cx_content action) (js "请求")
          || includes (cx_content action) (js "帮助")
  then R_DECISION
  else if low_trust relationship then
    (* Math.random() > 0.7 ? REJECTION : DIALOGUE *)
    if negb (Qle_bool random (7 # 10)) then R_REJECTION else R_DIALOGUE
  else R_DIALOGUE.

(** [n] equally likely values of [Math.random()], spread evenly over [0,1):
    [k / n] for [k < n]. *)
Definition uniform_draws (n : nat) : list Q :=
  map (fun k => Z.of_nat k # Pos.of_nat n) (seq 0 n).

(** How many of [n] evenly spread draws resolve [context] to [r]. *)
Definition outcomes (r : ResponseType) (context : Context) (n : nat) : nat :=
  length (filter (fun u => _determineResponseType u context = r) (uniform_draws n)).

End AgentPolicy.

Import Regex ActionSpace Model Registry TrustMap History MemoryManager AgentPolicy.

(** ** Definitions the statements below are written with *)

(** [clampedValue] of [updateRelationshipFactor] and [newValue] of
    [adjustRelationshipFactor]. *)
Definition clamp (v : Z) : Z := Z.max 0 (Z.min 100 v).

(** The record [setRelationship] stores for [data] at time [now]. *)
Definition completeRelationship (data : RelationshipData) (now : DateStr) : Relationship :=
  let merged := merge_onto_default data now in
  if negb (date_truthy (createdAt merged)) then with_createdAt merged now else merged.

(** The keyword table in the specification's words: per action type, the
    ordered keyword categories with their fixed deltas. *)
Definition effect (t i r : Z) : Effect :=
  {| eff_trust := t; eff_intimacy := i; eff_respect := r |}.

Definition categories (type : ActionType) : list (list jsstring * Effect) :=
  match type with
  | DIALOGUE =>
    [ ([js "感谢"; js "谢谢"], effect 2 0 1);       (* gratitude *)
      ([js "抱歉"; js "对不起"], effect 1 0 2);     (* apology *)
      ([js "喜欢"; js "爱"], effect 1 3 0);         (* affection *)
      ([js "讨厌"; js "恨"], effect (-1) (-3) 0) ]  (* hostility *)
  | ACTION =>
    [ ([js "帮助"; js "援助"], effect 3 0 2);       (* help *)
      ([js "攻击"; js "伤害"], effect (-5) 0 (-3)); (* attack *)
      ([js "拥抱"; js "亲吻"], effect 0 4 0) ]      (* embrace *)
  | ITEM =>
    [ ([js "赠送"; js "给予"], effect 2 1 0);       (* give *)
      ([js "偷窃"; js "抢夺"], effect (-4) 0 (-2)) ] (* steal *)
  end.

(** Only the first category with a keyword in the content applies; none
    matching leaves every delta at 0. *)
Fixpoint first_matching (cats : list (list jsstring * Effect)) (content : jsstring) : Effect :=
  match cats with
  | [] => effect 0 0 0
  | (keywords, deltas) :: rest =>
    if existsb (includes content) keywords then deltas
    else first_matching rest content
  end.

(** The number a factor counts as: its own integer value, and 0 when the
    object has no such property of its own or holds NaN there. *)
Definition stored_number (x : option Num) : Z :=
  match x with
  | Some (Int z) => z
  | Some NaN | None => 0
  end.

(** The effect of one guarded [adjustRelationshipFactor] call on the
    factor map, for a factor name that [Object.prototype] does not have. *)
Definition apply_delta (factor : jsstring) (delta : Z) (fs : gmap jsstring Num) : gmap jsstring Num :=
  if decide (delta = 0) then fs
  else <[factor := Int (Z.max 0 (Z.min 100 (stored_number (fs !! factor) + delta)))]> fs.

(** The conditions under which [processActionEffect] does nothing: the
    actor is the target, the target is not a character, the target id is
    null or empty, or the pair has no relationship yet. *)
Definition no_effect_condition (w : World) (action : BaseAction) : Prop :=
  targetId action = Some (actorId action)
  ∨ targetType action ≠ CHARACTER
  ∨ targetId action = None ∨ targetId action = Some []
  ∨ ∃ target, targetId action = Some target
      ∧ getRelationship (actorId action) target w = Ok None w.

(** The reading of [setRelationship] under which, whatever [data] is, the
    [createdAt] of the relationship already stored for the pair survives. *)
Definition createdAt_preserved_by_every_set : Prop :=
  ∀ (w : World) (a b : jsstring) (data : RelationshipData) (old : Relationship),
    getRelationship a b w = Ok (Some old) w →
    ∃ r w', setRelationship a b data w = Ok r w' ∧ createdAt r = createdAt old.

(** The entry for [other] in an agent's denormalized [relationships]. *)
Definition mirrored (agent : Agent) (other : jsstring) : option Relationship :=
  relationships agent ≫= (λ m, m !! other).

(** The last [n] elements of a list, in order. *)
Definition lastn {A} (n : nat) (l : list A) : list A := drop (length l - n) l.

(** [completed] is [entry] with its id and timestamp filled in. *)
Definition completes (entry : EntryInput) (completed : HistoryEntry) : Prop :=
  he_type completed = ei_type entry
  ∧ he_actorId completed = ei_actorId entry
  ∧ he_npcId completed = ei_npcId entry
  ∧ he_content completed = ei_content entry
  ∧ (∀ i, ei_id entry = Some i → he_id completed = i)
  ∧ (∀ t, ei_timestamp entry = Some t → he_timestamp completed = t).

(** The memory [addMemory] stores for its argument, under the id and the
    dates it settled on. *)
Definition stored_as (memory : MemoryInput) (id : jsstring) (m : Memory) : Prop :=
  mem_id m = id
  ∧ mem_type m = mi_type memory
  ∧ mem_content m = mi_content memory
  ∧ mem_agentId m = mi_agentId memory
  ∧ importance m = mi_importance memory
  ∧ (∀ i, mi_id memory = Some i → i ≠ [] → id = i)
  ∧ (∀ c, mi_createdAt memory = Some c → date_truthy c = true → mem_createdAt m = c).

(** [m] can be evicted at time [now]: it is not critical and its creation
    date reads as a time before [now]. *)
Definition evictable (parse : jsstring → option Z) (now : Z) (m : Memory) : Prop :=
  importance m < CRITICAL
  ∧ ∃ t, getTime parse (mem_createdAt m) = Some t ∧ t < now.

(** [victim] is non-critical and no non-critical memory of [store] was
    created earlier. *)
Definition oldest_non_critical (parse : jsstring → option Z)
    (store : list (jsstring * Memory)) (victim : Memory) : Prop :=
  importance victim < CRITICAL
  ∧ ∃ t, getTime parse (mem_createdAt victim) = Some t
      ∧ ∀ k m t', (k, m) ∈ store → importance m < CRITICAL →
          getTime parse (mem_createdAt m) = Some t' → t ≤ t'.

(** One eviction at time [now].  When no memory of the store can be
    evicted, nothing leaves it.  Otherwise exactly one memory leaves: an
    oldest non-critical one, and among several of the same age the first
    in the store's order (a memory stored under the empty id, which the
    code takes for no id, stays). *)
Definition evicts_oldest_non_critical (parse : jsstring → option Z) (now : Z)
    (before after : list (jsstring * Memory)) : Prop :=
  ((∀ k m, (k, m) ∈ before → ¬ evictable parse now m) ∧ after = before)
  ∨ ∃ k victim earlier later,
      before = earlier ++ (k, victim) :: later
      ∧ evictable parse now victim
      ∧ oldest_non_critical parse before victim
      ∧ (∀ k' m', (k', m') ∈ earlier → importance m' < CRITICAL →
           getTime parse (mem_createdAt m') ≠ getTime parse (mem_createdAt victim))
      ∧ after = if truthy k then earlier ++ later else before.

(** The clock reading [_removeOldestMemory] takes inside [addMemory memory]
    called at [w]: by then [addMemory] has read the clock once for
    [updatedAt], and once more for each of the id and the [createdAt] that
    [memory] lacks. *)
Definition eviction_time (w : World) (memory : MemoryInput) : Z :=
  clock w (tick w
           + (if from_option truthy false (mi_id memory) then 0 else 1)
           + (if from_option date_truthy false (mi_createdAt memory) then 0 else 1)
           + 1)%nat.

(** Every critical memory of [before] is still in [after]. *)
Definition keeps_critical (before after : list (jsstring * Memory)) : Prop :=
  ∀ k m, (k, m) ∈ before → CRITICAL ≤ importance m → (k, m) ∈ after.

(** The whole of [input] is: white space, an opening unit, [content] (not
    empty, no line terminator), a closing unit, white space. *)
Definition enclosed (open close : N → bool) (input content : jsstring) : Prop :=
  ∃ pre o cl post,
    input = pre ++ o :: content ++ cl :: post
    ∧ forallb is_space pre = true ∧ open o = true
    ∧ content ≠ [] ∧ forallb dot content = true
    ∧ close cl = true ∧ forallb is_space post = true.

(** The same with the closing unit optional. *)
Definition opened (open close : N → bool) (input content : jsstring) : Prop :=
  ∃ pre o post,
    forallb is_space pre = true ∧ open o = true
    ∧ content ≠ [] ∧ forallb dot content = true
    ∧ forallb is_space post = true
    ∧ (input = pre ++ o :: content ++ post
       ∨ ∃ cl, close cl = true ∧ input = pre ++ o :: content ++ cl :: post).

(** The first three tests of [_determineResponseType] fail and the fourth
    one (a relationship with trust below 20) holds: the draw decides. *)
Definition draw_decides (context : Context) : Prop :=
  ¬ (cx_type (ctx_action context) = DIALOGUE
     ∧ cx_targetId (ctx_action context) = Some (ca_id (ctx_agent context)))
  ∧ ca_emotionIntensity (ctx_agent context) ≤ 70
  ∧ includes (cx_content (ctx_action context)) (js "请求") = false
  ∧ includes (cx_content (ctx_action context)) (js "帮助") = false
  ∧ ∃ rel trust, ctx_relationship context = Some rel
      ∧ cr_trust rel = Some trust ∧ trust < 20.

(** [count] out of [n] evenly spread draws is [percent] per cent of them,
    up to one draw: the frequency is within [1/n] of [percent/100]. *)
Definition share (count n percent : nat) : Prop :=
  (percent * n ≤ 100 * count + 100 ∧ 100 * count ≤ percent * n + 100)%nat.

(** The reading under which a low-trust agent rejects 70% of the time. *)
Definition rejects_seventy_percent : Prop :=
  ∀ (context : Context) (n : nat),
    draw_decides context → (0 < n)%nat →
    share (outcomes R_DIALOGUE context n) n 30
    ∧ share (outcomes R_REJECTION context n) n 70.

(** The reading of the 谢谢 scenario under which respect always rises by
    exactly 1: stored factors in range, trust clamped at 100, respect not. *)
Definition thanks_adds_two_and_one : Prop :=
  ∀ (w : World) (action : BaseAction) (target : jsstring) (rel : Relationship)
    (trust respect : Z),
    targetType action = CHARACTER →
    targetId action = Some target →
    target ≠ [] →
    getRelationship (actorId action) target w = Ok (Some rel) w →
    act_type action = DIALOGUE →
    includes (act_content action) (js "谢谢") = true →
    factors rel !! TRUST = Some (Int trust) → 0 ≤ trust ≤ 100 →
    factors rel !! RESPECT = Some (Int respect) → 0 ≤ respect ≤ 100 →
    ∃ rel' w',
      processActionEffect action w = Ok (Some rel') w'
      ∧ factors rel' !! TRUST = Some (Int (Z.min 100 (trust + 2)))
      ∧ factors rel' !! RESPECT = Some (Int (respect + 1)).

(** ** Sample worlds and inputs *)
Module Samples.

Definition agent (id : jsstring) (type : AgentType) : Agent :=
  {| agent_id := id; agent_name := id; agent_type := type;
     currentEmotion := NEUTRAL; emotionIntensity := 50;
     location := js "default"; relationships := None; memoryIds := [];
     agent_createdAt := ISO 1000; agent_updatedAt := ISO 1000 |}.

Definition relationship (trust respect : Z) : Relationship :=
  {| rel_type := STRANGER;
     factors := {[ TRUST := Int trust; INTIMACY := Int 0; RESPECT := Int respect;
                   LOYALTY := Int 0; DEPENDENCY := Int 0 ]};
     rel_history := []; notes := [];
     createdAt := ISO 1000; updatedAt := ISO 1000 |}.

Definition empty_world : World :=
  {| tm_relationships := ∅;
     reg_agents := {[ js "player" := agent (js "player") PLAYER;
                      js "npc1" := agent (js "npc1") NPC ]};
     game := {| gs_player := None; gs_agents := []; gs_memories := [];
                gs_updatedAt := ISO 1000 |};
     mm_memories := []; mm_agentMemories := ∅; maxMemories := 2;
     hm_history := []; maxHistoryLength := 2;
     clock := fun n => 2000 + Z.of_nat n; date_parse := fun _ => None; tick := 0;
     idgen := fun n => History.show_Z (Z.of_nat n); drawn := 0 |}.

(** The player and npc1 know each other, with the given trust and respect. *)
Definition world (trust respect : Z) : World :=
  set_tm_relationships
    (fun _ => {[ _getRelationshipKey (js "player") (js "npc1") := relationship trust respect ]})
    empty_world.

Definition thanks : BaseAction :=
  {| act_id := js "action_1"; act_type := DIALOGUE; actorId := js "player";
     act_content := js "谢谢你的帮助"; targetType := CHARACTER;
     targetId := Some (js "npc1"); act_timestamp := 1500 |}.

Definition no_data : RelationshipData :=
  {| d_type := None; d_factors := None; d_history := None; d_notes := None;
     d_createdAt := None; d_updatedAt := None |}.

Definition memory (id : string) (importance created : Z) : MemoryInput :=
  {| mi_id := Some (js id); mi_type := MEM_EVENT; mi_content := js id;
     mi_agentId := None; mi_importance := importance; mi_accessCount := 0;
     mi_createdAt := Some (ISO created) |}.

Definition entry (content : string) : EntryInput :=
  {| ei_id := None; ei_timestamp := None; ei_type := H_SYSTEM;
     ei_actorId := None; ei_npcId := None; ei_content := js content |}.

(** The player looks around; npc1 barely trusts the player. *)
Definition wary_stranger : Context :=
  {| ctx_agent := {| ca_id := js "npc1"; ca_emotionIntensity := 50 |};
     ctx_action := {| cx_type := ACTION; cx_content := js "环顾四周";
                      cx_targetId := None |};
     ctx_relationship :=
       Some {| cr_trust := Some 10; cr_intimacy := Some 0; cr_respect := Some 50 |} |}.

End Samples.

(** * The operations beside the specified ones *)

(** ** trust_map.js, the other operations *)
Module TrustMapOps.

Definition updateRelationshipType (agentId1 agentId2 : jsstring) (type : RelationshipType) : M (option Relationship) :=
  found ← getRelationship agentId1 agentId2;
  match found with
  | None => mret None
  | Some relationship =>
    now ← new_Date_toISOString;
    let updatedRelationship :=
      {| d_type := Some type;
         d_factors := Some (factors relationship);
         d_history := Some (rel_history relationship);
         d_notes := Some (notes relationship);
         d_createdAt := Some (createdAt relationship);
         d_updatedAt := Some now |} in
    Some <$> setRelationship agentId1 agentId2 updatedRelationship
  end.

(** [x >= n] and [x <= n] on a factor read from the map; a missing factor
    is undefined, and every comparison with undefined or NaN is false. *)
Definition at_least (x : option Num) (n : Z) : bool :=
  match x with Some (Int v) => n <=? v | Some NaN | None => false end.
Definition at_most (x : option Num) (n : Z) : bool :=
  match x with Some (Int v) => v <=? n | Some NaN | None => false end.

(** The object [analyzeRelationship] returns; [an_type] and [an_factors]
    are only there when the relationship exists. *)
Record Analysis := {
  an_status : jsstring;
  an_description : jsstring;
  an_type : option RelationshipType;
  an_factors : option (gmap jsstring Num)
}.

Definition analyzeRelationship (agentId1 agentId2 : jsstring) : M Analysis :=
  found ← getRelationship agentId1 agentId2;
  match found with
  | None =>
    mret {| an_status := js "未知"; an_description := js "没有关系数据";
            an_type := None; an_factors := None |}
  | Some relationship =>
    let trust := factors relationship !! TRUST in
    let intimacy := factors relationship !! INTIMACY in
    let respect := factors relationship !! RESPECT in
    let labelled status description :=
      {| an_status := status; an_description := description;
         an_type := Some (rel_type relationship);
         an_factors := Some (factors relationship) |} in
    mret
      (if at_least trust 80 && at_least intimacy 80 then
         labelled (js "亲密") (js "关系非常亲密，互相信任")
       else if at_least trust 70 then
         labelled (js "信任") (js "彼此信任，关系良好")
       else if at_most trust 20 && at_most respect 30 then
         labelled (js "敌对") (js "关系恶劣，互不信任")
       else if at_most trust 40 then
         labelled (js "警惕") (js "保持距离，缺乏信任")
       else if at_least intimacy 70 && at_least respect 60 then
         labelled (js "友好") (js "关系友好，互相尊重")
       else
         labelled (js "一般") (js "关系一般，没有特别亲近或疏远"))
  end.

End TrustMapOps.

(** ** agent_registry.js, the other operations *)
Module RegistryOps.

(** [`agent_${Date.now()}_${Math.random().toString(36).substr(2, 9)}`] *)
Definition _generateAgentId : M jsstring :=
  t ← Date_now;
  r ← draw_id;
  mret (js "agent_" ++ History.show_Z t ++ js "_" ++ r).

Definition with_identity (agent : Agent) (id : jsstring) (created updated : DateStr) : Agent :=
  {| agent_id := id; agent_name := agent_name agent; agent_type := agent_type agent;
     currentEmotion := currentEmotion agent; emotionIntensity := emotionIntensity agent;
     location := location agent; relationships := relationships agent;
     memoryIds := memoryIds agent;
     agent_createdAt := created; agent_updatedAt := updated |}.

(** [registerAgent(agent)]; an [agent] without id or creation date carries
    the empty string there. *)
Definition registerAgent (agent : Agent) : M Agent :=
  id ← (if negb (truthy (agent_id agent)) then _generateAgentId
        else mret (agent_id agent));
  created ← (if negb (date_truthy (agent_createdAt agent)) then new_Date_toISOString
             else mret (agent_createdAt agent));
  updated ← new_Date_toISOString;
  let registered := with_identity agent id created updated in
  _ ← modify (set_reg_agents (fun m => <[id := registered]> m));
  mret registered.

Definition removeAgent (agentId : jsstring) : M bool :=
  if bool_decide (agentId = js "player") || bool_decide (agentId = js "gm")
  then mret false
  else
    (* const removed = this.agents.delete(agentId) *)
    removed ← gets (fun w => bool_decide (is_Some (reg_agents w !! agentId)));
    _ ← modify (set_reg_agents (fun m => delete agentId m));
    _ ← (if removed : bool then
           agents ← gets (fun w => gs_agents (game w));
           updateState_agents (filter (fun a => agent_id a ≠ agentId) agents)
         else mret tt);
    mret removed.

(** [updateAgentEmotion(agentId, emotion, intensity = 50)] *)
Definition updateAgentEmotion (agentId : jsstring) (emotion : EmotionalState) (intensity : option Z) : M (option Agent) :=
  updateAgent agentId
    {| upd_relationships := None; upd_memoryIds := None;
       upd_currentEmotion := Some emotion;
       upd_emotionIntensity := Some (default 50 intensity);
       upd_location := None |}.

Definition updateAgentLocation (agentId locationId : jsstring) : M (option Agent) :=
  updateAgent agentId
    {| upd_relationships := None; upd_memoryIds := None;
       upd_currentEmotion := None; upd_emotionIntensity := None;
       upd_location := Some locationId |}.

(** game_state.js: [gameState.getAgent(agentId)] *)
Definition gameState_getAgent (agentId : jsstring) : M (option Agent) :=
  gets (fun w => List.find (fun a => bool_decide (agent_id a = agentId)) (gs_agents (game w))).

(** game_state.js: [gameState.addAgent(agent)].  Over an agent already
    listed under the id, [agent] is spread: [{ ...existing, ...agent }]. *)
Definition gameState_addAgent (agent : Agent) : M (list Agent) :=
  if negb (truthy (agent_id agent)) then throw (js "代理必须有ID")
  else
    agents ← gets (fun w => gs_agents (game w));
    let listed :=
      match findIndex (agent_id agent) agents with
      | Some existingIndex =>
        <[existingIndex := spread_over (agents !! existingIndex) agent]> agents
      | None => agents ++ [agent]
      end in
    _ ← modify (set_game (fun g =>
          {| gs_player := gs_player g; gs_agents := listed;
             gs_memories := gs_memories g; gs_updatedAt := gs_updatedAt g |}));
    now ← new_Date_toISOString;
    _ ← modify (set_game (fun g =>
          {| gs_player := gs_player g; gs_agents := gs_agents g;
             gs_memories := gs_memories g; gs_updatedAt := now |}));
    mret listed.

End RegistryOps.

(** ** history.js, queries and typed entries *)
Module HistoryOps.

(** [Array.prototype.slice(start)] for an integer [start]. *)
Definition slice_from {A} (start : Z) (l : list A) : list A :=
  let len := Z.of_nat (length l) in
  let k := if start <? 0 then Z.max (len + start) 0 else Z.min start len in
  drop (Z.to_nat k) l.

Definition getHistory : M (list HistoryEntry) := gets hm_history.

Definition getRecentHistory (count : Z) : M (list HistoryEntry) :=
  gets (fun w => slice_from (- count) (hm_history w)).

Definition HistoryEntryType_eqb (x y : HistoryEntryType) : bool :=
  match x, y with
  | H_ACTION, H_ACTION | H_STATE_CHANGE, H_STATE_CHANGE | H_SYSTEM, H_SYSTEM
  | H_NPC_RESPONSE, H_NPC_RESPONSE | H_ENVIRONMENT, H_ENVIRONMENT => true
  | _, _ => false
  end.

(** [getHistoryByType(type, count = null)] *)
Definition getHistoryByType (type : HistoryEntryType) (count : option Z) : M (list HistoryEntry) :=
  history ← gets hm_history;
  let filteredHistory := List.filter (fun entry => HistoryEntryType_eqb (he_type entry) type) history in
  match count with
  | Some c => mret (slice_from (- c) filteredHistory)
  | None => mret filteredHistory
  end.

(** The test of [getHistoryByActor]. *)
Definition by_actor (actorId : jsstring) (entry : HistoryEntry) : bool :=
  bool_decide (he_actorId entry = Some actorId)
  || (HistoryEntryType_eqb (he_type entry) H_NPC_RESPONSE
      && bool_decide (he_npcId entry = Some actorId)).

Definition getHistoryByActor (actorId : jsstring) (count : option Z) : M (list HistoryEntry) :=
  history ← gets hm_history;
  let filteredHistory := List.filter (by_actor actorId) history in
  match count with
  | Some c => mret (slice_from (- c) filteredHistory)
  | None => mret filteredHistory
  end.

Definition getHistoryByTimeRange (startTime endTime : Z) : M (list HistoryEntry) :=
  gets (fun w => List.filter
                   (fun entry => (startTime <=? he_timestamp entry)
                                 && (he_timestamp entry <=? endTime))
                   (hm_history w)).

Definition clearHistory : M unit := modify (set_hm_history (fun _ => [])).

(** [addActionEntry(action, result = null)]; the entry's [action] and
    [result] fields are not among the modelled ones. *)
Definition addActionEntry (action : BaseAction) : M HistoryEntry :=
  addEntry {| ei_id := None; ei_timestamp := None; ei_type := H_ACTION;
              ei_actorId := Some (actorId action); ei_npcId := None;
              ei_content := act_content action |}.

(** [addNPCResponseEntry(npcId, content, metadata = null)] *)
Definition addNPCResponseEntry (npcId content : jsstring) : M HistoryEntry :=
  addEntry {| ei_id := None; ei_timestamp := None; ei_type := H_NPC_RESPONSE;
              ei_actorId := None; ei_npcId := Some npcId;
              ei_content := content |}.

(** [String.prototype.substring(start)]: [start] is clamped to the string. *)
Definition substring_from (start : Z) (s : jsstring) : jsstring :=
  drop (Z.to_nat (Z.max 0 (Z.min start (Z.of_nat (length s))))) s.

(** [String.prototype.indexOf(c)] for a single code unit; -1 when absent. *)
Fixpoint indexOf (c : N) (s : jsstring) : Z :=
  match s with
  | [] => -1
  | x :: r => if (x =? c)%N then 0
              else let i := indexOf c r in if i <? 0 then -1 else i + 1
  end.

(** The end of [getHistorySummaryForPrompt]: the truncation of the joined
    lines to [maxLength]. *)
Definition truncate_summary (summary : jsstring) (maxLength : Z) : jsstring :=
  if maxLength <? Z.of_nat (length summary) then
    let cut := substring_from (Z.of_nat (length summary) - maxLength) summary in
    substring_from (indexOf 10%N cut + 1) cut
  else summary.

(** A value inside a template literal: undefined prints as such. *)
Definition show_field (x : option jsstring) : jsstring := default (js "undefined") x.

Section Summary.

(** [entry.description] and [entry.message], two fields of environment and
    system entries outside the modelled ones. *)
Variables (description message : HistoryEntry -> jsstring).

Definition summary_line (entry : HistoryEntry) : option jsstring :=
  match he_type entry with
  | H_ACTION => Some (js "[行为] " ++ show_field (he_actorId entry) ++ js ": " ++ he_content entry)
  | H_NPC_RESPONSE => Some (js "[NPC] " ++ show_field (he_npcId entry) ++ js ": " ++ he_content entry)
  | H_ENVIRONMENT => Some (js "[环境] " ++ description entry)
  | H_SYSTEM => Some (js "[系统] " ++ message entry)
  | H_STATE_CHANGE => None
  end.

(** [getHistorySummaryForPrompt(maxLength = 500)] *)
Definition getHistorySummaryForPrompt (maxLength : Z) : M jsstring :=
  recentHistory ← getRecentHistory 10;
  let summary := join [10%N] (omap summary_line recentHistory) in
  mret (truncate_summary summary maxLength).

End Summary.

End HistoryOps.

(** ** action_space.js, the constructors *)
Module ActionConstructors.

(** [`action_${Date.now()}_${Math.random().toString(36).substr(2, 9)}`] *)
Definition generateActionId : M jsstring :=
  t ← Date_now;
  r ← draw_id;
  mret (js "action_" ++ History.show_Z t ++ js "_" ++ r).

Definition createBaseAction (type : ActionType) (actor content : jsstring)
    (target_type : TargetType) (target : option jsstring) : M BaseAction :=
  id ← generateActionId;
  now ← Date_now;
  mret {| act_id := id; act_type := type; actorId := actor; act_content := content;
          targetType := target_type; targetId := target; act_timestamp := now |}.

(** [x || null] on an optional string. *)
Definition or_null (x : option jsstring) : option jsstring :=
  match x with
  | Some s => if truthy s then Some s else None
  | None => None
  end.

Record DialogueAction := {
  da_action : BaseAction;
  da_tone : option jsstring;
  da_emotion : option jsstring
}.

(** [createDialogueAction(actorId, content, targetId = null, options = {})] *)
Definition createDialogueAction (actor content : jsstring) (target : option jsstring)
    (tone emotion : option jsstring) : M DialogueAction :=
  action ← createBaseAction DIALOGUE actor content
             (if from_option truthy false target then CHARACTER else NONE) target;
  mret {| da_action := action; da_tone := or_null tone; da_emotion := or_null emotion |}.

Record PhysicalAction := {
  pa_action : BaseAction;
  pa_intensity : Z;
  pa_bodyPart : option jsstring;
  pa_isStealthy : bool
}.

(** [createPhysicalAction(actorId, content, targetType, targetId, options)];
    [intensity] is [options.intensity || 50]. *)
Definition createPhysicalAction (actor content : jsstring) (target_type : TargetType)
    (target : option jsstring) (intensity : option Z) (bodyPart : option jsstring)
    (isStealthy : option bool) : M PhysicalAction :=
  action ← createBaseAction ACTION actor content target_type target;
  mret {| pa_action := action;
          pa_intensity := match intensity with
                          | Some i => if decide (i = 0) then 50 else i
                          | None => 50
                          end;
          pa_bodyPart := or_null bodyPart;
          pa_isStealthy := default false isStealthy |}.

End ActionConstructors.

(** ** memory_manager.js, the other operations *)
Module MemoryOps.

(** [Set.prototype.add] on a set kept in insertion order. *)
Definition set_add (x : jsstring) (s : list jsstring) : list jsstring :=
  if bool_decide (x ∈ s) then s else s ++ [x].

Definition _associateMemoryWithAgent (memoryId agentId : jsstring) : M unit :=
  found ← gets (fun w => mm_agentMemories w !! agentId);
  let agentMemoryIds := set_add memoryId (default [] found) in
  _ ← modify (set_mm_agentMemories (fun m => <[agentId := agentMemoryIds]> m));
  agent ← getAgent agentId;
  match agent with
  | Some _ => _ ← updateAgent agentId (memoryIds_update agentMemoryIds); mret tt
  | None => mret tt
  end.

(** [createAgentMemory(agentId, content, options = {})]; [importance] is
    [options.importance || MemoryImportance.MEDIUM]. *)
Definition createAgentMemory (agentId content : jsstring) (type : option MemoryType)
    (importance : option Z) : M jsstring :=
  agent ← getAgent agentId;
  match agent with
  | None => throw (js "角色不存在: " ++ agentId)
  | Some _ =>
    id ← _generateMemoryId;
    _ ← new_Date_toISOString;           (* lastAccessed *)
    created ← new_Date_toISOString;
    _ ← new_Date_toISOString;           (* updatedAt, overwritten by addMemory *)
    memoryId ← addMemory
      {| mi_id := Some id;
         mi_type := default MEM_CHARACTER type;
         mi_content := content;
         mi_agentId := Some agentId;
         mi_importance := match importance with
                          | Some i => if decide (i = 0) then MEDIUM else i
                          | None => MEDIUM
                          end;
         mi_accessCount := 0;
         mi_createdAt := Some created |};
    _ ← _associateMemoryWithAgent memoryId agentId;
    mret memoryId
  end.

Definition MemoryType_eqb (x y : MemoryType) : bool :=
  match x, y with
  | MEM_EVENT, MEM_EVENT | MEM_CHARACTER, MEM_CHARACTER
  | MEM_RELATIONSHIP, MEM_RELATIONSHIP | MEM_ENVIRONMENT, MEM_ENVIRONMENT
  | MEM_KNOWLEDGE, MEM_KNOWLEDGE | MEM_GOAL, MEM_GOAL => true
  | _, _ => false
  end.

Definition getMemoriesByType (type : MemoryType) : M (list Memory) :=
  gets (fun w => List.filter (fun m => MemoryType_eqb (mem_type m) type)
                   (map snd (mm_memories w))).

End MemoryOps.

Import TrustMapOps RegistryOps HistoryOps ActionConstructors MemoryOps.

(** ** Definitions the further statements are written with *)

(** Every factor of every stored relationship lies in [0,100]. *)
Definition factors_in_range (m : gmap jsstring Relationship) : Prop :=
  map_Forall (fun _ r => map_Forall (fun _ v => ∃ z, v = Int z ∧ 0 ≤ z ≤ 100) (factors r)) m.

(** How many underscores (code unit 95) an id holds. *)
Definition underscores (s : jsstring) : nat :=
  length (filter (fun c => c = 95%N) s).

(** The two pairs hold the same two ids. *)
Definition same_pair (a b c d : jsstring) : Prop :=
  (a = c ∧ b = d) ∨ (a = d ∧ b = c).

(** From [w] to [w'] nothing changed outside the agent registry, the game
    state and the clock's position. *)
Definition registry_step (w w' : World) : Prop :=
  tm_relationships w' = tm_relationships w
  ∧ mm_memories w' = mm_memories w
  ∧ mm_agentMemories w' = mm_agentMemories w
  ∧ maxMemories w' = maxMemories w
  ∧ hm_history w' = hm_history w
  ∧ maxHistoryLength w' = maxHistoryLength w
  ∧ clock w' = clock w
  ∧ idgen w' = idgen w
  ∧ drawn w' = drawn w.

(** From [w] to [w'] only the clock and the id generator moved on: every
    store is as it was. *)
Definition stores_kept (w w' : World) : Prop :=
  tm_relationships w' = tm_relationships w
  ∧ reg_agents w' = reg_agents w
  ∧ game w' = game w
  ∧ mm_memories w' = mm_memories w
  ∧ mm_agentMemories w' = mm_agentMemories w
  ∧ maxMemories w' = maxMemories w
  ∧ hm_history w' = hm_history w
  ∧ maxHistoryLength w' = maxHistoryLength w.

(** ** A log of two entries *)
Module Scenes.

Definition logged : World :=
  set_hm_history
    (fun _ => [ {| he_id := js "e1"; he_timestamp := 1; he_type := H_ACTION;
                   he_actorId := Some (js "player"); he_npcId := None;
                   he_content := js "open the door" |};
                {| he_id := js "e2"; he_timestamp := 2; he_type := H_NPC_RESPONSE;
                   he_actorId := None; he_npcId := Some (js "npc1");
                   he_content := js "no" |} ])
    Samples.empty_world.

(** npc1 remembers one event, indexed under its id. *)
Definition keepsake : Memory :=
  {| mem_id := js "m1"; mem_type := MEM_EVENT; mem_content := js "met the player";
     mem_agentId := Some (js "npc1"); importance := MEDIUM; accessCount := 0;
     mem_createdAt := ISO 100; mem_updatedAt := ISO 100 |}.

Definition remembering : World :=
  set_mm_agentMemories (fun _ => {[ js "npc1" := [js "m1"] ]})
    (set_mm_memories (fun _ => [(js "m1", keepsake)]) Samples.empty_world).

(** A store at its maximum of two, both memories critical. *)
Definition vow (id : string) : Memory :=
  {| mem_id := js id; mem_type := MEM_GOAL; mem_content := js id;
     mem_agentId := None; importance := CRITICAL; accessCount := 0;
     mem_createdAt := ISO 50; mem_updatedAt := ISO 50 |}.

Definition guarded : World :=
  set_mm_memories (fun _ => [(js "c1", vow "c1"); (js "c2", vow "c2")])
    Samples.empty_world.

End Scenes.

(** * Proofs *)

(** ** Facts about JavaScript strings *)
Section JSFacts.

Lemma str_lt_asym (x y : jsstring) : str_lt x y = true → str_lt y x = false.
Proof.
  revert y; induction x as [|a x IH]; intros [|b y]; simpl; try done.
  destruct (N.ltb_spec a b), (N.ltb_spec b a); try done; try lia.
  apply IH.
Qed.

Lemma str_lt_connected (x y : jsstring) :
  str_lt x y = false → str_lt y x = false → x = y.
Proof.
  revert y; induction x as [|a x IH]; intros [|b y]; simpl; try done.
  destruct (N.ltb_spec a b), (N.ltb_spec b a); try done.
  intros Hxy Hyx. assert (a = b) as -> by lia. f_equal. by apply IH.
Qed.

Lemma sort_pair_comm (a b : jsstring) : sort [a; b] = sort [b; a].
Proof.
  unfold sort; simpl.
  destruct (str_lt a b) eqn:Hab, (str_lt b a) eqn:Hba; try done.
  - apply str_lt_asym in Hab. congruence.
  - by rewrite (str_lt_connected a b).
Qed.

Lemma startsWith_app (p s : jsstring) :
  startsWith p s = true ↔ ∃ r, s = p ++ r.
Proof.
  revert s; induction p as [|x p IH]; intros s; simpl.
  - split; [eauto | done].
  - destruct s as [|y s].
    + split; [done | intros [r Hr]; discriminate].
    + rewrite andb_true_iff, N.eqb_eq, IH. split.
      * intros [-> [r ->]]. by exists r.
      * intros [r Hr]. injection Hr as -> ->. eauto.
Qed.

(** [includes] is the substring relation on code units. *)
Lemma includes_spec (s p : jsstring) :
  includes s p = true ↔ ∃ l r, s = l ++ p ++ r.
Proof.
  induction s as [|c s IH]; simpl.
  - rewrite orb_false_r, startsWith_app. split.
    + intros [r Hr]. by exists [], r.
    + intros (l & r & H). destruct l; [by exists r | discriminate].
  - rewrite orb_true_iff, startsWith_app, IH. split.
    + intros [[r Hr] | (l & r & ->)]; [by exists [], r | by exists (c :: l), r].
    + intros (l & r & H). destruct l as [|c' l]; simpl in H.
      * left. by exists r.
      * right. injection H as -> ->. by exists l, r.
Qed.

End JSFacts.

Lemma key_comm (a b : jsstring) : _getRelationshipKey a b = _getRelationshipKey b a.
Proof. unfold _getRelationshipKey. by rewrite sort_pair_comm. Qed.

(** Unfolding of the monad's operations. *)
Ltac munfold :=
  unfold mbind, M_bind, mret, M_ret, fmap, M_fmap, bind, ret, gets, modify, throw in *.

Lemma getRelationship_self (a : jsstring) (w : World) :
  getRelationship a a w = Ok None w.
Proof. unfold getRelationship. by rewrite decide_True. Qed.

(** C1. At every state of the trust map, [getRelationship a b] and
    [getRelationship b a] return the same relationship and leave the state
    as it is, and [getRelationship a a] returns null. *)
Theorem getRelationship_symmetric (w : World) :
  (∀ a b, getRelationship a b w = getRelationship b a w)
  ∧ (∀ a, getRelationship a a w = Ok None w).
Proof.
  split.
  - intros a b. destruct (decide (a = b)) as [->|Hne]; [done|].
    unfold getRelationship.
    rewrite !decide_False by congruence. by rewrite key_comm.
  - intros a. apply getRelationship_self.
Qed.


(** ** The effect monad and the registry *)
(** What [updateAgent] leaves alone, and what it writes. *)
Lemma updateAgent_spec (agentId : jsstring) (updates : AgentUpdates) (w : World) :
  ∃ res w', updateAgent agentId updates w = Ok res w'
    ∧ tm_relationships w' = tm_relationships w
    ∧ clock w' = clock w
    ∧ reg_agents w' =
        match reg_agents w !! agentId with
        | Some agent =>
          <[agentId := apply_updates agent updates (ISO (clock w (tick w)))]> (reg_agents w)
        | None => reg_agents w
        end.
Proof.
  unfold updateAgent, updatePlayer, updateState_agents, new_Date_toISOString, Date_now.
  munfold. simpl.
  destruct (reg_agents w !! agentId) as [agent|]; simpl; [|by eauto 10].
  destruct (decide (agentId = js "player")); simpl; [by eauto 10|].
  destruct (AgentType_eqb (agent_type agent) NPC); simpl; by eauto 10.
Qed.

Lemma bind_run {A B} (m : M A) (k : A → M B) (w : World) :
  (m ≫= k) w = match m w with Ok a w' => k a w' | Throw e w' => Throw e w' end.
Proof. reflexivity. Qed.

Lemma fmap_run {A B} (f : A → B) (m : M A) (w : World) :
  (f <$> m) w = match m w with Ok a w' => Ok (f a) w' | Throw e w' => Throw e w' end.
Proof. reflexivity. Qed.

Lemma toISOString_run (w : World) :
  new_Date_toISOString w = Ok (ISO (clock w (tick w))) (set_tick S w).
Proof. reflexivity. Qed.

Lemma modify_run (f : World → World) (w : World) : modify f w = Ok tt (f w).
Proof. reflexivity. Qed.

Lemma gets_run {A} (f : World → A) (w : World) : gets f w = Ok (f w) w.
Proof. reflexivity. Qed.

Lemma mret_run {A} (a : A) (w : World) : mret (M:=M) a w = Ok a w.
Proof. reflexivity. Qed.

(** One step of a monadic sequence: expose the first action and run it
    when it is a primitive one. *)
Ltac mstep :=
  first [ rewrite bind_run | rewrite fmap_run ];
  first [ rewrite toISOString_run | rewrite modify_run | rewrite gets_run
        | rewrite mret_run | idtac ];
  cbv beta iota.

(** [_updateAgentRelationships] writes the mirror into both agents and
    nothing else the trust map reads. *)
Lemma _updateAgentRelationships_spec (a b : jsstring) (r : Relationship) (w : World) :
  a ≠ b →
  ∃ w', _updateAgentRelationships a b r w = Ok tt w'
    ∧ tm_relationships w' = tm_relationships w
    ∧ clock w' = clock w
    ∧ (∀ agent, reg_agents w !! a = Some agent →
         ∃ agent', reg_agents w' !! a = Some agent'
           ∧ relationships agent' = Some (<[b := r]> (default ∅ (relationships agent))))
    ∧ (∀ agent, reg_agents w !! b = Some agent →
         ∃ agent', reg_agents w' !! b = Some agent'
           ∧ relationships agent' = Some (<[a := r]> (default ∅ (relationships agent)))).
Proof.
  intros Hne. unfold _updateAgentRelationships, getAgent.
  do 2 mstep.
  destruct (reg_agents w !! a) as [a1|] eqn:Ha.
  - destruct (updateAgent_spec a (relationships_update (<[b:=r]> (default ∅ (relationships a1)))) w)
      as (res1 & w1 & E1 & Htm1 & Hck1 & Hreg1).
    rewrite Ha in Hreg1.
    mstep. mstep. rewrite E1. cbv beta iota. rewrite mret_run. cbv beta iota.
    destruct (reg_agents w !! b) as [a2|] eqn:Hb.
    + destruct (updateAgent_spec b (relationships_update (<[a:=r]> (default ∅ (relationships a2)))) w1)
        as (res2 & w2 & E2 & Htm2 & Hck2 & Hreg2).
      assert (reg_agents w1 !! b = Some a2) as Hb1
        by (by rewrite Hreg1, lookup_insert_ne).
      rewrite Hb1 in Hreg2.
      mstep. rewrite E2. cbv beta iota. rewrite mret_run.
      exists w2. split; [done|]. split; [congruence|]. split; [congruence|]. split.
      * intros agent [= <-]. eexists.
        split; [rewrite Hreg2, lookup_insert_ne by congruence; rewrite Hreg1; apply lookup_insert_eq | done].
      * intros agent [= <-]. eexists.
        split; [rewrite Hreg2; apply lookup_insert_eq | done].
    + rewrite mret_run.
      exists w1. split; [done|]. split; [congruence|]. split; [congruence|]. split.
      * intros agent [= <-]. eexists.
        split; [rewrite Hreg1; apply lookup_insert_eq | done].
      * done.
  - mstep.
    destruct (reg_agents w !! b) as [a2|] eqn:Hb.
    + destruct (updateAgent_spec b (relationships_update (<[a:=r]> (default ∅ (relationships a2)))) w)
        as (res2 & w2 & E2 & Htm2 & Hck2 & Hreg2).
      rewrite Hb in Hreg2.
      mstep. rewrite E2. cbv beta iota. rewrite mret_run.
      exists w2. split; [done|]. split; [congruence|]. split; [congruence|]. split.
      * done.
      * intros agent [= <-]. eexists.
        split; [rewrite Hreg2; apply lookup_insert_eq | done].
    + rewrite mret_run. exists w. by repeat split.
Qed.

Lemma setRelationship_spec (a b : jsstring) (data : RelationshipData) (w : World) :
  a ≠ b →
  let r := completeRelationship data (ISO (clock w (tick w))) in
  ∃ w', setRelationship a b data w = Ok r w'
    ∧ tm_relationships w' = <[_getRelationshipKey a b := r]> (tm_relationships w)
    ∧ clock w' = clock w
    ∧ (∀ agent, reg_agents w !! a = Some agent →
         ∃ agent', reg_agents w' !! a = Some agent'
           ∧ relationships agent' = Some (<[b := r]> (default ∅ (relationships agent))))
    ∧ (∀ agent, reg_agents w !! b = Some agent →
         ∃ agent', reg_agents w' !! b = Some agent'
           ∧ relationships agent' = Some (<[a := r]> (default ∅ (relationships agent)))).
Proof.
  intros Hne r. unfold setRelationship. rewrite decide_False by done.
  mstep. fold (completeRelationship data (ISO (clock w (tick w)))). fold r.
  mstep.
  set (w1 := set_tm_relationships _ (set_tick S w)).
  destruct (_updateAgentRelationships_spec a b r w1 Hne)
    as (w2 & E & Htm & Hck & Ha & Hb).
  mstep. rewrite E. cbv beta iota. rewrite mret_run.
  exists w2. repeat split; try done.
Qed.


(** ** Trust map: factors *)
Lemma getRelationship_run (a b : jsstring) (w : World) :
  a ≠ b →
  getRelationship a b w = Ok (tm_relationships w !! _getRelationshipKey a b) w.
Proof. intros Hne. unfold getRelationship. by rewrite decide_False. Qed.

Lemma getRelationship_Some (a b : jsstring) (w : World) (rel : Relationship) :
  getRelationship a b w = Ok (Some rel) w →
  a ≠ b ∧ tm_relationships w !! _getRelationshipKey a b = Some rel.
Proof.
  unfold getRelationship. destruct (decide (a = b)); [discriminate|].
  rewrite gets_run. by intros [= ->].
Qed.

Lemma clamp_range (v : Z) : 0 ≤ clamp v ≤ 100.
Proof. unfold clamp. lia. Qed.

Lemma clamp_idem (v : Z) : clamp (clamp v) = clamp v.
Proof. unfold clamp. lia. Qed.

Lemma clamp_number_idem (v : Num) : clamp_number (clamp_number v) = clamp_number v.
Proof. destruct v; simpl; [f_equal; lia | done]. Qed.

(** The five factor names of the trust map are not names of
    [Object.prototype]. *)
Lemma factor_names_not_inherited :
  (TRUST ∉ Object_prototype) ∧ (INTIMACY ∉ Object_prototype)
  ∧ (RESPECT ∉ Object_prototype) ∧ (LOYALTY ∉ Object_prototype)
  ∧ (DEPENDENCY ∉ Object_prototype).
Proof. repeat split; apply (bool_decide_eq_false_1 _); by vm_compute. Qed.

(** What [adjustRelationshipFactor] computes for a factor the object has
    as its own, or whose name [Object.prototype] does not have... *)
Lemma adjusted_own (fs : gmap jsstring Num) (factor : jsstring) (delta : Z) :
  is_Some (fs !! factor) ∨ factor ∉ Object_prototype →
  clamp_number (plus (or_zero (get_property fs factor)) delta)
  = Int (clamp (stored_number (fs !! factor) + delta)).
Proof.
  unfold get_property, clamp. intros Hown.
  destruct (fs !! factor) as [[z|]|] eqn:E; simpl; try done.
  destruct Hown as [[? ?]|Hn]; [done|].
  by rewrite bool_decide_eq_false_2.
Qed.


Lemma completeRelationship_spread (rel : Relationship) (fs : gmap jsstring Num)
    (hs : list RelHistoryEntry) (u now : DateStr) :
  let r := completeRelationship
             {| d_type := Some (rel_type rel); d_factors := Some fs;
                d_history := Some hs; d_notes := Some (notes rel);
                d_createdAt := Some (createdAt rel); d_updatedAt := Some u |} now in
  rel_type r = rel_type rel ∧ factors r = fs ∧ rel_history r = hs
  ∧ notes r = notes rel ∧ updatedAt r = now
  ∧ createdAt r = (if date_truthy (createdAt rel) then createdAt rel else now).
Proof.
  unfold completeRelationship, merge_onto_default; simpl.
  destruct (date_truthy (createdAt rel)); simpl; done.
Qed.

Lemma updateRelationshipFactor_spec (a b factor : jsstring) (value : Num)
    (w : World) (rel : Relationship) :
  getRelationship a b w = Ok (Some rel) w →
  ∃ rel' w', updateRelationshipFactor a b factor value w = Ok (Some rel') w'
    ∧ tm_relationships w' = <[_getRelationshipKey a b := rel']> (tm_relationships w)
    ∧ clock w' = clock w
    ∧ factors rel' = <[factor := clamp_number value]> (factors rel)
    ∧ rel_history rel' = rel_history rel
    ∧ rel_type rel' = rel_type rel
    ∧ notes rel' = notes rel.
Proof.
  intros Hget. destruct (getRelationship_Some _ _ _ _ Hget) as [Hne Hlk].
  unfold updateRelationshipFactor. rewrite bind_run, Hget. cbv beta iota.
  mstep. rewrite fmap_run.
  match goal with |- context [setRelationship a b ?d ?w1] =>
    destruct (setRelationship_spec a b d w1 Hne) as (w' & E & Htm & Hck & _ & _);
    pose proof (completeRelationship_spread rel (<[factor := clamp_number value]> (factors rel))
                  (rel_history rel) (ISO (clock w (tick w))) (ISO (clock w1 (tick w1)))) as Hr
  end.
  rewrite E. cbv beta iota. cbv zeta in Hr.
  destruct Hr as (? & ? & ? & ? & ? & ?).
  eexists _, w'. split; [done|]. by repeat split.
Qed.

Lemma adjustRelationshipFactor_spec (a b factor : jsstring) (delta : Z)
    (w : World) (rel : Relationship) :
  getRelationship a b w = Ok (Some rel) w →
  ∃ rel' w', adjustRelationshipFactor a b factor delta w = Ok (Some rel') w'
    ∧ tm_relationships w' = <[_getRelationshipKey a b := rel']> (tm_relationships w)
    ∧ clock w' = clock w
    ∧ factors rel' =
        <[factor := clamp_number (plus (or_zero (get_property (factors rel) factor)) delta)]>
          (factors rel)
    ∧ rel_history rel' = rel_history rel
    ∧ rel_type rel' = rel_type rel
    ∧ notes rel' = notes rel.
Proof.
  intros Hget. unfold adjustRelationshipFactor.
  rewrite bind_run, Hget. cbv beta iota zeta.
  destruct (updateRelationshipFactor_spec a b factor
              (clamp_number (plus (or_zero (get_property (factors rel) factor)) delta))
              w rel Hget)
    as (rel' & w' & E & Htm & Hck & Hf & Hrest).
  exists rel', w'. split; [done|]. split; [done|]. split; [done|].
  split; [|done]. rewrite Hf. by rewrite clamp_number_idem.
Qed.

Lemma getRelationship_after (a b : jsstring) (w w' : World) (rel' : Relationship) :
  a ≠ b →
  tm_relationships w' = <[_getRelationshipKey a b := rel']> (tm_relationships w) →
  getRelationship a b w' = Ok (Some rel') w'.
Proof.
  intros Hne Htm. rewrite getRelationship_run by done.
  by rewrite Htm, lookup_insert_eq.
Qed.



(** X28. On a stored relationship, for a factor the relationship has as
    its own or whose name [Object.prototype] does not have,
    [adjustRelationshipFactor a b factor delta] never throws and stores
    [max(0, min(100, current + delta))], where [current] is the previous
    value of the factor (0 if it was absent or NaN); the stored value lies
    in [0,100] whatever [delta] is, the other factors keep their values,
    and trust 90 adjusted by +1000 becomes 100. *)
Theorem adjustRelationshipFactor_clamps (w : World) (a b factor : jsstring)
    (delta : Z) (rel : Relationship) :
  getRelationship a b w = Ok (Some rel) w →
  is_Some (factors rel !! factor) ∨ factor ∉ Object_prototype →
  let current := stored_number (factors rel !! factor) in
  let stored := Z.max 0 (Z.min 100 (current + delta)) in
  ∃ rel' w',
    adjustRelationshipFactor a b factor delta w = Ok (Some rel') w'
    ∧ getRelationship a b w' = Ok (Some rel') w'
    ∧ factors rel' !! factor = Some (Int stored)
    ∧ 0 ≤ stored ≤ 100
    ∧ (∀ other, other ≠ factor → factors rel' !! other = factors rel !! other)
    ∧ (current = 90 → delta = 1000 → factors rel' !! factor = Some (Int 100)).
Proof.
  intros Hget Hown current stored.
  destruct (getRelationship_Some _ _ _ _ Hget) as [Hne _].
  destruct (adjustRelationshipFactor_spec a b factor delta w rel Hget)
    as (rel' & w' & E & Htm & _ & Hf & _).
  exists rel', w'. split; [done|].
  split; [by eapply getRelationship_after|].
  rewrite Hf, adjusted_own by done. split; [by rewrite lookup_insert_eq|].
  split; [subst stored; lia|].
  split; [by intros other Ho; rewrite lookup_insert_ne|].
  intros Hc ->. rewrite lookup_insert_eq. do 2 f_equal.
  fold current. rewrite Hc. reflexivity.
Qed.

Lemma adjustRelationshipFactor_clamps_witness :
  ∃ rel' w',
    adjustRelationshipFactor (js "player") (js "npc1") TRUST 1000 (Samples.world 90 50)
      = Ok (Some rel') w'
    ∧ factors rel' !! TRUST = Some (Int 100).
Proof.
  destruct (adjustRelationshipFactor_clamps (Samples.world 90 50)
              (js "player") (js "npc1") TRUST 1000 (Samples.relationship 90 50)
              eq_refl (or_introl (ex_intro _ (Int 90) eq_refl)))
    as (rel' & w' & E & _ & _ & _ & _ & H).
  exists rel', w'. split; [exact E | exact (H eq_refl eq_refl)].
Defined.

(** C10. [setRelationship a a data] throws, with the state exactly as it
    was before the call, whatever [data] is; [getRelationship a a] on the
    same state returns null without an error. *)
Theorem setRelationship_self_throws (w : World) (a : jsstring) (data : RelationshipData) :
  (∃ msg, setRelationship a a data w = Throw msg w)
  ∧ getRelationship a a w = Ok None w.
Proof.
  split.
  - unfold setRelationship. rewrite decide_True by done. by eexists.
  - apply getRelationship_self.
Qed.


(** ** Trust map: action effects *)
Lemma keyword_deltas_first_matching (type : ActionType) (content : jsstring) :
  keyword_deltas type content = first_matching (categories type) content.
Proof.
  destruct type; unfold keyword_deltas, categories, first_matching, existsb;
    rewrite ?orb_false_r; reflexivity.
Qed.

Lemma adjust_if_nonzero_spec (a b factor : jsstring) (delta : Z)
    (w : World) (rel : Relationship) :
  getRelationship a b w = Ok (Some rel) w →
  factor ∉ Object_prototype →
  ∃ rel' w', adjust_if_nonzero a b factor delta w = Ok tt w'
    ∧ getRelationship a b w' = Ok (Some rel') w'
    ∧ clock w' = clock w
    ∧ factors rel' = apply_delta factor delta (factors rel)
    ∧ rel_history rel' = rel_history rel.
Proof.
  intros Hget Hname. unfold adjust_if_nonzero, apply_delta.
  destruct (decide (delta = 0)).
  - exists rel, w. by rewrite mret_run.
  - destruct (getRelationship_Some _ _ _ _ Hget) as [Hne _].
    destruct (adjustRelationshipFactor_spec a b factor delta w rel Hget)
      as (rel' & w' & E & Htm & Hck & Hf & Hh & _).
    exists rel', w'. rewrite bind_run, E. cbv beta iota. rewrite mret_run.
    split; [done|]. split; [by eapply getRelationship_after|].
    rewrite adjusted_own in Hf by auto. done.
Qed.

Lemma addRelationshipHistory_spec (a b : jsstring) (entry : RelHistoryInput)
    (w : World) (rel : Relationship) :
  getRelationship a b w = Ok (Some rel) w →
  ∃ rel' w' ts, addRelationshipHistory a b entry w = Ok (Some rel') w'
    ∧ getRelationship a b w' = Ok (Some rel') w'
    ∧ clock w' = clock w
    ∧ factors rel' = factors rel
    ∧ rel_history rel' = rel_history rel ++
        [ {| rh_actionType := rhi_actionType entry; rh_content := rhi_content entry;
             rh_effect := rhi_effect entry; rh_timestamp := ts |} ]
    ∧ (rhi_timestamp entry = None → ts = ISO (clock w (tick w))).
Proof.
  intros Hget. destruct (getRelationship_Some _ _ _ _ Hget) as [Hne _].
  unfold addRelationshipHistory. rewrite bind_run, Hget. cbv beta iota zeta.
  assert (∃ ts w1, (match rhi_timestamp entry with
                    | Some t => if date_truthy t then mret t else new_Date_toISOString
                    | None => new_Date_toISOString
                    end) w = Ok ts w1 ∧ clock w1 = clock w
                   ∧ (rhi_timestamp entry = None → ts = ISO (clock w (tick w))))
    as (ts & w1 & E1 & Hck1 & Hts).
  { destruct (rhi_timestamp entry) as [t|]; [destruct (date_truthy t)|];
      eexists _, _; (split; [reflexivity|]); split; done. }
  rewrite bind_run, E1. cbv beta iota.
  mstep. rewrite fmap_run.
  match goal with |- context [setRelationship a b ?d ?w2] =>
    destruct (setRelationship_spec a b d w2 Hne) as (w' & E & Htm & Hck & _ & _);
    pose proof (completeRelationship_spread rel (factors rel)
       (rel_history rel ++ [ {| rh_actionType := rhi_actionType entry;
                                rh_content := rhi_content entry;
                                rh_effect := rhi_effect entry; rh_timestamp := ts |} ])
       (ISO (clock w1 (tick w1))) (ISO (clock w2 (tick w2)))) as Hr
  end.
  rewrite E. cbv beta iota. cbv zeta in Hr.
  destruct Hr as (? & ? & ? & ? & ? & ?).
  eexists _, w', ts. split; [done|].
  split; [by eapply getRelationship_after|].
  split; [by simpl in *; congruence|]. done.
Qed.

Lemma processActionEffect_spec (w : World) (action : BaseAction)
    (target : jsstring) (rel : Relationship) :
  targetType action = CHARACTER →
  targetId action = Some target →
  target ≠ [] →
  getRelationship (actorId action) target w = Ok (Some rel) w →
  let deltas := keyword_deltas (act_type action) (act_content action) in
  ∃ rel' w' ts,
    processActionEffect action w = Ok (Some rel') w'
    ∧ getRelationship (actorId action) target w' = Ok (Some rel') w'
    ∧ factors rel' =
        apply_delta RESPECT (eff_respect deltas)
          (apply_delta INTIMACY (eff_intimacy deltas)
             (apply_delta TRUST (eff_trust deltas) (factors rel)))
    ∧ rel_history rel' = rel_history rel ++
        [ {| rh_actionType := act_type action; rh_content := act_content action;
             rh_effect := deltas; rh_timestamp := ts |} ].
Proof.
  intros Htt Htid Htruthy Hget deltas.
  destruct (getRelationship_Some _ _ _ _ Hget) as [Hne _].
  unfold processActionEffect. rewrite Htt, Htid. simpl.
  destruct target as [|c target]; [done|]. simpl.
  rewrite decide_False by done.
  rewrite bind_run, Hget. cbv beta iota zeta. fold deltas.
  destruct factor_names_not_inherited as (Nt & Ni & Nr & _).
  destruct (adjust_if_nonzero_spec _ _ TRUST (eff_trust deltas) w rel Hget Nt)
    as (r1 & w1 & E1 & G1 & _ & F1 & H1).
  rewrite bind_run, E1. cbv beta iota.
  destruct (adjust_if_nonzero_spec _ _ INTIMACY (eff_intimacy deltas) w1 r1 G1 Ni)
    as (r2 & w2 & E2 & G2 & _ & F2 & H2).
  rewrite bind_run, E2. cbv beta iota.
  destruct (adjust_if_nonzero_spec _ _ RESPECT (eff_respect deltas) w2 r2 G2 Nr)
    as (r3 & w3 & E3 & G3 & _ & F3 & H3).
  rewrite bind_run, E3. cbv beta iota.
  destruct (addRelationshipHistory_spec _ _
              {| rhi_actionType := act_type action; rhi_content := act_content action;
                 rhi_effect := deltas; rhi_timestamp := None |} w3 r3 G3)
    as (r4 & w4 & ts & E4 & G4 & _ & F4 & H4 & _).
  rewrite bind_run, E4. cbv beta iota.
  exists r4, w4, ts. split; [done|]. split; [done|].
  split; [congruence|]. simpl in H4. congruence.
Qed.

(** C3. When the actor is the target, or the target is not a character,
    or the target id is unset, or the pair has no relationship yet,
    [processActionEffect] returns null and the whole state (factors and
    relationship history included) is left as it was. *)
Theorem processActionEffect_noop (w : World) (action : BaseAction) :
  no_effect_condition w action →
  processActionEffect action w = Ok None w.
Proof.
  unfold no_effect_condition, processActionEffect.
  intros [Hself | [Htt | [Hnone | [Hempty | (target & Htid & Hget)]]]].
  - rewrite Hself. simpl.
    destruct (negb (TargetType_eqb (targetType action) CHARACTER)
              || negb (truthy (actorId action))); [done|].
    by rewrite decide_True.
  - destruct (targetType action); done.
  - rewrite Hnone. simpl. by rewrite orb_true_r.
  - rewrite Hempty. simpl. by rewrite orb_true_r.
  - rewrite Htid. simpl.
    destruct (negb (TargetType_eqb (targetType action) CHARACTER)
              || negb (truthy target)); [done|].
    destruct (decide (actorId action = target)); [done|].
    by rewrite bind_run, Hget.
Qed.

Lemma processActionEffect_noop_witness :
  processActionEffect Samples.thanks Samples.empty_world = Ok None Samples.empty_world.
Proof.
  apply processActionEffect_noop.
  do 4 right. exists (js "npc1"). split; reflexivity.
Defined.

Lemma factor_keys_distinct :
  TRUST ≠ INTIMACY ∧ TRUST ≠ RESPECT ∧ INTIMACY ≠ RESPECT.
Proof. repeat split; discriminate. Qed.

Lemma thanks_deltas (content : jsstring) :
  includes content (js "谢谢") = true →
  keyword_deltas DIALOGUE content = effect 2 0 1.
Proof.
  intros H. unfold keyword_deltas. by rewrite H, orb_true_r.
Qed.

(** C4, amended. For an action on a character with whom the actor has a
    relationship, [processActionEffect] applies the deltas of the first
    matching keyword category of the action's type and no other, each
    through the clamped adjustment, and appends exactly one history entry
    recording those deltas.  For a dialogue containing 谢谢 the deltas are
    trust +2 and respect +1, both stored clamped to [0,100] (respect, like
    trust, stays at 100 when it is there already), and no other factor
    changes. *)
Theorem processActionEffect_first_category (w : World) (action : BaseAction)
    (target : jsstring) (rel : Relationship) :
  targetType action = CHARACTER →
  targetId action = Some target →
  target ≠ [] →
  getRelationship (actorId action) target w = Ok (Some rel) w →
  let deltas := keyword_deltas (act_type action) (act_content action) in
  deltas = first_matching (categories (act_type action)) (act_content action)
  ∧ ∃ rel' w' ts,
      processActionEffect action w = Ok (Some rel') w'
      ∧ getRelationship (actorId action) target w' = Ok (Some rel') w'
      ∧ factors rel' =
          apply_delta RESPECT (eff_respect deltas)
            (apply_delta INTIMACY (eff_intimacy deltas)
               (apply_delta TRUST (eff_trust deltas) (factors rel)))
      ∧ rel_history rel' = rel_history rel ++
          [ {| rh_actionType := act_type action; rh_content := act_content action;
               rh_effect := deltas; rh_timestamp := ts |} ]
      ∧ (act_type action = DIALOGUE →
         includes (act_content action) (js "谢谢") = true →
         deltas = effect 2 0 1
         ∧ factors rel' !! TRUST
             = Some (Int (Z.max 0 (Z.min 100 (stored_number (factors rel !! TRUST) + 2))))
         ∧ factors rel' !! RESPECT
             = Some (Int (Z.max 0 (Z.min 100 (stored_number (factors rel !! RESPECT) + 1))))
         ∧ ∀ other, other ≠ TRUST → other ≠ RESPECT →
             factors rel' !! other = factors rel !! other).
Proof.
  intros Htt Htid Htruthy Hget deltas.
  split; [apply keyword_deltas_first_matching|].
  destruct (processActionEffect_spec w action target rel Htt Htid Htruthy Hget)
    as (rel' & w' & ts & E & G & F & H).
  exists rel', w', ts. fold deltas in F, H.
  split; [done|]. split; [done|]. split; [done|]. split; [done|].
  intros Hty Hinc. assert (deltas = effect 2 0 1) as Hd.
  { subst deltas. rewrite Hty. by apply thanks_deltas. }
  split; [done|]. rewrite F, Hd. unfold apply_delta; simpl.
  destruct factor_keys_distinct as (? & ? & ?).
  split; [by rewrite lookup_insert_ne, lookup_insert_eq|].
  split; [by rewrite lookup_insert_eq, lookup_insert_ne|].
  intros other Hot Hor. by rewrite !lookup_insert_ne.
Qed.

Lemma processActionEffect_first_category_witness :
  ∃ rel' w',
    processActionEffect Samples.thanks (Samples.world 10 50) = Ok (Some rel') w'
    ∧ factors rel' !! TRUST = Some (Int 12)
    ∧ factors rel' !! RESPECT = Some (Int 51)
    ∧ length (rel_history rel') = 1%nat.
Proof.
  destruct (processActionEffect_first_category (Samples.world 10 50) Samples.thanks
              (js "npc1") (Samples.relationship 10 50)
              eq_refl eq_refl ltac:(discriminate) eq_refl)
    as (_ & rel' & w' & ts & E & _ & _ & H & P).
  destruct (P eq_refl eq_refl) as (_ & Ht & Hr & _).
  exists rel', w'. split; [exact E|]. split; [exact Ht|]. split; [exact Hr|].
  rewrite H. reflexivity.
Defined.

(** With respect already at 100 (trust 10), a 谢谢 dialogue leaves respect at
    100: the stored value is clamped, it does not rise by 1. *)
Lemma thanks_at_full_respect : ¬ thanks_adds_two_and_one.
Proof.
  intros claim.
  destruct (claim (Samples.world 10 100) Samples.thanks (js "npc1")
              (Samples.relationship 10 100) 10 100
              eq_refl eq_refl ltac:(discriminate) eq_refl eq_refl eq_refl
              eq_refl ltac:(lia) eq_refl ltac:(lia))
    as (rel' & w' & E & _ & Hr).
  vm_compute in E. injection E as <- _.
  vm_compute in Hr. discriminate.
Qed.


(** ** Trust map: setRelationship *)
(** A relationship stored with [createdAt] at time 1000, then
    [setRelationship] with empty [data] at time 2000: the stored record is
    now created at 2000. *)
Lemma createdAt_lost_without_data_createdAt : ¬ createdAt_preserved_by_every_set.
Proof.
  intros claim.
  destruct (claim (Samples.world 50 50) (js "player") (js "npc1") Samples.no_data
              (Samples.relationship 50 50) eq_refl)
    as (r & w' & E & Hc).
  vm_compute in E. injection E as <- _.
  vm_compute in Hc. discriminate.
Qed.

Lemma completeRelationship_fields (data : RelationshipData) (now : DateStr) :
  let r := completeRelationship data now in
  rel_type r = default (rel_type DEFAULT_RELATIONSHIP) (d_type data)
  ∧ factors r = default (factors DEFAULT_RELATIONSHIP) (d_factors data)
  ∧ rel_history r = default (rel_history DEFAULT_RELATIONSHIP) (d_history data)
  ∧ notes r = default (notes DEFAULT_RELATIONSHIP) (d_notes data)
  ∧ updatedAt r = now
  ∧ createdAt r =
      match d_createdAt data with
      | Some c => if date_truthy c then c else now
      | None => now
      end.
Proof.
  unfold completeRelationship, merge_onto_default.
  destruct (d_createdAt data) as [c|]; simpl; [destruct (date_truthy c)|]; done.
Qed.

(** C6, amended. For distinct agents, [setRelationship a b data] merges
    [data] onto the default template, sets [updatedAt] to the current time,
    keeps the [createdAt] that [data] carries when it is non-empty and
    stamps the current time otherwise (the record already stored is not
    consulted), stores the result for the pair in either order, and writes
    it into the [relationships] of each of the two agents that is
    registered, under the other agent's id. *)
Theorem setRelationship_merges_and_mirrors (w : World) (a b : jsstring)
    (data : RelationshipData) :
  a ≠ b →
  let now := ISO (clock w (tick w)) in
  ∃ r w',
    setRelationship a b data w = Ok r w'
    ∧ rel_type r = default (rel_type DEFAULT_RELATIONSHIP) (d_type data)
    ∧ factors r = default (factors DEFAULT_RELATIONSHIP) (d_factors data)
    ∧ rel_history r = default (rel_history DEFAULT_RELATIONSHIP) (d_history data)
    ∧ notes r = default (notes DEFAULT_RELATIONSHIP) (d_notes data)
    ∧ updatedAt r = now
    ∧ createdAt r =
        match d_createdAt data with
        | Some c => if date_truthy c then c else now
        | None => now
        end
    ∧ getRelationship a b w' = Ok (Some r) w'
    ∧ getRelationship b a w' = Ok (Some r) w'
    ∧ (∀ agent, reg_agents w !! a = Some agent →
         ∃ agent', reg_agents w' !! a = Some agent' ∧ mirrored agent' b = Some r)
    ∧ (∀ agent, reg_agents w !! b = Some agent →
         ∃ agent', reg_agents w' !! b = Some agent' ∧ mirrored agent' a = Some r).
Proof.
  intros Hne now.
  destruct (setRelationship_spec a b data w Hne) as (w' & E & Htm & _ & Ha & Hb).
  destruct (completeRelationship_fields data now) as (F1 & F2 & F3 & F4 & F5 & F6).
  cbv zeta in E, Htm, Ha, Hb. fold now in E, Htm, Ha, Hb.
  set (r := completeRelationship data now) in *. clearbody r.
  exists r, w'. do 7 (split; [done|]).
  split; [by eapply getRelationship_after|].
  split.
  { rewrite getRelationship_run by congruence.
    by rewrite (key_comm b a), Htm, lookup_insert_eq. }
  split.
  - intros agent Hag. destruct (Ha agent Hag) as (agent' & Hl & Hm).
    exists agent'. split; [done|]. unfold mirrored. rewrite Hm. simpl.
    apply lookup_insert_eq.
  - intros agent Hag. destruct (Hb agent Hag) as (agent' & Hl & Hm).
    exists agent'. split; [done|]. unfold mirrored. rewrite Hm. simpl.
    apply lookup_insert_eq.
Qed.

Lemma setRelationship_merges_and_mirrors_witness :
  ∃ r w',
    setRelationship (js "player") (js "npc1") Samples.no_data Samples.empty_world = Ok r w'
    ∧ factors r !! TRUST = Some (Int 50)
    ∧ updatedAt r = ISO 2000
    ∧ createdAt r = ISO 2000
    ∧ getRelationship (js "npc1") (js "player") w' = Ok (Some r) w'
    ∧ (∃ npc, reg_agents w' !! js "npc1" = Some npc
         ∧ mirrored npc (js "player") = Some r).
Proof.
  destruct (setRelationship_merges_and_mirrors Samples.empty_world
              (js "player") (js "npc1") Samples.no_data ltac:(discriminate))
    as (r & w' & E & _ & Hf & _ & _ & Hu & Hc & _ & G & _ & Hb).
  exists r, w'. split; [exact E|].
  split; [rewrite Hf; reflexivity|].
  split; [exact Hu|]. split; [exact Hc|]. split; [exact G|].
  exact (Hb _ eq_refl).
Defined.


(** ** History log *)

Section HistoryFacts.

Lemma lastn_length {A} (n : nat) (l : list A) :
  length (lastn n l) = Nat.min n (length l).
Proof. unfold lastn. rewrite length_drop. lia. Qed.

Lemma lastn_all {A} (n : nat) (l : list A) :
  (length l ≤ n)%nat → lastn n l = l.
Proof. intros H. unfold lastn. by replace (length l - n)%nat with 0%nat by lia. Qed.

Lemma lastn_app_lastn {A} (n : nat) (l1 l2 : list A) :
  lastn n (lastn n l1 ++ l2) = lastn n (l1 ++ l2).
Proof.
  destruct (decide (length l1 ≤ n)%nat) as [Hle|Hgt].
  - by rewrite (lastn_all n l1).
  - unfold lastn. rewrite !length_app, length_drop.
    replace (length l1 - (length l1 - n) + length l2 - n)%nat
      with (length l2) by lia.
    replace (length l1 + length l2 - n)%nat
      with (length l1 - n + length l2)%nat by lia.
    rewrite <- drop_drop. by rewrite (drop_app_le l1 l2) by lia.
Qed.

(** One [push], then one [shift] if the log has outgrown its bound. *)
Lemma push_shift_lastn {A} (max : nat) (h : list A) (e : A) :
  (length h ≤ max)%nat →
  (if (max <? length (h ++ [e]))%nat then tail (h ++ [e]) else h ++ [e])
  = lastn max (h ++ [e]).
Proof.
  intros Hle. rewrite length_app. simpl.
  destruct (Nat.ltb_spec max (length h + 1)) as [Hlt|Hge].
  - unfold lastn. rewrite length_app. simpl.
    replace (length h + 1 - max)%nat with 1%nat by lia.
    by destruct (h ++ [e]).
  - rewrite lastn_all; [done | rewrite length_app; simpl; lia].
Qed.

Lemma addEntry_spec (entry : EntryInput) (w : World) :
  (length (hm_history w) ≤ maxHistoryLength w)%nat →
  ∃ c w', addEntry entry w = Ok c w'
    ∧ completes entry c
    ∧ hm_history w' = lastn (maxHistoryLength w) (hm_history w ++ [c])
    ∧ maxHistoryLength w' = maxHistoryLength w.
Proof.
  intros Hle. unfold addEntry, _generateEntryId, Date_now, draw_id.
  unfold mbind, M_bind, mret, M_ret, bind, ret, gets, modify. simpl.
  match goal with |- context [ hm_history w ++ [?c] ] => set (c0 := c) end.
  pose proof (push_shift_lastn (maxHistoryLength w) (hm_history w) c0 Hle) as Hps.
  destruct (maxHistoryLength w <? length (hm_history w ++ [c0]))%nat; simpl;
    eexists c0, _; (split; [reflexivity|]); (split; [|by simpl]);
    unfold completes, c0; simpl; repeat split; by intros ? ->.
Qed.

Lemma addEntries_spec (entries : list EntryInput) (w : World) :
  (length (hm_history w) ≤ maxHistoryLength w)%nat →
  ∃ cs w', addEntries entries w = Ok cs w'
    ∧ Forall2 completes entries cs
    ∧ hm_history w' = lastn (maxHistoryLength w) (hm_history w ++ cs)
    ∧ maxHistoryLength w' = maxHistoryLength w.
Proof.
  revert w. induction entries as [|e rest IH]; intros w Hle.
  - exists [], w. simpl. rewrite mret_run, app_nil_r, lastn_all by done. by repeat split.
  - destruct (addEntry_spec e w Hle) as (c & w1 & E1 & Hc & Hh1 & Hm1).
    destruct (IH w1) as (cs & w2 & E2 & Hcs & Hh2 & Hm2).
    { rewrite Hh1, Hm1, lastn_length. lia. }
    exists (c :: cs), w2. simpl.
    rewrite bind_run, E1. cbv beta iota. rewrite bind_run, E2. cbv beta iota.
    rewrite mret_run. split; [done|]. split; [by constructor|].
    split; [|congruence].
    rewrite Hh2, Hm1, Hh1, lastn_app_lastn, <- app_assoc. done.
Qed.

End HistoryFacts.

(** C7. From a log within its bound, after [maxHistoryLength + k] calls of
    [addEntry] the log has length [maxHistoryLength] and holds exactly the
    last [maxHistoryLength] inserted entries, in insertion order: the first
    [k] are gone. *)
Theorem history_fifo_bound (w : World) (entries : list EntryInput) (k : nat) :
  (length (hm_history w) ≤ maxHistoryLength w)%nat →
  length entries = (maxHistoryLength w + k)%nat →
  ∃ inserted w',
    addEntries entries w = Ok inserted w'
    ∧ Forall2 completes entries inserted
    ∧ length (hm_history w') = maxHistoryLength w
    ∧ hm_history w' = drop k inserted
    ∧ hm_history w' = lastn (maxHistoryLength w) inserted.
Proof.
  intros Hle Hlen.
  destruct (addEntries_spec entries w Hle) as (cs & w' & E & Hcs & Hh & _).
  exists cs, w'. split; [done|]. split; [done|].
  pose proof (Forall2_length _ _ _ Hcs) as Hl.
  assert (hm_history w' = drop k cs) as Hd.
  { rewrite Hh. unfold lastn. rewrite length_app.
    replace (length (hm_history w) + length cs - maxHistoryLength w)%nat
      with (length (hm_history w) + k)%nat by lia.
    rewrite drop_app_add'; done. }
  split; [rewrite Hd, length_drop; lia|]. split; [done|].
  rewrite Hd. unfold lastn. f_equal. lia.
Qed.

Lemma history_fifo_bound_witness :
  ∃ inserted w',
    addEntries [Samples.entry "one"; Samples.entry "two"; Samples.entry "three"]
      Samples.empty_world = Ok inserted w'
    ∧ length (hm_history w') = 2%nat
    ∧ hm_history w' = drop 1 inserted.
Proof.
  destruct (history_fifo_bound Samples.empty_world
              [Samples.entry "one"; Samples.entry "two"; Samples.entry "three"] 1
              ltac:(simpl; lia) eq_refl)
    as (inserted & w' & E & _ & Hl & Hd & _).
  exists inserted, w'. split; [exact E|]. split; [exact Hl | exact Hd].
Defined.

Example history_run :
  match addEntries [Samples.entry "one"; Samples.entry "two"; Samples.entry "three"]
          Samples.empty_world with
  | Ok _ w' => he_content <$> hm_history w' = [js "two"; js "three"]
  | Throw _ _ => False
  end.
Proof. vm_compute. reflexivity. Qed.


(** ** Memory store *)
Section MemoryFacts.

Lemma map_get_elem {V} (k : jsstring) (v : V) (m : list (jsstring * V)) :
  NoDup m.*1 → (k, v) ∈ m → map_get k m = Some v.
Proof.
  induction m as [|[k' v'] m IH]; simpl; intros Hnd Hin.
  - by apply elem_of_nil in Hin.
  - apply NoDup_cons in Hnd as [Hk' Hnd].
    apply elem_of_cons in Hin as [[= -> ->]|Hin].
    + by rewrite decide_True.
    + rewrite decide_False; [by apply IH|].
      intros ->. apply Hk'. apply list_elem_of_fmap. by exists (k, v).
Qed.

Lemma map_delete_elem {V} (k k' : jsstring) (v' : V) (m : list (jsstring * V)) :
  (k', v') ∈ m → k' ≠ k → (k', v') ∈ map_delete k m.
Proof.
  induction m as [|[k0 v0] m IH]; simpl; intros Hin Hne; [done|].
  apply elem_of_cons in Hin as [[= <- <-]|Hin].
  - rewrite decide_False by done. apply elem_of_cons. by left.
  - destruct (decide (k0 = k)); [done|]. apply elem_of_cons. right. by apply IH.
Qed.

Lemma map_delete_keys {V} (k : jsstring) (m : list (jsstring * V)) :
  (map_delete k m).*1 ⊆ m.*1.
Proof.
  induction m as [|[k0 v0] m IH]; simpl; [done|].
  destruct (decide (k0 = k)); simpl.
  - intros x Hx. apply elem_of_cons. by right.
  - intros x Hx. apply elem_of_cons in Hx as [->|Hx]; apply elem_of_cons; auto.
Qed.

Lemma map_delete_NoDup {V} (k : jsstring) (m : list (jsstring * V)) :
  NoDup m.*1 → NoDup (map_delete k m).*1.
Proof.
  induction m as [|[k0 v0] m IH]; simpl; intros Hnd; [done|].
  apply NoDup_cons in Hnd as [Hk0 Hnd].
  destruct (decide (k0 = k)); [done|]. simpl. apply NoDup_cons. split; [|auto].
  intros Hin. apply Hk0. by apply (map_delete_keys k m).
Qed.

Lemma map_set_keys {V} (k : jsstring) (v : V) (m : list (jsstring * V)) :
  ∀ x, x ∈ (map_set k v m).*1 → x = k ∨ x ∈ m.*1.
Proof.
  induction m as [|[k0 v0] m IH]; simpl; intros x Hx.
  - apply list_elem_of_singleton in Hx. auto.
  - destruct (decide (k0 = k)); simpl in Hx.
    + apply elem_of_cons in Hx as [->|Hx]; [auto|]. right. apply elem_of_cons; auto.
    + apply elem_of_cons in Hx as [->|Hx].
      * right. apply elem_of_cons; auto.
      * destruct (IH x Hx); [auto|]. right. apply elem_of_cons; auto.
Qed.

Lemma map_set_NoDup {V} (k : jsstring) (v : V) (m : list (jsstring * V)) :
  NoDup m.*1 → NoDup (map_set k v m).*1.
Proof.
  induction m as [|[k0 v0] m IH]; simpl; intros Hnd.
  - apply NoDup_singleton.
  - apply NoDup_cons in Hnd as [Hk0 Hnd].
    destruct (decide (k0 = k)) as [->|Hne]; simpl; apply NoDup_cons.
    + done.
    + split; [|auto]. intros Hin. destruct (map_set_keys _ _ _ _ Hin); [congruence|done].
Qed.

(** One iteration either keeps the pair, on a memory that cannot be
    evicted before the time it holds, or moves to that strictly older
    non-critical memory. *)
Lemma scan_step_cases (parse : jsstring → option Z) (o : option jsstring) (t0 : Z)
    (k : jsstring) (m : Memory) :
  (scan_step parse (o, t0) (k, m) = (o, t0) ∧ ¬ evictable parse t0 m)
  ∨ ∃ tm, scan_step parse (o, t0) (k, m) = (Some k, tm)
      ∧ importance m < CRITICAL ∧ getTime parse (mem_createdAt m) = Some tm ∧ tm < t0.
Proof.
  unfold scan_step, evictable. simpl.
  destruct (Z.ltb_spec (importance m) CRITICAL) as [Hnc|Hc].
  - destruct (getTime parse (mem_createdAt m)) as [tm|].
    + destruct (Z.ltb_spec tm t0) as [Hlt|Hge].
      * right. by exists tm.
      * left. split; [done|]. intros (_ & t & [= <-] & ?). lia.
    + left. split; [done|]. by intros (_ & t & ? & _).
  - left. split; [done|]. intros [? _]. lia.
Qed.

Lemma evictable_later (parse : jsstring → option Z) (t t0 : Z) (m : Memory) :
  t ≤ t0 → ¬ evictable parse t0 m → ¬ evictable parse t m.
Proof. intros Hle Hn (Hc & t' & Ht & Hlt). apply Hn. split; [done|]. exists t'. split; [done | lia]. Qed.

(** The [forEach] of [_removeOldestMemory]: it ends on the first of the
    oldest memories that can be evicted, if there is one. *)
Lemma scan_exact (parse : jsstring → option Z) (l : list (jsstring * Memory))
    (o : option jsstring) (t0 : Z) :
  ((∀ k m, (k, m) ∈ l → ¬ evictable parse t0 m)
   ∧ fold_left (scan_step parse) l (o, t0) = (o, t0))
  ∨ ∃ k victim earlier later t,
      l = earlier ++ (k, victim) :: later
      ∧ fold_left (scan_step parse) l (o, t0) = (Some k, t)
      ∧ importance victim < CRITICAL
      ∧ getTime parse (mem_createdAt victim) = Some t
      ∧ t < t0
      ∧ (∀ k' m' t', (k', m') ∈ earlier → importance m' < CRITICAL →
           getTime parse (mem_createdAt m') = Some t' → t < t')
      ∧ (∀ k' m' t', (k', m') ∈ later → importance m' < CRITICAL →
           getTime parse (mem_createdAt m') = Some t' → t ≤ t').
Proof.
  revert o t0. induction l as [|[k m] l IH]; intros o t0; simpl.
  - left. split; [|done]. intros ? ? Hin. by apply elem_of_nil in Hin.
  - destruct (scan_step_cases parse o t0 k m) as [[-> Hstay] | (tm & -> & Hnc & Htm & Hlt)].
    + destruct (IH o t0)
        as [[Hnone E] | (k1 & v1 & e1 & l1 & t & -> & E & Hc1 & Ht1 & Hlt1 & He1 & Hl1)].
      * left. split; [|done].
        intros k' m' [[= -> ->] | Hin]%elem_of_cons; [done | by eapply Hnone].
      * right. exists k1, v1, ((k, m) :: e1), l1, t. split; [done|].
        do 4 (split; [done|]). split; [|done].
        intros k' m' t' [[= -> ->] | Hin]%elem_of_cons Hnc' Ht'; [|by eapply He1].
        destruct (Z.lt_ge_cases t t') as [|Hge]; [done|].
        exfalso. apply Hstay. split; [done|]. exists t'. split; [done | lia].
    + destruct (IH (Some k) tm)
        as [[Hnone E] | (k1 & v1 & e1 & l1 & t & -> & E & Hc1 & Ht1 & Hlt1 & He1 & Hl1)].
      * right. exists k, m, [], l, tm. split; [done|].
        do 4 (split; [done|]). split; [by intros ? ? ? ?%elem_of_nil|].
        intros k' m' t' Hin Hnc' Ht'.
        destruct (Z.le_gt_cases tm t') as [|Hgt]; [done|].
        exfalso. apply (Hnone k' m' Hin). split; [done|]. exists t'. split; [done | lia].
      * right. exists k1, v1, ((k, m) :: e1), l1, t. split; [done|].
        split; [done|]. split; [done|]. split; [done|]. split; [lia|]. split; [|done].
        intros k' m' t' [[= -> ->] | Hin]%elem_of_cons Hnc' Ht'; [|by eapply He1].
        rewrite Htm in Ht'. injection Ht' as <-. done.
Qed.

Lemma map_delete_middle {V} (k : jsstring) (v : V) (earlier later : list (jsstring * V)) :
  NoDup (earlier ++ (k, v) :: later).*1 →
  map_delete k (earlier ++ (k, v) :: later) = earlier ++ later.
Proof.
  induction earlier as [|[k0 v0] earlier IH]; simpl; intros Hnd.
  - by rewrite decide_True.
  - apply NoDup_cons in Hnd as [Hk0 Hnd].
    rewrite decide_False; [by rewrite IH|].
    intros ->. apply Hk0. rewrite fmap_app. apply elem_of_app. right.
    simpl. apply elem_of_cons. by left.
Qed.

(** What the registry and the game state leave alone. *)
Lemma updateAgent_memories (agentId : jsstring) (updates : AgentUpdates) (w : World) :
  ∃ res w', updateAgent agentId updates w = Ok res w'
    ∧ mm_memories w' = mm_memories w ∧ maxMemories w' = maxMemories w.
Proof.
  unfold updateAgent, updatePlayer, updateState_agents, new_Date_toISOString, Date_now.
  munfold. simpl.
  destruct (reg_agents w !! agentId) as [agent|]; simpl; [|by eauto 10].
  destruct (decide (agentId = js "player")); simpl; [by eauto 10|].
  destruct (AgentType_eqb (agent_type agent) NPC); simpl; by eauto 10.
Qed.

Lemma _dissociateMemoryFromAgent_memories (memoryId agentId : jsstring) (w : World) :
  ∃ w', _dissociateMemoryFromAgent memoryId agentId w = Ok tt w'
    ∧ mm_memories w' = mm_memories w ∧ maxMemories w' = maxMemories w.
Proof.
  unfold _dissociateMemoryFromAgent, getAgent. mstep.
  destruct (mm_agentMemories w !! agentId) as [ids|]; [|by exists w].
  do 2 mstep.
  set (remaining := filter (λ i, i ≠ memoryId) ids).
  set (w1 := set_mm_agentMemories _ w).
  destruct (reg_agents w1 !! agentId); [|by exists w1].
  destruct (updateAgent_memories agentId (memoryIds_update remaining) w1)
    as (res & w' & E & ? & ?).
  rewrite bind_run, E. cbv beta iota. rewrite mret_run. by exists w'.
Qed.

Lemma _updateGameStateMemories_memories (w : World) :
  ∃ w', _updateGameStateMemories w = Ok tt w'
    ∧ mm_memories w' = mm_memories w ∧ maxMemories w' = maxMemories w.
Proof. by eexists. Qed.

Lemma deleteMemory_spec (memoryId : jsstring) (w : World) :
  ∃ res w', deleteMemory memoryId w = Ok res w'
    ∧ maxMemories w' = maxMemories w
    ∧ mm_memories w' =
        match map_get memoryId (mm_memories w) with
        | Some _ => map_delete memoryId (mm_memories w)
        | None => mm_memories w
        end.
Proof.
  unfold deleteMemory. mstep.
  destruct (map_get memoryId (mm_memories w)) as [memory|]; [|by exists false, w].
  mstep.
  match goal with |- context [_ ≫= _] => idtac end.
  set (w1 := set_mm_memories (map_delete memoryId) w).
  assert (∃ w2, (if from_option truthy false (mem_agentId memory)
                 then _dissociateMemoryFromAgent memoryId (default [] (mem_agentId memory))
                 else mret tt) w1 = Ok tt w2
                ∧ mm_memories w2 = mm_memories w1 ∧ maxMemories w2 = maxMemories w1)
    as (w2 & E2 & Hm2 & Hx2).
  { destruct (from_option truthy false (mem_agentId memory)).
    - apply _dissociateMemoryFromAgent_memories.
    - by exists w1. }
  rewrite bind_run, E2. cbv beta iota.
  destruct (_updateGameStateMemories_memories w2) as (w3 & E3 & Hm3 & Hx3).
  rewrite bind_run, E3. cbv beta iota. rewrite mret_run.
  exists true, w3. split; [done|].
  split; [by rewrite Hx3, Hx2 | by rewrite Hm3, Hm2].
Qed.

Lemma _removeOldestMemory_spec (w : World) :
  NoDup (mm_memories w).*1 →
  ∃ w', _removeOldestMemory w = Ok tt w'
    ∧ maxMemories w' = maxMemories w
    ∧ evicts_oldest_non_critical (date_parse w) (clock w (tick w))
        (mm_memories w) (mm_memories w').
Proof.
  intros Hnd. unfold _removeOldestMemory, Date_now.
  rewrite bind_run. cbv beta iota. do 2 mstep.
  change (mm_memories (set_tick S w)) with (mm_memories w).
  change (date_parse (set_tick S w)) with (date_parse w).
  destruct (scan_exact (date_parse w) (mm_memories w) None (clock w (tick w)))
    as [[Hnone ->] | (k & victim & earlier & later & t & Hsplit & -> & Hnc & Ht & Hlt & He & Hl)];
    cbn [fst].
  - exists (set_tick S w). rewrite mret_run. split; [done|]. split; [done|]. by left.
  - assert (evicts_oldest_non_critical (date_parse w) (clock w (tick w)) (mm_memories w)
              (if truthy k then earlier ++ later else mm_memories w)) as Hev.
    { right. exists k, victim, earlier, later. split; [done|].
      split; [split; [done | by exists t]|]. split; [|split; [|done]].
      - split; [done|]. exists t. split; [done|].
        intros k' m' t' Hin Hnc' Ht'. rewrite Hsplit in Hin.
        apply elem_of_app in Hin as [Hin | [[= -> ->] | Hin]%elem_of_cons].
        + specialize (He k' m' t' Hin Hnc' Ht'). lia.
        + rewrite Ht in Ht'. injection Ht' as <-. lia.
        + by eapply Hl.
      - intros k' m' Hin Hnc' Heq. rewrite Ht in Heq.
        specialize (He k' m' t Hin Hnc' Heq). lia. }
    destruct (truthy k).
    + destruct (deleteMemory_spec k (set_tick S w)) as (res & w' & E & Hx & Hm).
      change (mm_memories (set_tick S w)) with (mm_memories w) in Hm.
      rewrite (map_get_elem k victim) in Hm; [|done|].
      2: { rewrite Hsplit. apply elem_of_app. right. apply elem_of_cons. by left. }
      rewrite bind_run, E. cbv beta iota. rewrite mret_run.
      exists w'. split; [done|]. split; [done|].
      rewrite Hm. rewrite Hsplit at 2. rewrite map_delete_middle by (by rewrite <- Hsplit).
      done.
    + exists (set_tick S w). rewrite mret_run. split; [done|]. split; [done|]. done.
Qed.

Lemma evicts_keeps_critical (parse : jsstring → option Z) (now : Z)
    (before after : list (jsstring * Memory)) :
  evicts_oldest_non_critical parse now before after → keeps_critical before after.
Proof.
  intros [[_ ->] | (k & victim & earlier & later & -> & [Hnc _] & _ & _ & ->)] k' m' Hin Hcrit;
    [done|].
  destruct (truthy k); [|done].
  apply elem_of_app in Hin as [Hin | [[= -> ->] | Hin]%elem_of_cons].
  - apply elem_of_app. by left.
  - lia.
  - apply elem_of_app. by right.
Qed.

Lemma evicts_NoDup (parse : jsstring → option Z) (now : Z)
    (before after : list (jsstring * Memory)) :
  NoDup before.*1 → evicts_oldest_non_critical parse now before after → NoDup after.*1.
Proof.
  intros Hnd [[_ ->] | (k & victim & earlier & later & -> & _ & _ & _ & ->)]; [done|].
  destruct (truthy k); [|done].
  eapply sublist_NoDup; [exact Hnd|].
  rewrite !fmap_app. apply sublist_app; [done|]. simpl. by apply sublist_cons.
Qed.

Lemma addMemory_spec (memory : MemoryInput) (w : World) :
  NoDup (mm_memories w).*1 →
  ∃ id m w', addMemory memory w = Ok id w'
    ∧ stored_as memory id m
    ∧ maxMemories w' = maxMemories w
    ∧ NoDup (mm_memories w').*1
    ∧ let inserted := map_set id m (mm_memories w) in
      ((length inserted ≤ maxMemories w)%nat → mm_memories w' = inserted)
      ∧ ((maxMemories w < length inserted)%nat →
         evicts_oldest_non_critical (date_parse w) (eviction_time w memory)
           inserted (mm_memories w'))
      ∧ keeps_critical inserted (mm_memories w').
Proof.
  intros Hnd. unfold addMemory, eviction_time.
  assert (∃ id w1, (if from_option truthy false (mi_id memory)
                    then mret (default [] (mi_id memory)) else _generateMemoryId) w
                   = Ok id w1
                   ∧ mm_memories w1 = mm_memories w ∧ maxMemories w1 = maxMemories w
                   ∧ clock w1 = clock w ∧ date_parse w1 = date_parse w
                   ∧ tick w1 = (tick w + (if from_option truthy false (mi_id memory)
                                          then 0 else 1))%nat
                   ∧ (∀ i, mi_id memory = Some i → i ≠ [] → id = i))
    as (id & w1 & E1 & Hm1 & Hx1 & Hc1 & Hp1 & Ht1 & Hid).
  { destruct (mi_id memory) as [[|c i]|]; simpl;
      eexists _, _; (split; [reflexivity|]); (split; [done|]); (split; [done|]);
      (split; [done|]); (split; [done|]); (split; [simpl; lia|]);
      intros ? [= <-]; done. }
  rewrite bind_run, E1. cbv beta iota.
  assert (∃ created w2, (if from_option date_truthy false (mi_createdAt memory)
                         then mret (default (Text []) (mi_createdAt memory))
                         else new_Date_toISOString) w1 = Ok created w2
                   ∧ mm_memories w2 = mm_memories w1 ∧ maxMemories w2 = maxMemories w1
                   ∧ clock w2 = clock w1 ∧ date_parse w2 = date_parse w1
                   ∧ tick w2 = (tick w1 + (if from_option date_truthy false (mi_createdAt memory)
                                           then 0 else 1))%nat
                   ∧ (∀ c, mi_createdAt memory = Some c → date_truthy c = true → created = c))
    as (created & w2 & E2 & Hm2 & Hx2 & Hc2 & Hp2 & Ht2 & Hcr).
  { destruct (mi_createdAt memory) as [c|]; simpl; [destruct (date_truthy c) eqn:Hc|];
      eexists _, _; (split; [reflexivity|]); (split; [done|]); (split; [done|]);
      (split; [done|]); (split; [done|]); (split; [simpl; lia|]);
      intros ? [= <-]; congruence. }
  rewrite bind_run, E2. cbv beta iota.
  mstep. cbv zeta. mstep. do 2 mstep.
  match goal with |- context [map_set id ?m] => set (stored := m) end.
  set (w3 := set_mm_memories (map_set id stored) (set_tick S w2)).
  assert (mm_memories w3 = map_set id stored (mm_memories w)) as Hm3
    by (unfold w3; simpl; congruence).
  assert (maxMemories w3 = maxMemories w) as Hx3 by (unfold w3; simpl; congruence).
  assert (date_parse w3 = date_parse w) as Hp3 by (unfold w3; simpl; congruence).
  assert (clock w3 (tick w3)
          = clock w (tick w
                     + (if from_option truthy false (mi_id memory) then 0 else 1)
                     + (if from_option date_truthy false (mi_createdAt memory) then 0 else 1)
                     + 1)%nat) as Hnow.
  { unfold w3. simpl. rewrite Hc2, Hc1, Ht2, Ht1. f_equal. lia. }
  assert (NoDup (mm_memories w3).*1) as Hnd3 by (rewrite Hm3; by apply map_set_NoDup).
  rewrite Hx3.
  assert (∃ w4, (if (maxMemories w <? length (mm_memories w3))%nat
                 then _removeOldestMemory else mret tt) w3 = Ok tt w4
                ∧ maxMemories w4 = maxMemories w3
                ∧ NoDup (mm_memories w4).*1
                ∧ ((length (mm_memories w3) ≤ maxMemories w)%nat →
                   mm_memories w4 = mm_memories w3)
                ∧ ((maxMemories w < length (mm_memories w3))%nat →
                   evicts_oldest_non_critical (date_parse w3) (clock w3 (tick w3))
                     (mm_memories w3) (mm_memories w4))
                ∧ keeps_critical (mm_memories w3) (mm_memories w4))
    as (w4 & E4 & Hx4 & Hnd4 & Hsame & Hev & Hkeep).
  { destruct (Nat.ltb_spec (maxMemories w) (length (mm_memories w3))) as [Hlt|Hge].
    - destruct (_removeOldestMemory_spec w3 Hnd3) as (w4 & E & ? & Hev).
      exists w4. split; [done|]. split; [done|].
      split; [by eapply evicts_NoDup|]. split; [lia|]. split; [done|].
      by eapply evicts_keeps_critical.
    - exists w3. rewrite mret_run. split; [done|]. split; [done|]. split; [done|].
      split; [done|]. split; [lia|]. by intros ? ? ? ?. }
  rewrite bind_run, E4. cbv beta iota.
  destruct (_updateGameStateMemories_memories w4) as (w5 & E5 & Hm5 & Hx5).
  rewrite bind_run, E5. cbv beta iota. rewrite mret_run.
  exists id, stored, w5. split; [done|].
  split; [by repeat split|].
  split; [congruence|]. rewrite Hm5. rewrite Hm3, Hp3, Hnow in *.
  split; [done|]. cbv zeta. done.
Qed.

End MemoryFacts.

Lemma addMemories_spec (memories : list MemoryInput) (w : World) :
  NoDup (mm_memories w).*1 →
  ∃ ids w', addMemories memories w = Ok ids w'
    ∧ NoDup (mm_memories w').*1 ∧ maxMemories w' = maxMemories w.
Proof.
  revert w. induction memories as [|m rest IH]; intros w Hnd; simpl.
  - by exists [], w.
  - destruct (addMemory_spec m w Hnd) as (id & s & w1 & E1 & _ & Hx1 & Hnd1 & _).
    destruct (IH w1 Hnd1) as (ids & w2 & E2 & Hnd2 & Hx2).
    exists (id :: ids), w2. rewrite bind_run, E1. cbv beta iota.
    rewrite bind_run, E2. cbv beta iota. rewrite mret_run.
    split; [done|]. split; [done|]. congruence.
Qed.

Lemma addMemories_app (l1 l2 : list MemoryInput) (w w1 w2 : World)
    (ids1 ids2 : list jsstring) :
  addMemories l1 w = Ok ids1 w1 →
  addMemories l2 w1 = Ok ids2 w2 →
  addMemories (l1 ++ l2) w = Ok (ids1 ++ ids2) w2.
Proof.
  revert w ids1. induction l1 as [|m l1 IH]; intros w ids1; simpl.
  - rewrite mret_run. by intros [= <- <-].
  - rewrite !bind_run. destruct (addMemory m w) as [id w'|]; [|done].
    rewrite !bind_run.
    destruct (addMemories l1 w') as [ids w''|] eqn:E; [|done].
    rewrite mret_run. intros [= <- <-] E2.
    rewrite (IH w' ids E E2). by rewrite mret_run.
Qed.

(** C8. In any run of [addMemory] calls on a store with distinct ids, each
    call first stores its memory.  If the store is then within its maximum,
    nothing is removed.  If it is above, and some memory can be evicted (it
    is not critical and was created before the clock reading of the
    eviction), exactly one memory is removed: an oldest non-critical one,
    the first such in the store's order; if none can be, nothing is
    removed.  Every CRITICAL memory stays in either case. *)
Theorem eviction_spares_critical (w : World) (earlier later : list MemoryInput)
    (memory : MemoryInput) :
  NoDup (mm_memories w).*1 →
  ∃ ids1 w1 id m w2 ids2 w3,
    addMemories earlier w = Ok ids1 w1
    ∧ addMemory memory w1 = Ok id w2
    ∧ addMemories (earlier ++ memory :: later) w = Ok (ids1 ++ id :: ids2) w3
    ∧ stored_as memory id m
    ∧ let inserted := map_set id m (mm_memories w1) in
      ((length inserted ≤ maxMemories w)%nat → mm_memories w2 = inserted)
      ∧ ((maxMemories w < length inserted)%nat →
         evicts_oldest_non_critical (date_parse w1) (eviction_time w1 memory)
           inserted (mm_memories w2))
      ∧ keeps_critical inserted (mm_memories w2).
Proof.
  intros Hnd.
  destruct (addMemories_spec earlier w Hnd) as (ids1 & w1 & E1 & Hnd1 & Hx1).
  destruct (addMemory_spec memory w1 Hnd1)
    as (id & m & w2 & E2 & Hst & Hx2 & Hnd2 & Hsame & Hev & Hkeep).
  destruct (addMemories_spec later w2 Hnd2) as (ids2 & w3 & E3 & _ & _).
  exists ids1, w1, id, m, w2, ids2, w3.
  split; [done|]. split; [done|]. split.
  { eapply addMemories_app; [done|]. simpl.
    rewrite bind_run, E2. cbv beta iota. rewrite bind_run, E3. done. }
  split; [done|]. cbv zeta. rewrite <- Hx1. done.
Qed.

Lemma eviction_spares_critical_witness :
  ∃ ids1 w1 id w2,
    addMemories [Samples.memory "founding" CRITICAL 10; Samples.memory "rumour" LOW 20]
      Samples.empty_world = Ok ids1 w1
    ∧ (mm_memories w1).*1 = [js "founding"; js "rumour"]
    ∧ addMemory (Samples.memory "errand" MEDIUM 30) w1 = Ok id w2
    ∧ (mm_memories w2).*1 = [js "founding"; js "errand"].
Proof.
  destruct (eviction_spares_critical Samples.empty_world
           [Samples.memory "founding" CRITICAL 10; Samples.memory "rumour" LOW 20]
           [] (Samples.memory "errand" MEDIUM 30))
    as (ids1 & w1 & id & m & w2 & ids2 & w3 & E1 & E2 & _ & Hst & Hev).
  { simpl. constructor. }
  cbv zeta in Hev. destruct Hev as (_ & Hev & _).
  exists ids1, w1, id, w2. split; [exact E1|].
  destruct Hst as (_ & _ & _ & _ & Himp & Hid & Hcr).
  specialize (Hid _ eq_refl ltac:(discriminate)).
  specialize (Hcr _ eq_refl eq_refl). simpl in Himp.
  assert (w1 = match addMemories
                       [Samples.memory "founding" CRITICAL 10; Samples.memory "rumour" LOW 20]
                       Samples.empty_world with
               | Ok _ w' => w' | Throw _ w' => w'
               end) as Hw by (by rewrite E1).
  assert (∃ F R, mm_memories w1 = [(js "founding", F); (js "rumour", R)]
                 ∧ importance F = CRITICAL ∧ importance R = LOW
                 ∧ mem_createdAt R = ISO 20) as (F & R & Hs & HiF & HiR & HcR).
  { rewrite Hw. vm_compute. eexists _, _. by repeat split. }
  assert (eviction_time w1 (Samples.memory "errand" MEDIUM 30) = 2005) as Hnow
    by (rewrite Hw; by vm_compute).
  rewrite Hs, Hnow, Hid in Hev. rewrite Hs.
  split; [reflexivity|]. split; [exact E2|].
  assert (map_set (js "errand") m [(js "founding", F); (js "rumour", R)]
          = [(js "founding", F); (js "rumour", R); (js "errand", m)]) as Hins by reflexivity.
  rewrite Hins in Hev.
  destruct Hev as [[Hnone _] | (k & victim & earlier & later & Hsplit & Hevict & Hold & _ & ->)];
    [by vm_compute|..].
  - exfalso. apply (Hnone (js "rumour") R).
    + apply list_elem_of_further, list_elem_of_here.
    + split; [rewrite HiR; done|]. exists 20. rewrite HcR. done.
  - destruct earlier as [|e1 [|e2 [|e3 earlier]]]; simpl in Hsplit.
    + injection Hsplit as Hk Hv Hl. subst victim.
      destruct Hevict as [Hi _]. rewrite HiF in Hi. done.
    + injection Hsplit as He1 Hk Hv Hl. subst e1 k later. reflexivity.
    + injection Hsplit as He1 He2 Hk Hv Hl. subst victim.
      destruct Hold as (_ & t & Ht & Hleast). rewrite Hcr in Ht. injection Ht as <-.
      specialize (Hleast (js "rumour") R 20).
      assert (30 ≤ 20); [|lia]. apply Hleast.
      * apply list_elem_of_further, list_elem_of_here.
      * rewrite HiR. done.
      * rewrite HcR. done.
    + injection Hsplit as He1 He2 He3 Hrest. by destruct earlier.
Defined.

(** The eviction is forced: a store above its maximum that holds a memory
    which can be evicted, under ids none of which is empty, does not come
    out of [evicts_oldest_non_critical] as it went in. *)
Lemma eviction_takes_place (parse : jsstring → option Z) (now : Z)
    (before after : list (jsstring * Memory)) (k : jsstring) (m : Memory) :
  evicts_oldest_non_critical parse now before after →
  (k, m) ∈ before → evictable parse now m →
  [] ∉ before.*1 →
  S (length after) = length before.
Proof.
  intros [[Hnone _] | (k1 & v1 & e1 & l1 & -> & _ & _ & _ & ->)] Hin Hev Hkeys.
  - by destruct (Hnone k m Hin).
  - destruct k1 as [|c k1]; simpl.
    + exfalso. apply Hkeys. rewrite fmap_app. apply elem_of_app. right.
      simpl. apply elem_of_cons. by left.
    + rewrite !length_app. simpl. lia.
Qed.

(** A text date the engine can parse counts like any other: with
    ['1970-01-01'] read as time 0, the memory [b] created then is the one
    evicted, not the memory [a] created at time 100. *)
Example parsed_text_date_is_oldest :
  let engine :=
    {| tm_relationships := ∅; reg_agents := ∅;
       game := game Samples.empty_world;
       mm_memories := []; mm_agentMemories := ∅; maxMemories := 2;
       hm_history := []; maxHistoryLength := 2;
       clock := clock Samples.empty_world;
       date_parse := fun s => if decide (s = js "1970-01-01") then Some 0 else None;
       tick := 0; idgen := idgen Samples.empty_world; drawn := 0 |} in
  let dated (id : string) (created : DateStr) :=
    {| mi_id := Some (js id); mi_type := MEM_EVENT; mi_content := js id;
       mi_agentId := None; mi_importance := LOW; mi_accessCount := 0;
       mi_createdAt := Some created |} in
  match addMemories [dated "a"%string (ISO 100);
                     dated "b"%string (Text (js "1970-01-01"));
                     dated "c"%string (ISO 200)] engine with
  | Ok _ w' => (mm_memories w').*1 = [js "a"; js "c"]
  | Throw _ _ => False
  end.
Proof. vm_compute. reflexivity. Qed.

Example eviction_run :
  match addMemories [Samples.memory "founding" CRITICAL 10;
                     Samples.memory "rumour" LOW 20;
                     Samples.memory "errand" MEDIUM 30] Samples.empty_world with
  | Ok _ w' => (mm_memories w').*1 = [js "founding"; js "errand"]
  | Throw _ _ => False
  end.
Proof. vm_compute. reflexivity. Qed.


(** ** Action parsing *)

Section RegexFacts.

Lemma one_elem (p : N → bool) (s r : jsstring) :
  r ∈ one p s ↔ ∃ c, s = c :: r ∧ p c = true.
Proof.
  unfold one. destruct s as [|c s].
  - split; [by intros ?%elem_of_nil | by intros (? & ? & ?)].
  - destruct (p c) eqn:Hp.
    + rewrite list_elem_of_singleton. split; [intros ->; eauto | by intros (? & [= <- <-] & _)].
    + split; [by intros ?%elem_of_nil | intros (? & [= <- <-] & ?); congruence].
Qed.

Lemma eos_elem (s : jsstring) (u : unit) : u ∈ eos s ↔ s = [].
Proof.
  destruct s; simpl.
  - split; [done|]. intros _. destruct u. apply list_elem_of_singleton. done.
  - split; [by intros ?%elem_of_nil | done].
Qed.

Lemma star_greedy_elem (p : N → bool) (s r : jsstring) :
  r ∈ star_greedy p s ↔ ∃ pre, s = pre ++ r ∧ forallb p pre = true.
Proof.
  revert r. induction s as [|c s IH]; intros r; simpl.
  - rewrite list_elem_of_singleton. split.
    + intros ->. by exists [].
    + intros (pre & H & _). symmetry in H. by apply app_eq_nil in H as [_ ->].
  - destruct (p c) eqn:Hp.
    + rewrite elem_of_app, list_elem_of_singleton, IH. split.
      * intros [(pre & -> & Hpre) | ->].
        -- exists (c :: pre). simpl. by rewrite Hp, Hpre.
        -- by exists [].
      * intros (pre & H & Hpre). destruct pre as [|c' pre]; simpl in *.
        -- by right.
        -- injection H as <- ->. left. exists pre.
           split; [done|]. by apply andb_true_iff in Hpre as [_ ?].
    + rewrite list_elem_of_singleton. split.
      * intros ->. by exists [].
      * intros (pre & H & Hpre). destruct pre as [|c' pre]; simpl in *; [done|].
        injection H as <- ->. rewrite Hp in Hpre. done.
Qed.

Lemma plus_lazy_elem (p : N → bool) (s c r : jsstring) :
  (c, r) ∈ plus_lazy p s ↔ c ≠ [] ∧ s = c ++ r ∧ forallb p c = true.
Proof.
  revert c r. induction s as [|x s IH]; intros c r; simpl.
  - split; [by intros ?%elem_of_nil|].
    intros (Hc & H & _). symmetry in H. by apply app_eq_nil in H as [-> _].
  - destruct (p x) eqn:Hp.
    + rewrite elem_of_cons, list_elem_of_fmap. split.
      * intros [[= -> ->] | ([c' r'] & [= -> ->] & Hin)].
        -- simpl. by rewrite Hp.
        -- apply IH in Hin as (Hc & -> & Hall). simpl. by rewrite Hp, Hall.
      * intros (Hc & H & Hall). destruct c as [|y c]; [done|].
        simpl in *. injection H as <- ->.
        apply andb_true_iff in Hall as [_ Hall].
        destruct c as [|z c].
        -- by left.
        -- right. exists (z :: c, r). split; [done|]. apply IH. done.
    + split; [by intros ?%elem_of_nil|].
      intros (Hc & H & Hall). destruct c as [|y c]; [done|].
      simpl in *. injection H as <- ->. rewrite Hp in Hall. done.
Qed.

Lemma opt_greedy_elem (p : N → bool) (s r : jsstring) :
  r ∈ opt_greedy p s ↔ r = s ∨ ∃ c, s = c :: r ∧ p c = true.
Proof.
  unfold opt_greedy. destruct s as [|c s].
  - rewrite list_elem_of_singleton. split; [auto|]. by intros [?|(? & ? & ?)].
  - destruct (p c) eqn:Hp.
    + rewrite elem_of_cons, list_elem_of_singleton. split.
      * intros [->| ->]; eauto.
      * intros [->|(? & [= <- <-] & _)]; auto.
    + rewrite list_elem_of_singleton. split; [auto|].
      intros [->|(? & [= <- <-] & ?)]; [done|congruence].
Qed.

(** The successes of the first pattern shape are exactly the full-string
    decompositions. *)
Lemma enclosed_successes (open close : N → bool) (input content : jsstring) :
  content ∈ (s1 ← star_greedy is_space input;
             s2 ← one open s1;
             cr ← plus_lazy dot s2;
             s4 ← one close cr.2;
             s5 ← star_greedy is_space s4;
             _ ← eos s5;
             [cr.1])
  ↔ enclosed open close input content.
Proof.
  unfold enclosed. split.
  - intros (s1 & (s2 & ([c r] & (s4 & (s5 & (u & Hc & Heos)%list_elem_of_bind
      & H5)%list_elem_of_bind & H4)%list_elem_of_bind & H3)%list_elem_of_bind
      & H2)%list_elem_of_bind & H1)%list_elem_of_bind.
    simpl in *. apply list_elem_of_singleton in Hc as ->.
    apply eos_elem in Heos as ->.
    apply star_greedy_elem in H5 as (post & -> & Hpost).
    apply one_elem in H4 as (cl & -> & Hcl).
    apply plus_lazy_elem in H3 as (Hne & -> & Hdot).
    apply one_elem in H2 as (o & -> & Ho).
    apply star_greedy_elem in H1 as (pre & -> & Hpre).
    exists pre, o, cl, post. rewrite app_nil_r. done.
  - intros (pre & o & cl & post & -> & Hpre & Ho & Hne & Hdot & Hcl & Hpost).
    apply list_elem_of_bind. exists (o :: content ++ cl :: post).
    split; [|apply star_greedy_elem; eauto].
    apply list_elem_of_bind. exists (content ++ cl :: post).
    split; [|apply one_elem; eauto].
    apply list_elem_of_bind. exists (content, cl :: post).
    split; [|by apply plus_lazy_elem].
    apply list_elem_of_bind. exists post.
    split; [|apply one_elem; eauto].
    apply list_elem_of_bind. exists [].
    split; [|apply star_greedy_elem; exists post; by rewrite app_nil_r].
    apply list_elem_of_bind. exists tt.
    split; [by apply list_elem_of_singleton | by apply eos_elem].
Qed.

Lemma opened_successes (open close : N → bool) (input content : jsstring) :
  content ∈ (s1 ← star_greedy is_space input;
             s2 ← one open s1;
             cr ← plus_lazy dot s2;
             s4 ← opt_greedy close cr.2;
             s5 ← star_greedy is_space s4;
             _ ← eos s5;
             [cr.1])
  ↔ opened open close input content.
Proof.
  unfold opened. split.
  - intros (s1 & (s2 & ([c r] & (s4 & (s5 & (u & Hc & Heos)%list_elem_of_bind
      & H5)%list_elem_of_bind & H4)%list_elem_of_bind & H3)%list_elem_of_bind
      & H2)%list_elem_of_bind & H1)%list_elem_of_bind.
    simpl in *. apply list_elem_of_singleton in Hc as ->.
    apply eos_elem in Heos as ->.
    apply star_greedy_elem in H5 as (post & -> & Hpost).
    apply plus_lazy_elem in H3 as (Hne & -> & Hdot).
    apply one_elem in H2 as (o & -> & Ho).
    apply star_greedy_elem in H1 as (pre & -> & Hpre).
    rewrite app_nil_r in H4.
    exists pre, o, post. do 5 (split; [done|]).
    apply opt_greedy_elem in H4 as [->|(cl & -> & Hcl)]; [by left|].
    right. by exists cl.
  - intros (pre & o & post & Hpre & Ho & Hne & Hdot & Hpost & Hin).
    assert (∃ rest, input = pre ++ o :: content ++ rest
                    ∧ post ∈ opt_greedy close rest) as (rest & -> & Hrest).
    { destruct Hin as [->|(cl & Hcl & ->)].
      - exists post. split; [done|]. apply opt_greedy_elem. by left.
      - exists (cl :: post). split; [done|]. apply opt_greedy_elem. right. eauto. }
    apply list_elem_of_bind. exists (o :: content ++ rest).
    split; [|apply star_greedy_elem; eauto].
    apply list_elem_of_bind. exists (content ++ rest).
    split; [|apply one_elem; eauto].
    apply list_elem_of_bind. exists (content, rest).
    split; [|by apply plus_lazy_elem].
    apply list_elem_of_bind. exists post. split; [|done].
    apply list_elem_of_bind. exists [].
    split; [|apply star_greedy_elem; exists post; by rewrite app_nil_r].
    apply list_elem_of_bind. exists tt.
    split; [by apply list_elem_of_singleton | by apply eos_elem].
Qed.

Lemma exec_enclosed_Some (open close : N → bool) (input content : jsstring) :
  exec_enclosed open close input = Some content → enclosed open close input content.
Proof. intros H%head_Some_elem_of. by apply enclosed_successes. Qed.

Lemma exec_enclosed_None (open close : N → bool) (input : jsstring) :
  exec_enclosed open close input = None ↔ ∀ content, ¬ enclosed open close input content.
Proof.
  unfold exec_enclosed. rewrite head_None. split.
  - intros Hnil content Hc%enclosed_successes. rewrite Hnil in Hc. by apply elem_of_nil in Hc.
  - intros Hno. apply elem_of_nil_inv. intros c Hc%enclosed_successes. by eapply Hno.
Qed.

Lemma exec_opened_Some (open close : N → bool) (input content : jsstring) :
  exec_opened open close input = Some content → opened open close input content.
Proof. intros H%head_Some_elem_of. by apply opened_successes. Qed.

Lemma exec_opened_None (open close : N → bool) (input : jsstring) :
  exec_opened open close input = None ↔ ∀ content, ¬ opened open close input content.
Proof.
  unfold exec_opened. rewrite head_None. split.
  - intros Hnil content Hc%opened_successes. rewrite Hnil in Hc. by apply elem_of_nil in Hc.
  - intros Hno. apply elem_of_nil_inv. intros c Hc%opened_successes. by eapply Hno.
Qed.

End RegexFacts.

(** C9. [parseActionInput] on the three sample inputs; each pattern
    succeeds only on a decomposition of the whole input (and fails only if
    there is none); the patterns are tried in the order bracket, brace,
    quote, the first success deciding; when none succeeds the result is
    DIALOGUE with the raw input. *)
Theorem parseActionInput_patterns :
  parseActionInput (js "【攻击门】") = {| pr_type := ACTION; pr_content := js "攻击门" |}
  ∧ parseActionInput (js "「使用药水」") = {| pr_type := ITEM; pr_content := js "使用药水" |}
  ∧ parseActionInput (js "你好") = {| pr_type := DIALOGUE; pr_content := js "你好" |}
  ∧ (∀ input,
       (∀ c, actionRegex input = Some c →
          enclosed (in_class (js "[【")) (in_class (js "]】")) input c)
       ∧ (actionRegex input = None ↔
          ∀ c, ¬ enclosed (in_class (js "[【")) (in_class (js "]】")) input c)
       ∧ (∀ c, itemRegex input = Some c →
          enclosed (in_class (js "{「")) (in_class (js "}」")) input c)
       ∧ (itemRegex input = None ↔
          ∀ c, ¬ enclosed (in_class (js "{「")) (in_class (js "}」")) input c)
       ∧ (∀ c, dialogueRegex input = Some c →
          opened (in_class [34%N]) (in_class [34%N]) input c)
       ∧ (dialogueRegex input = None ↔
          ∀ c, ¬ opened (in_class [34%N]) (in_class [34%N]) input c))
  ∧ (∀ input c,
       (actionRegex input = Some c →
        parseActionInput input = {| pr_type := ACTION; pr_content := c |})
       ∧ (actionRegex input = None → itemRegex input = Some c →
          parseActionInput input = {| pr_type := ITEM; pr_content := c |})
       ∧ (actionRegex input = None → itemRegex input = None →
          dialogueRegex input = Some c →
          parseActionInput input = {| pr_type := DIALOGUE; pr_content := c |}))
  ∧ (∀ input,
       actionRegex input = None → itemRegex input = None →
       dialogueRegex input = None →
       parseActionInput input = {| pr_type := DIALOGUE; pr_content := input |}).
Proof.
  split; [by vm_compute|]. split; [by vm_compute|]. split; [by vm_compute|].
  split.
  { intros input. split; [apply exec_enclosed_Some|]. split; [apply exec_enclosed_None|].
    split; [apply exec_enclosed_Some|]. split; [apply exec_enclosed_None|].
    split; [apply exec_opened_Some | apply exec_opened_None]. }
  split.
  - intros input c. unfold parseActionInput. split; [by intros ->|].
    split; [by intros -> ->|]. by intros -> -> ->.
  - intros input. unfold parseActionInput. by intros -> -> ->.
Qed.


(** ** Response policy *)
Section PolicyFacts.

Lemma ActionType_eqb_eq (x y : ActionType) : ActionType_eqb x y = true ↔ x = y.
Proof. destruct x, y; simpl; split; (done || discriminate). Qed.

Lemma low_trust_true (r : option ContextRelationship) :
  low_trust r = true ↔ ∃ rel trust, r = Some rel ∧ cr_trust rel = Some trust ∧ trust < 20.
Proof.
  unfold low_trust. destruct r as [rel|].
  - destruct (cr_trust rel) as [t|] eqn:Ht.
    + rewrite Z.ltb_lt. split.
      * intros H. by exists rel, t.
      * intros (? & ? & [= <-] & Ht' & ?). rewrite Ht in Ht'. by injection Ht' as <-.
    + split; [done|]. intros (? & ? & [= <-] & Ht' & _). congruence.
  - split; [done|]. by intros (? & ? & ? & _).
Qed.

Lemma addressed_dialogue_true (context : Context) :
  ActionType_eqb (cx_type (ctx_action context)) DIALOGUE
  && bool_decide (cx_targetId (ctx_action context) = Some (ca_id (ctx_agent context))) = true
  ↔ cx_type (ctx_action context) = DIALOGUE
    ∧ cx_targetId (ctx_action context) = Some (ca_id (ctx_agent context)).
Proof. by rewrite andb_true_iff, ActionType_eqb_eq, bool_decide_eq_true. Qed.

(** On the fourth branch the result is a threshold test on the draw. *)
Lemma draw_decides_threshold (context : Context) (u : Q) :
  draw_decides context →
  _determineResponseType u context =
    if negb (Qle_bool u (7 # 10)) then R_REJECTION else R_DIALOGUE.
Proof.
  intros (Hnot & Hint & H1 & H2 & Hlow). unfold _determineResponseType.
  destruct (_ && bool_decide _) eqn:Hd.
  { by apply addressed_dialogue_true in Hd. }
  destruct (Z.ltb_spec 70 (ca_emotionIntensity (ctx_agent context))); [lia|].
  rewrite H1, H2. simpl.
  apply low_trust_true in Hlow. by rewrite Hlow.
Qed.

Lemma count_above (t n : nat) :
  length (filter (λ k, t < k)%nat (seq 0 n)) = (n - S t)%nat.
Proof.
  induction n as [|n IH]; [done|].
  rewrite seq_S, filter_app, length_app, IH. simpl.
  rewrite filter_cons, filter_nil. destruct (decide (t < n)%nat); simpl; lia.
Qed.

Lemma count_not_above (t n : nat) :
  length (filter (λ k, ¬ (t < k)%nat) (seq 0 n)) = Nat.min n (S t).
Proof.
  induction n as [|n IH]; [done|].
  rewrite seq_S, filter_app, length_app, IH. simpl.
  rewrite filter_cons, filter_nil. destruct (decide (¬ (t < n)%nat)); simpl; lia.
Qed.

Lemma length_filter_map {A B} (f : A → B) (P : B → Prop) (Q : A → Prop)
    `{∀ x, Decision (P x)} `{∀ x, Decision (Q x)} (l : list A) :
  (∀ x, x ∈ l → P (f x) ↔ Q x) →
  length (filter P (map f l)) = length (filter Q l).
Proof.
  induction l as [|x l IH]; intros Hpq; [done|]. simpl.
  rewrite !filter_cons.
  assert (P (f x) ↔ Q x) as Hx by (apply Hpq; apply elem_of_cons; auto).
  assert (length (filter P (map f l)) = length (filter Q l)) as Hl.
  { apply IH. intros y Hy. apply Hpq. apply elem_of_cons; auto. }
  destruct (decide (P (f x))), (decide (Q x)); simpl; try tauto; by rewrite Hl.
Qed.

(** A draw [k / n] passes [Math.random() > 0.7] exactly when [k] lies
    above [7n / 10]. *)
Lemma draw_above (k n : nat) :
  (0 < n)%nat →
  negb (Qle_bool (Z.of_nat k # Pos.of_nat n) (7 # 10)) = true ↔ (7 * n / 10 < k)%nat.
Proof.
  intros Hn. unfold Qle_bool. cbn [Qnum Qden].
  rewrite negb_true_iff, Z.leb_gt.
  rewrite <- (positive_nat_Z (Pos.of_nat n)), Nat2Pos.id by lia.
  pose proof (Nat.Div0.div_mod (7 * n) 10).
  pose proof (Nat.mod_upper_bound (7 * n) 10).
  lia.
Qed.

Lemma outcomes_rejection (context : Context) (n : nat) :
  draw_decides context → (0 < n)%nat →
  outcomes R_REJECTION context n = (n - S (7 * n / 10))%nat.
Proof.
  intros Hd Hn. unfold outcomes, uniform_draws.
  rewrite <- count_above. apply length_filter_map.
  intros k _. rewrite draw_decides_threshold by done.
  rewrite <- (draw_above k n Hn).
  destruct (negb _); split; (done || discriminate).
Qed.

Lemma outcomes_dialogue (context : Context) (n : nat) :
  draw_decides context → (0 < n)%nat →
  outcomes R_DIALOGUE context n = Nat.min n (S (7 * n / 10)).
Proof.
  intros Hd Hn. unfold outcomes, uniform_draws.
  rewrite <- count_not_above. apply length_filter_map.
  intros k _. rewrite draw_decides_threshold by done.
  rewrite <- (draw_above k n Hn).
  destruct (negb _); split; (done || discriminate || auto).
Qed.

End PolicyFacts.

Lemma wary_stranger_draw_decides : draw_decides Samples.wary_stranger.
Proof.
  unfold draw_decides, Samples.wary_stranger; simpl.
  split; [by intros [? _]|]. split; [lia|]. split; [by vm_compute|].
  split; [by vm_compute|]. eexists _, 10. by repeat split.
Qed.

(** Of 100 evenly spread draws, 29 give REJECTION for a wary stranger:
    about 30%, not 70%. *)
Lemma rejects_thirty_not_seventy : ¬ rejects_seventy_percent.
Proof.
  intros claim.
  destruct (claim Samples.wary_stranger 100%nat wary_stranger_draw_decides ltac:(lia))
    as [_ [Hrej _]].
  assert (outcomes R_REJECTION Samples.wary_stranger 100 = 29%nat) as Hcount
    by (vm_compute; reflexivity).
  rewrite Hcount in Hrej. lia.
Qed.

(** C5, amended. [_determineResponseType] is an ordered decision list:
    a dialogue addressed to this agent gives DIALOGUE; else an emotion
    intensity above 70 gives EMOTION; else a request/help keyword gives
    DECISION; else, with a relationship whose trust is below 20, the draw
    decides: REJECTION exactly when [Math.random() > 0.7], so REJECTION has
    probability 30% and DIALOGUE 70%; else DIALOGUE. *)
Theorem determineResponseType_decision_list (context : Context) (u : Q) :
  let agent := ctx_agent context in
  let action := ctx_action context in
  let addressed := cx_type action = DIALOGUE ∧ cx_targetId action = Some (ca_id agent) in
  let asks := includes (cx_content action) (js "请求") = true
              ∨ includes (cx_content action) (js "帮助") = true in
  (addressed → _determineResponseType u context = R_DIALOGUE)
  ∧ (¬ addressed → 70 < ca_emotionIntensity agent →
     _determineResponseType u context = R_EMOTION)
  ∧ (¬ addressed → ca_emotionIntensity agent ≤ 70 → asks →
     _determineResponseType u context = R_DECISION)
  ∧ (draw_decides context →
     (_determineResponseType u context = R_REJECTION ↔ (7 # 10 < u)%Q)
     ∧ (_determineResponseType u context = R_DIALOGUE ↔ (u <= 7 # 10)%Q)
     ∧ ∀ n, (0 < n)%nat →
         share (outcomes R_REJECTION context n) n 30
         ∧ share (outcomes R_DIALOGUE context n) n 70
         ∧ (outcomes R_REJECTION context n + outcomes R_DIALOGUE context n = n)%nat)
  ∧ (¬ addressed → ca_emotionIntensity agent ≤ 70 → ¬ asks →
     low_trust (ctx_relationship context) = false →
     _determineResponseType u context = R_DIALOGUE).
Proof.
  cbv zeta.
  assert (∀ b : bool, b ≠ true → b = false) as Hnt by (by intros []).
  split.
  { intros Ha. unfold _determineResponseType.
    by rewrite (proj2 (addressed_dialogue_true context) Ha). }
  assert (¬ (cx_type (ctx_action context) = DIALOGUE
             ∧ cx_targetId (ctx_action context) = Some (ca_id (ctx_agent context))) →
          ActionType_eqb (cx_type (ctx_action context)) DIALOGUE
          && bool_decide (cx_targetId (ctx_action context)
                          = Some (ca_id (ctx_agent context))) = false) as Hna.
  { intros Hn. apply Hnt. by rewrite addressed_dialogue_true. }
  split.
  { intros Hn Hhigh. unfold _determineResponseType. cbv zeta. rewrite (Hna Hn).
    by rewrite (proj2 (Z.ltb_lt _ _) Hhigh). }
  split.
  { intros Hn Hlow Hasks. unfold _determineResponseType. cbv zeta. rewrite (Hna Hn).
    rewrite (proj2 (Z.ltb_ge _ _) Hlow).
    destruct Hasks as [-> | ->]; [done | by rewrite orb_true_r]. }
  split.
  { intros Hd. rewrite (draw_decides_threshold context u Hd).
    split; [|split].
    - rewrite Qlt_alt. unfold Qle_bool, Qcompare. rewrite Z.leb_compare.
      cbn [Qnum Qden]. rewrite (Z.compare_antisym (Qnum u * _)).
      destruct (_ ?= _)%Z; simpl; split; (done || discriminate).
    - rewrite <- Qle_bool_iff. destruct (Qle_bool u (7 # 10)); simpl;
        split; (done || discriminate).
    - intros n Hn.
      rewrite (outcomes_rejection context n Hd Hn), (outcomes_dialogue context n Hd Hn).
      unfold share.
      pose proof (Nat.Div0.div_mod (7 * n) 10).
      pose proof (Nat.mod_upper_bound (7 * n) 10).
      lia. }
  intros Hn Hlow Hasks Hlt. unfold _determineResponseType. cbv zeta. rewrite (Hna Hn).
  rewrite (proj2 (Z.ltb_ge _ _) Hlow).
  destruct (includes (cx_content (ctx_action context)) (js "请求")) eqn:H1;
    [exfalso; apply Hasks; by left|].
  destruct (includes (cx_content (ctx_action context)) (js "帮助")) eqn:H2;
    [exfalso; apply Hasks; by right|].
  simpl. by rewrite Hlt.
Qed.

(** * Further properties of the code *)

(** ** Trust map: labels, type changes, missing pairs *)
Section TrustMapOpsFacts.

Lemma status_strings_distinct :
  js "亲密" ≠ js "信任" ∧ js "亲密" ≠ js "敌对" ∧ js "亲密" ≠ js "警惕"
  ∧ js "亲密" ≠ js "友好" ∧ js "亲密" ≠ js "一般"
  ∧ js "信任" ≠ js "敌对" ∧ js "信任" ≠ js "警惕" ∧ js "信任" ≠ js "友好"
  ∧ js "信任" ≠ js "一般"
  ∧ js "敌对" ≠ js "警惕" ∧ js "敌对" ≠ js "友好" ∧ js "敌对" ≠ js "一般"
  ∧ js "警惕" ≠ js "友好" ∧ js "警惕" ≠ js "一般"
  ∧ js "友好" ≠ js "一般".
Proof. repeat split; by vm_compute. Qed.

End TrustMapOpsFacts.

(** X1. For a stored relationship whose trust [t], intimacy [i] and respect
    [r] are all present, [analyzeRelationship] leaves the state alone and
    each of its six labels stands for one region of the factor space:
    亲密 for t ≥ 80 and i ≥ 80; 信任 for t ≥ 70 otherwise; 敌对 for t ≤ 20 and
    r ≤ 30; 警惕 for t ≤ 40 otherwise; 友好 for 40 < t < 70 with i ≥ 70 and
    r ≥ 60; 一般 for the rest. *)
Theorem analyzeRelationship_labels (w : World) (a b : jsstring) (rel : Relationship)
    (t i r : Z) :
  getRelationship a b w = Ok (Some rel) w →
  factors rel !! TRUST = Some (Int t) →
  factors rel !! INTIMACY = Some (Int i) →
  factors rel !! RESPECT = Some (Int r) →
  ∃ an, analyzeRelationship a b w = Ok an w
    ∧ an_type an = Some (rel_type rel)
    ∧ an_factors an = Some (factors rel)
    ∧ (an_status an = js "亲密" ↔ 80 ≤ t ∧ 80 ≤ i)
    ∧ (an_status an = js "信任" ↔ 70 ≤ t ∧ ¬ (80 ≤ t ∧ 80 ≤ i))
    ∧ (an_status an = js "敌对" ↔ t ≤ 20 ∧ r ≤ 30)
    ∧ (an_status an = js "警惕" ↔ t ≤ 40 ∧ ¬ (t ≤ 20 ∧ r ≤ 30))
    ∧ (an_status an = js "友好" ↔ 40 < t < 70 ∧ 70 ≤ i ∧ 60 ≤ r)
    ∧ (an_status an = js "一般" ↔ 40 < t < 70 ∧ ¬ (70 ≤ i ∧ 60 ≤ r)).
Proof.
  intros Hget Ht Hi Hr. unfold analyzeRelationship.
  rewrite bind_run, Hget. cbv beta iota zeta. rewrite mret_run.
  rewrite Ht, Hi, Hr. unfold at_least, at_most. simpl.
  destruct status_strings_distinct
    as (? & ? & ? & ? & ? & ? & ? & ? & ? & ? & ? & ? & ? & ? & ?).
  eexists. split; [reflexivity|].
  destruct (Z.leb_spec 80 t), (Z.leb_spec 80 i), (Z.leb_spec 70 t),
    (Z.leb_spec t 20), (Z.leb_spec r 30), (Z.leb_spec t 40),
    (Z.leb_spec 70 i), (Z.leb_spec 60 r); simpl;
    (split; [reflexivity|]); (split; [reflexivity|]);
    repeat split; intros; try congruence; try lia.
Qed.

Lemma analyzeRelationship_labels_witness :
  ∃ an, analyzeRelationship (js "player") (js "npc1") (Samples.world 10 30) = Ok an (Samples.world 10 30)
    ∧ an_status an = js "敌对".
Proof.
  destruct (analyzeRelationship_labels (Samples.world 10 30) (js "player") (js "npc1")
              (Samples.relationship 10 30) 10 0 30 eq_refl eq_refl eq_refl eq_refl)
    as (an & E & _ & _ & _ & _ & H & _).
  exists an. split; [exact E|]. apply H. lia.
Defined.

(** X2. [updateRelationshipType] on a stored relationship never throws; it
    changes the type and nothing else of the record (factors, history and
    notes stay, and so does a non-empty [createdAt]), and the new record is
    what both orders of the pair read afterwards. *)
Theorem updateRelationshipType_changes_type_only (w : World) (a b : jsstring)
    (type : RelationshipType) (rel : Relationship) :
  getRelationship a b w = Ok (Some rel) w →
  ∃ rel' w',
    updateRelationshipType a b type w = Ok (Some rel') w'
    ∧ getRelationship a b w' = Ok (Some rel') w'
    ∧ getRelationship b a w' = Ok (Some rel') w'
    ∧ rel_type rel' = type
    ∧ factors rel' = factors rel
    ∧ rel_history rel' = rel_history rel
    ∧ notes rel' = notes rel
    ∧ (date_truthy (createdAt rel) = true → createdAt rel' = createdAt rel).
Proof.
  intros Hget. destruct (getRelationship_Some _ _ _ _ Hget) as [Hne _].
  unfold updateRelationshipType. rewrite bind_run, Hget. cbv beta iota.
  mstep. rewrite fmap_run.
  match goal with |- context [setRelationship a b ?d ?w1] =>
    destruct (setRelationship_spec a b d w1 Hne) as (w' & E & Htm & _ & _ & _);
    destruct (completeRelationship_fields d (ISO (clock w1 (tick w1))))
      as (F1 & F2 & F3 & F4 & _ & F6);
    cbv zeta in E, Htm;
    set (r' := completeRelationship d (ISO (clock w1 (tick w1)))) in *
  end.
  clearbody r'. simpl in F1, F2, F3, F4, F6.
  rewrite E. cbv beta iota.
  exists r', w'. split; [reflexivity|].
  split; [by eapply getRelationship_after|].
  split.
  { rewrite getRelationship_run by congruence.
    by rewrite (key_comm b a), Htm, lookup_insert_eq. }
  do 4 (split; [done|]).
  intros Hc. by rewrite F6, Hc.
Qed.

Lemma updateRelationshipType_changes_type_only_witness :
  ∃ rel' w',
    updateRelationshipType (js "player") (js "npc1") FRIEND (Samples.world 60 50)
      = Ok (Some rel') w'
    ∧ rel_type rel' = FRIEND
    ∧ factors rel' !! TRUST = Some (Int 60)
    ∧ createdAt rel' = ISO 1000.
Proof.
  destruct (updateRelationshipType_changes_type_only (Samples.world 60 50)
              (js "player") (js "npc1") FRIEND (Samples.relationship 60 50) eq_refl)
    as (rel' & w' & E & _ & _ & Ht & Hf & _ & _ & Hc).
  exists rel', w'. split; [exact E|]. split; [exact Ht|].
  split; [rewrite Hf; reflexivity | exact (Hc eq_refl)].
Defined.

(** X3. For a pair without a stored relationship (a pair of one id with
    itself included) every updater of the trust map returns null, writes
    nothing and does not throw, unlike [setRelationship]; the analysis of
    such a pair is the 未知 record. *)
Theorem updaters_ignore_missing_pair (w : World) (a b factor : jsstring) (v : Z)
    (type : RelationshipType) (entry : RelHistoryInput) :
  getRelationship a b w = Ok None w →
  (∀ value, updateRelationshipFactor a b factor value w = Ok None w)
  ∧ adjustRelationshipFactor a b factor v w = Ok None w
  ∧ updateRelationshipType a b type w = Ok None w
  ∧ addRelationshipHistory a b entry w = Ok None w
  ∧ analyzeRelationship a b w
    = Ok {| an_status := js "未知"; an_description := js "没有关系数据";
            an_type := None; an_factors := None |} w.
Proof.
  intros Hget.
  unfold updateRelationshipFactor, adjustRelationshipFactor, updateRelationshipType,
    addRelationshipHistory, analyzeRelationship.
  split; [by intros value; rewrite bind_run, Hget|].
  rewrite !bind_run, Hget. done.
Qed.

Lemma updaters_ignore_missing_pair_witness :
  adjustRelationshipFactor (js "gm") (js "gm") TRUST 5 (Samples.world 50 50)
  = Ok None (Samples.world 50 50).
Proof.
  apply (updaters_ignore_missing_pair (Samples.world 50 50) (js "gm") (js "gm")
           TRUST 5 FRIEND
           {| rhi_actionType := DIALOGUE; rhi_content := []; rhi_effect := effect 0 0 0;
              rhi_timestamp := None |}).
  reflexivity.
Defined.

(** ** Trust map: what an action can change *)
Section ActionEffectFacts.

Lemma registry_step_refl (w : World) : registry_step w w.
Proof. by repeat split. Qed.

Lemma registry_step_trans (w1 w2 w3 : World) :
  registry_step w1 w2 → registry_step w2 w3 → registry_step w1 w3.
Proof.
  unfold registry_step. intros (? & ? & ? & ? & ? & ? & ? & ? & ?)
    (? & ? & ? & ? & ? & ? & ? & ? & ?). repeat split; congruence.
Qed.

Lemma updateAgent_frame (agentId : jsstring) (updates : AgentUpdates) (w : World) :
  ∃ res w', updateAgent agentId updates w = Ok res w' ∧ registry_step w w'.
Proof.
  unfold updateAgent, updatePlayer, updateState_agents, new_Date_toISOString, Date_now.
  munfold. simpl.
  destruct (reg_agents w !! agentId) as [agent|]; simpl;
    [|eexists _, _; split; [reflexivity | by repeat split]].
  destruct (decide (agentId = js "player")); simpl;
    [eexists _, _; split; [reflexivity | by repeat split]|].
  destruct (AgentType_eqb (agent_type agent) NPC); simpl;
    eexists _, _; (split; [reflexivity | by repeat split]).
Qed.

Lemma _updateAgentRelationships_frame (a b : jsstring) (r : Relationship) (w : World) :
  ∃ w', _updateAgentRelationships a b r w = Ok tt w' ∧ registry_step w w'.
Proof.
  unfold _updateAgentRelationships, getAgent. do 2 mstep.
  assert (∃ w1, (match reg_agents w !! a with
                 | Some a1 =>
                   updateAgent a (relationships_update (<[b:=r]> (default ∅ (relationships a1))))
                   ≫= λ _, mret ()
                 | None => mret ()
                 end) w = Ok () w1 ∧ registry_step w w1) as (w1 & E1 & S1).
  { destruct (reg_agents w !! a) as [a1|].
    - destruct (updateAgent_frame a (relationships_update (<[b:=r]> (default ∅ (relationships a1)))) w)
        as (res & w1 & E & S).
      exists w1. by rewrite bind_run, E.
    - exists w. split; [done | apply registry_step_refl]. }
  rewrite bind_run, E1. cbv beta iota.
  destruct (reg_agents w !! b) as [a2|].
  - destruct (updateAgent_frame b (relationships_update (<[a:=r]> (default ∅ (relationships a2)))) w1)
      as (res & w2 & E & S).
    exists w2. rewrite bind_run, E. split; [done|]. by eapply registry_step_trans.
  - by exists w1.
Qed.

Lemma setRelationship_frame (a b : jsstring) (data : RelationshipData) (w : World) :
  a ≠ b →
  ∃ w', setRelationship a b data w
        = Ok (completeRelationship data (ISO (clock w (tick w)))) w'
    ∧ tm_relationships w'
      = <[_getRelationshipKey a b := completeRelationship data (ISO (clock w (tick w)))]>
          (tm_relationships w)
    ∧ hm_history w' = hm_history w
    ∧ mm_memories w' = mm_memories w.
Proof.
  intros Hne. unfold setRelationship. rewrite decide_False by done.
  mstep. fold (completeRelationship data (ISO (clock w (tick w)))).
  mstep.
  set (w1 := set_tm_relationships _ (set_tick S w)).
  destruct (_updateAgentRelationships_frame a b
              (completeRelationship data (ISO (clock w (tick w)))) w1)
    as (w' & E & (Htm & Hm & _ & _ & Hh & _)).
  rewrite bind_run, E. cbv beta iota. rewrite mret_run.
  exists w'. split; [done|]. split; [by rewrite Htm|]. split; [by rewrite Hh | by rewrite Hm].
Qed.

Lemma adjust_if_nonzero_map (a b factor : jsstring) (delta : Z)
    (w : World) (rel : Relationship) :
  getRelationship a b w = Ok (Some rel) w →
  factor ∉ Object_prototype →
  ∃ rel' w', adjust_if_nonzero a b factor delta w = Ok tt w'
    ∧ tm_relationships w' = <[_getRelationshipKey a b := rel']> (tm_relationships w)
    ∧ hm_history w' = hm_history w
    ∧ mm_memories w' = mm_memories w
    ∧ factors rel' = apply_delta factor delta (factors rel).
Proof.
  intros Hget Hname. destruct (getRelationship_Some _ _ _ _ Hget) as [Hne Hlk].
  unfold adjust_if_nonzero, apply_delta.
  destruct (decide (delta = 0)).
  - exists rel, w. rewrite mret_run. split; [done|].
    split; [by rewrite insert_id|]. done.
  - unfold adjustRelationshipFactor. rewrite bind_run, bind_run, Hget. cbv beta iota zeta.
    unfold updateRelationshipFactor. rewrite bind_run, Hget. cbv beta iota zeta.
    mstep. rewrite fmap_run.
    match goal with |- context [setRelationship a b ?d ?w1] =>
      destruct (setRelationship_frame a b d w1 Hne) as (w' & E & Htm & Hh & Hm);
      destruct (completeRelationship_fields d (ISO (clock w1 (tick w1))))
        as (_ & F2 & _);
      set (r' := completeRelationship d (ISO (clock w1 (tick w1)))) in *
    end.
    clearbody r'. cbn [d_factors default from_option Datatypes.id] in F2.
    rewrite E. cbv beta iota. rewrite mret_run.
    exists r', w'. split; [reflexivity|]. split; [exact Htm|].
    split; [exact Hh|]. split; [exact Hm|].
    rewrite F2, clamp_number_idem, adjusted_own by auto. done.
Qed.

Lemma addRelationshipHistory_map (a b : jsstring) (entry : RelHistoryInput)
    (w : World) (rel : Relationship) :
  getRelationship a b w = Ok (Some rel) w →
  ∃ rel' w', addRelationshipHistory a b entry w = Ok (Some rel') w'
    ∧ tm_relationships w' = <[_getRelationshipKey a b := rel']> (tm_relationships w)
    ∧ hm_history w' = hm_history w
    ∧ mm_memories w' = mm_memories w
    ∧ factors rel' = factors rel.
Proof.
  intros Hget. destruct (getRelationship_Some _ _ _ _ Hget) as [Hne _].
  unfold addRelationshipHistory. rewrite bind_run, Hget. cbv beta iota zeta.
  assert (∃ ts w1, (match rhi_timestamp entry with
                    | Some t => if date_truthy t then mret t else new_Date_toISOString
                    | None => new_Date_toISOString
                    end) w = Ok ts w1
                   ∧ tm_relationships w1 = tm_relationships w
                   ∧ hm_history w1 = hm_history w ∧ mm_memories w1 = mm_memories w)
    as (ts & w1 & E1 & Htm1 & Hh1 & Hm1).
  { destruct (rhi_timestamp entry) as [t|]; [destruct (date_truthy t)|];
      eexists _, _; (split; [reflexivity|]); by repeat split. }
  rewrite bind_run, E1. cbv beta iota.
  mstep. rewrite fmap_run.
  match goal with |- context [setRelationship a b ?d ?w2] =>
    destruct (setRelationship_frame a b d w2 Hne) as (w' & E & Htm & Hh & Hm);
    destruct (completeRelationship_fields d (ISO (clock w2 (tick w2))))
      as (_ & F2 & _);
    set (r' := completeRelationship d (ISO (clock w2 (tick w2)))) in *
  end.
  clearbody r'. simpl in F2, Htm, Hh, Hm.
  rewrite E. cbv beta iota.
  exists r', w'. split; [reflexivity|]. split; [by rewrite Htm, Htm1|].
  split; [by rewrite Hh, Hh1|]. split; [by rewrite Hm, Hm1 | done].
Qed.

(** Either a guard of [processActionEffect] fires, or the action aims at a
    character with whom the actor has a relationship. *)
Lemma processActionEffect_cases (w : World) (action : BaseAction) :
  processActionEffect action w = Ok None w
  ∨ ∃ target rel,
      targetType action = CHARACTER ∧ targetId action = Some target ∧ target ≠ []
      ∧ getRelationship (actorId action) target w = Ok (Some rel) w.
Proof.
  unfold processActionEffect.
  destruct (targetType action) eqn:Ht; try (by left).
  destruct (targetId action) as [[|c target]|] eqn:Hid; try (by left).
  simpl. destruct (decide (actorId action = c :: target)) as [Heq|Hne]; [by left|].
  rewrite bind_run, getRelationship_run by done.
  destruct (tm_relationships w !! _) as [rel|] eqn:Hlk; [|by left].
  right. exists (c :: target), rel. repeat split; try done.
  by rewrite getRelationship_run, Hlk.
Qed.

Lemma processActionEffect_map (w : World) (action : BaseAction)
    (target : jsstring) (rel : Relationship) :
  targetType action = CHARACTER →
  targetId action = Some target →
  target ≠ [] →
  getRelationship (actorId action) target w = Ok (Some rel) w →
  let deltas := keyword_deltas (act_type action) (act_content action) in
  ∃ rel' w',
    processActionEffect action w = Ok (Some rel') w'
    ∧ tm_relationships w'
      = <[_getRelationshipKey (actorId action) target := rel']> (tm_relationships w)
    ∧ hm_history w' = hm_history w
    ∧ mm_memories w' = mm_memories w
    ∧ factors rel' =
        apply_delta RESPECT (eff_respect deltas)
          (apply_delta INTIMACY (eff_intimacy deltas)
             (apply_delta TRUST (eff_trust deltas) (factors rel))).
Proof.
  intros Htt Htid Htruthy Hget deltas.
  destruct (getRelationship_Some _ _ _ _ Hget) as [Hne _].
  unfold processActionEffect. rewrite Htt, Htid. simpl.
  destruct target as [|c target]; [done|]. simpl.
  rewrite decide_False by done.
  rewrite bind_run, Hget. cbv beta iota zeta. fold deltas.
  destruct factor_names_not_inherited as (Nt & Ni & Nr & _).
  destruct (adjust_if_nonzero_map _ _ TRUST (eff_trust deltas) w rel Hget Nt)
    as (r1 & w1 & E1 & T1 & H1 & M1 & F1).
  rewrite bind_run, E1. cbv beta iota.
  pose proof (getRelationship_after _ _ _ _ _ Hne T1) as G1.
  destruct (adjust_if_nonzero_map _ _ INTIMACY (eff_intimacy deltas) w1 r1 G1 Ni)
    as (r2 & w2 & E2 & T2 & H2 & M2 & F2).
  rewrite bind_run, E2. cbv beta iota.
  pose proof (getRelationship_after _ _ _ _ _ Hne T2) as G2.
  destruct (adjust_if_nonzero_map _ _ RESPECT (eff_respect deltas) w2 r2 G2 Nr)
    as (r3 & w3 & E3 & T3 & H3 & M3 & F3).
  rewrite bind_run, E3. cbv beta iota.
  pose proof (getRelationship_after _ _ _ _ _ Hne T3) as G3.
  destruct (addRelationshipHistory_map _ _
              {| rhi_actionType := act_type action; rhi_content := act_content action;
                 rhi_effect := deltas; rhi_timestamp := None |} w3 r3 G3)
    as (r4 & w4 & E4 & T4 & H4 & M4 & F4).
  rewrite bind_run, E4. cbv beta iota.
  rewrite (getRelationship_after _ _ _ _ _ Hne T4).
  exists r4, w4. split; [done|].
  split; [by rewrite T4, T3, T2, T1, !insert_insert_eq|].
  split; [congruence|]. split; [congruence|]. congruence.
Qed.

Lemma apply_delta_in_range (factor : jsstring) (delta : Z) (fs : gmap jsstring Num) :
  map_Forall (λ _ v, ∃ z, v = Int z ∧ 0 ≤ z ≤ 100) fs →
  map_Forall (λ _ v, ∃ z, v = Int z ∧ 0 ≤ z ≤ 100) (apply_delta factor delta fs).
Proof.
  intros H. unfold apply_delta. destruct (decide (delta = 0)); [done|].
  apply map_Forall_insert_2; [|done]. eexists. split; [done | lia].
Qed.

End ActionEffectFacts.

(** X4. If every factor of every stored relationship lies in [0,100], the
    same holds after [processActionEffect], whatever the action is; the
    call never throws. *)
Theorem processActionEffect_keeps_factors_in_range (w : World) (action : BaseAction) :
  factors_in_range (tm_relationships w) →
  ∃ res w', processActionEffect action w = Ok res w'
    ∧ factors_in_range (tm_relationships w').
Proof.
  intros Hr.
  destruct (processActionEffect_cases w action)
    as [E | (target & rel & Htt & Hid & Hne & Hget)].
  - by exists None, w.
  - destruct (processActionEffect_map w action target rel Htt Hid Hne Hget)
      as (rel' & w' & E & Htm & _ & _ & Hf).
    exists (Some rel'), w'. split; [done|].
    rewrite Htm. apply map_Forall_insert_2; [|done].
    rewrite Hf. do 3 apply apply_delta_in_range.
    destruct (getRelationship_Some _ _ _ _ Hget) as [_ Hlk].
    exact (Hr _ _ Hlk).
Qed.

Lemma processActionEffect_keeps_factors_in_range_witness :
  ∃ res w', processActionEffect Samples.thanks (Samples.world 99 100) = Ok res w'
    ∧ factors_in_range (tm_relationships w').
Proof.
  apply (processActionEffect_keeps_factors_in_range (Samples.world 99 100) Samples.thanks).
  unfold factors_in_range, Samples.world. simpl.
  apply map_Forall_singleton. unfold Samples.relationship. simpl.
  repeat (apply map_Forall_insert_2; [eexists; split; [reflexivity | lia]|]).
  apply map_Forall_empty.
Defined.

(** X5. [processActionEffect] never throws and writes at most one record of
    the trust map, the one under the key of the actor and the target: every
    other key reads as before, and the history log and the memory store are
    not touched. *)
Theorem processActionEffect_touches_one_pair (w : World) (action : BaseAction) :
  ∃ res w', processActionEffect action w = Ok res w'
    ∧ (∀ key, key ≠ _getRelationshipKey (actorId action) (default [] (targetId action)) →
         tm_relationships w' !! key = tm_relationships w !! key)
    ∧ hm_history w' = hm_history w
    ∧ mm_memories w' = mm_memories w.
Proof.
  destruct (processActionEffect_cases w action)
    as [E | (target & rel & Htt & Hid & Hne & Hget)].
  - by exists None, w.
  - destruct (processActionEffect_map w action target rel Htt Hid Hne Hget)
      as (rel' & w' & E & Htm & Hh & Hm & _).
    exists (Some rel'), w'. split; [done|]. split; [|done].
    intros key Hk. rewrite Hid in Hk. simpl in Hk.
    by rewrite Htm, lookup_insert_ne.
Qed.

(** ** Trust map: keys *)
Section KeyFacts.

Lemma underscores_cons (c : N) (s : jsstring) :
  underscores (c :: s) = if decide (c = 95%N) then S (underscores s) else underscores s.
Proof. unfold underscores. rewrite filter_cons. by destruct (decide (c = 95%N)). Qed.

(** With as many underscores on the left, a joined pair splits one way. *)
Lemma join_splits_once (x x' y y' : jsstring) :
  underscores x = underscores x' →
  x ++ 95%N :: y = x' ++ 95%N :: y' → x = x' ∧ y = y'.
Proof.
  revert x'. induction x as [|c x IH]; intros [|c' x']; simpl.
  - by intros _ [= ->].
  - intros Hu [= <- ->]. rewrite underscores_cons, decide_True in Hu by done. discriminate.
  - intros Hu [= -> <-]. rewrite underscores_cons, decide_True in Hu by done. discriminate.
  - intros Hu [= <- Heq]. rewrite !underscores_cons in Hu.
    destruct (IH x') as [-> ->]; [|done|done].
    destruct (decide (c = 95%N)); congruence.
Qed.

Lemma sort_pair_cases (a b : jsstring) :
  sort [a; b] = [a; b] ∨ sort [a; b] = [b; a].
Proof.
  unfold sort; simpl.
  destruct (str_lt a b), (str_lt b a); auto.
Qed.

Lemma key_cases (a b : jsstring) :
  _getRelationshipKey a b = a ++ 95%N :: b ∨ _getRelationshipKey a b = b ++ 95%N :: a.
Proof.
  unfold _getRelationshipKey.
  destruct (sort_pair_cases a b) as [-> | ->]; simpl; auto.
Qed.

End KeyFacts.

Lemma relationship_key_determines_pair_lemma (n : nat) (a b c d : jsstring) :
  underscores a = n → underscores b = n → underscores c = n → underscores d = n →
  _getRelationshipKey a b = _getRelationshipKey c d →
  same_pair a b c d.
Proof.
  intros Ha Hb Hc Hd Hk. unfold same_pair.
  destruct (key_cases a b) as [E1 | E1], (key_cases c d) as [E2 | E2];
    rewrite E1, E2 in Hk; apply join_splits_once in Hk as [-> ->];
    auto; congruence.
Qed.

(** X6. Among ids that hold the same number of underscores (none, for
    instance), the key of [_getRelationshipKey] determines the unordered
    pair: two pairs with the same key are the same two ids. *)
Theorem relationship_key_determines_pair (n : nat) (a b c d : jsstring) :
  underscores a = n → underscores b = n → underscores c = n → underscores d = n →
  _getRelationshipKey a b = _getRelationshipKey c d →
  same_pair a b c d.
Proof. apply relationship_key_determines_pair_lemma. Qed.

Lemma relationship_key_determines_pair_witness :
  same_pair (js "npc1") (js "player") (js "player") (js "npc1").
Proof.
  apply (relationship_key_determines_pair 0 (js "npc1") (js "player") (js "player") (js "npc1"));
    reflexivity.
Defined.

(** Ids with different numbers of underscores can share a key. *)
Example underscore_ids_collide :
  _getRelationshipKey (js "a") (js "b_c") = _getRelationshipKey (js "a_b") (js "c").
Proof. reflexivity. Qed.

(** X7. Among ids with the same number of underscores, [setRelationship a b]
    leaves every other pair alone: [getRelationship c d] returns after the
    call what it returned before, unless [c], [d] are [a], [b] in some
    order. *)
Theorem setRelationship_leaves_other_pairs (n : nat) (w : World) (a b c d : jsstring)
    (data : RelationshipData) (before : option Relationship) :
  underscores a = n → underscores b = n → underscores c = n → underscores d = n →
  a ≠ b →
  ¬ same_pair a b c d →
  getRelationship c d w = Ok before w →
  ∃ r w', setRelationship a b data w = Ok r w'
    ∧ getRelationship c d w' = Ok before w'.
Proof.
  intros Ha Hb Hc Hd Hne Hnp Hget.
  destruct (setRelationship_frame a b data w Hne) as (w' & E & Htm & _ & _).
  eexists _, w'. split; [exact E|].
  destruct (decide (c = d)) as [->|Hcd].
  - rewrite getRelationship_self in Hget. injection Hget as <-.
    apply getRelationship_self.
  - rewrite getRelationship_run in Hget by done. injection Hget as <-.
    rewrite getRelationship_run by done. f_equal.
    rewrite Htm, lookup_insert_ne; [done|].
    intros Hk. apply Hnp. by eapply relationship_key_determines_pair_lemma.
Qed.

Lemma setRelationship_leaves_other_pairs_witness :
  ∃ r w',
    setRelationship (js "player") (js "gm") Samples.no_data (Samples.world 50 50) = Ok r w'
    ∧ getRelationship (js "player") (js "npc1") w'
      = Ok (Some (Samples.relationship 50 50)) w'.
Proof.
  apply (setRelationship_leaves_other_pairs 0 (Samples.world 50 50)
           (js "player") (js "gm") (js "player") (js "npc1") Samples.no_data
           (Some (Samples.relationship 50 50)));
    try reflexivity; try discriminate.
  intros [[_ H] | [H _]]; discriminate.
Defined.

(** Run every primitive step of a monadic sequence. *)

Ltac mrun :=
  repeat (first [ rewrite bind_run | rewrite fmap_run | rewrite toISOString_run
                | rewrite modify_run | rewrite gets_run | rewrite mret_run ];
          cbv beta iota).

(** ** Agent registry *)
Section RegistryFacts.

Lemma findIndex_None_find (agentId : jsstring) (agents : list Agent) :
  findIndex agentId agents = None →
  List.find (λ a, bool_decide (agent_id a = agentId)) agents = None.
Proof.
  induction agents as [|a rest IH]; simpl; [done|].
  destruct (decide (agent_id a = agentId)) as [Heq|Hne]; [done|].
  rewrite bool_decide_eq_false_2 by done.
  destruct (findIndex agentId rest); [done | by intros _; apply IH].
Qed.

Lemma findIndex_Some_replace (agentId : jsstring) (agents : list Agent) (i : nat)
    (updated : Agent) :
  findIndex agentId agents = Some i →
  agent_id updated = agentId →
  List.find (λ a, bool_decide (agent_id a = agentId)) (<[i := updated]> agents)
  = Some updated.
Proof.
  revert i. induction agents as [|a rest IH]; intros i; simpl; [done|].
  destruct (decide (agent_id a = agentId)) as [Heq|Hne].
  - intros [= <-] Hu. simpl. by rewrite bool_decide_eq_true_2.
  - destruct (findIndex agentId rest) as [j|]; [|done].
    intros [= <-] Hu. simpl. rewrite bool_decide_eq_false_2 by done. by apply IH.
Qed.

Lemma find_app_last (agentId : jsstring) (agents : list Agent) (updated : Agent) :
  List.find (λ a, bool_decide (agent_id a = agentId)) agents = None →
  agent_id updated = agentId →
  List.find (λ a, bool_decide (agent_id a = agentId)) (agents ++ [updated]) = Some updated.
Proof.
  induction agents as [|a rest IH]; simpl.
  - intros _ Hu. by rewrite bool_decide_eq_true_2.
  - destruct (bool_decide (agent_id a = agentId)); [done | apply IH].
Qed.

Lemma find_filter_out (agentId : jsstring) (agents : list Agent) :
  List.find (λ a, bool_decide (agent_id a = agentId))
    (filter (λ a, agent_id a ≠ agentId) agents) = None.
Proof.
  induction agents as [|a rest IH]; [done|].
  rewrite filter_cons. destruct (decide (agent_id a ≠ agentId)) as [Hne|Heq]; [|done].
  simpl. by rewrite bool_decide_eq_false_2.
Qed.

Lemma generated_id_nonempty (prefix : string) (rest : jsstring) :
  truthy (js prefix) = true → truthy (js prefix ++ rest) = true.
Proof. by destruct (js prefix). Qed.

Lemma truthy_nonempty (s : jsstring) : truthy s = true ↔ s ≠ [].
Proof. by destruct s. Qed.

(** X8. [registerAgent] stores the agent under its id and returns what it
    stored: the next [getAgent] with that id finds it.  A non-empty id and a
    truthy creation date are kept; a missing id is replaced by a generated,
    non-empty one, made of the clock reading and the random suffix, and a
    missing creation date by the next clock reading.  The update date is the
    clock reading after those, and every other field is the agent's own.  No
    other registry key changes, and neither the game state nor the trust map
    hear of the new agent. *)
Theorem registerAgent_then_getAgent (agent : Agent) (w : World) :
  ∃ registered w',
    registerAgent agent w = Ok registered w'
    ∧ getAgent (agent_id registered) w' = Ok (Some registered) w'
    ∧ agent_id registered ≠ []
    ∧ (agent_id agent ≠ [] → agent_id registered = agent_id agent)
    ∧ (agent_id agent = [] →
       agent_id registered
       = js "agent_" ++ show_Z (clock w (tick w)) ++ js "_" ++ idgen w (drawn w))
    ∧ (date_truthy (agent_createdAt agent) = true →
       agent_createdAt registered = agent_createdAt agent)
    ∧ (date_truthy (agent_createdAt agent) = false →
       agent_createdAt registered
       = ISO (clock w (tick w + (if truthy (agent_id agent) then 0 else 1))%nat))
    ∧ agent_updatedAt registered
      = ISO (clock w (tick w + (if truthy (agent_id agent) then 0 else 1)
                            + (if date_truthy (agent_createdAt agent) then 0 else 1))%nat)
    ∧ agent_name registered = agent_name agent
    ∧ agent_type registered = agent_type agent
    ∧ currentEmotion registered = currentEmotion agent
    ∧ emotionIntensity registered = emotionIntensity agent
    ∧ location registered = location agent
    ∧ relationships registered = relationships agent
    ∧ memoryIds registered = memoryIds agent
    ∧ (∀ other, other ≠ agent_id registered →
         reg_agents w' !! other = reg_agents w !! other)
    ∧ game w' = game w
    ∧ tm_relationships w' = tm_relationships w.
Proof.
  unfold registerAgent, _generateAgentId, getAgent.
  assert (∃ id w1,
    (if negb (truthy (agent_id agent))
     then t ← Date_now; r ← draw_id; mret (js "agent_" ++ show_Z t ++ js "_" ++ r)
     else mret (agent_id agent)) w = Ok id w1
    ∧ id ≠ [] ∧ (agent_id agent ≠ [] → id = agent_id agent)
    ∧ (agent_id agent = [] →
       id = js "agent_" ++ show_Z (clock w (tick w)) ++ js "_" ++ idgen w (drawn w))
    ∧ clock w1 = clock w
    ∧ tick w1 = (tick w + (if truthy (agent_id agent) then 0 else 1))%nat
    ∧ reg_agents w1 = reg_agents w ∧ game w1 = game w
    ∧ tm_relationships w1 = tm_relationships w)
    as (id & w1 & E1 & Hid & Hkeep & Hgen & C1 & K1 & R1 & G1 & T1).
  { destruct (truthy (agent_id agent)) eqn:Ht; cbv [negb].
    - eexists _, _. split; [reflexivity|]. apply truthy_nonempty in Ht.
      repeat split; try done; lia.
    - unfold Date_now, draw_id. eexists _, _. split; [reflexivity|].
      split; [apply truthy_nonempty; by apply generated_id_nonempty|].
      split; [intros Hne; apply truthy_nonempty in Hne; congruence|].
      repeat split; try done; cbn; lia. }
  rewrite bind_run, E1.
  assert (∃ created w2,
    (if negb (date_truthy (agent_createdAt agent)) then new_Date_toISOString
     else mret (agent_createdAt agent)) w1 = Ok created w2
    ∧ (date_truthy (agent_createdAt agent) = true → created = agent_createdAt agent)
    ∧ (date_truthy (agent_createdAt agent) = false → created = ISO (clock w1 (tick w1)))
    ∧ clock w2 = clock w1
    ∧ tick w2 = (tick w1 + (if date_truthy (agent_createdAt agent) then 0 else 1))%nat
    ∧ reg_agents w2 = reg_agents w1 ∧ game w2 = game w1
    ∧ tm_relationships w2 = tm_relationships w1)
    as (created & w2 & E2 & Hc & Hd & C2 & K2 & R2 & G2 & T2).
  { destruct (date_truthy (agent_createdAt agent)); simpl;
      eexists _, _; (split; [reflexivity|]); repeat split; try done; cbn; lia. }
  rewrite bind_run, E2. do 2 mstep. rewrite mret_run.
  eexists _, _. split; [reflexivity|]. simpl.
  rewrite gets_run. simpl. rewrite lookup_insert_eq.
  repeat split; try done; try congruence.
  - intros Hf. rewrite (Hd Hf), C1, K1. done.
  - intros other Hne. rewrite lookup_insert_ne by done. congruence.
Qed.

(** X9. [removeAgent] refuses the two reserved ids and changes nothing
    then.  For any other id it answers whether the id was registered and
    leaves the registry without it; a removal also takes every agent with
    that id out of the game state's list, so neither [getAgent] finds it
    any more; removing an unknown id changes nothing.  The trust map keeps
    whatever relationships the removed agent had. *)
Theorem removeAgent_removes (agentId : jsstring) (w : World) :
  (agentId = js "player" ∨ agentId = js "gm" → removeAgent agentId w = Ok false w)
  ∧ (agentId ≠ js "player" → agentId ≠ js "gm" →
     ∃ w', removeAgent agentId w = Ok (bool_decide (is_Some (reg_agents w !! agentId))) w'
       ∧ getAgent agentId w' = Ok None w'
       ∧ (∀ other, other ≠ agentId → reg_agents w' !! other = reg_agents w !! other)
       ∧ (is_Some (reg_agents w !! agentId) →
          gs_agents (game w') = filter (λ a, agent_id a ≠ agentId) (gs_agents (game w))
          ∧ gameState_getAgent agentId w' = Ok None w')
       ∧ (reg_agents w !! agentId = None → w' = w)
       ∧ tm_relationships w' = tm_relationships w).
Proof.
  unfold removeAgent. split.
  - intros [-> | ->]; reflexivity.
  - intros Hp Hg.
    rewrite (bool_decide_eq_false_2 _ Hp), (bool_decide_eq_false_2 _ Hg). simpl.
    do 2 mstep. unfold getAgent, gameState_getAgent, updateState_agents.
    destruct (reg_agents w !! agentId) as [agent|] eqn:E.
    + rewrite bool_decide_eq_true_2 by eauto.
      mrun. eexists. split; [reflexivity|]. mrun. simpl.
      rewrite lookup_delete_eq, find_filter_out.
      repeat split; try done.
      intros other Hne. by rewrite lookup_delete_ne.
    + rewrite bool_decide_eq_false_2 by (by intros [? ?]).
      mrun. eexists. split; [reflexivity|].
      mrun. simpl. rewrite lookup_delete_eq.
      repeat split; try done.
      * intros other Hne. by rewrite lookup_delete_ne.
      * intros _. destruct w; unfold set_reg_agents; simpl in *.
        f_equal. by apply delete_id.
Qed.



(** X11. An agent that is not registered cannot be updated: [updateAgent]
    and the two setters built on it return null and leave every store as it
    was, the clock included. *)
Theorem updateAgent_unknown_agent (agentId : jsstring) (w : World) :
  reg_agents w !! agentId = None →
  (∀ updates, updateAgent agentId updates w = Ok None w)
  ∧ (∀ emotion intensity, updateAgentEmotion agentId emotion intensity w = Ok None w)
  ∧ (∀ locationId, updateAgentLocation agentId locationId w = Ok None w).
Proof.
  intros Hreg.
  assert (∀ updates, updateAgent agentId updates w = Ok None w) as H.
  { intros updates. unfold updateAgent. mstep. by rewrite Hreg. }
  repeat split; intros; apply H.
Qed.

Lemma updateAgent_unknown_agent_witness :
  updateAgentLocation (js "ghost") (js "cellar") Samples.empty_world
  = Ok None Samples.empty_world.
Proof.
  apply (updateAgent_unknown_agent (js "ghost") Samples.empty_world); reflexivity.
Defined.

End RegistryFacts.

(** ** History queries *)

Section HistoryQueryFacts.

Lemma slice_from_last {A} (count : Z) (l : list A) :
  0 < count → slice_from (- count) l = lastn (Z.to_nat count) l.
Proof.
  intros Hc. unfold slice_from, lastn.
  destruct (Z.ltb_spec (- count) 0); [|lia]. f_equal. lia.
Qed.

Lemma slice_from_front {A} (count : Z) (l : list A) :
  count ≤ 0 → slice_from (- count) l = drop (Z.to_nat (- count)) l.
Proof.
  intros Hc. unfold slice_from.
  destruct (Z.ltb_spec (- count) 0); [lia|].
  destruct (Z.min_spec (- count) (Z.of_nat (length l))) as [[_ ->]|[Hle ->]]; [done|].
  rewrite Nat2Z.id. rewrite !drop_ge; [done | lia | lia].
Qed.

(** X12. [getRecentHistory(count)] reads the log without changing it.  A
    positive [count] gives the last [count] entries (all of them when the
    log is shorter); [count = 0] gives the whole log, not an empty list; a
    negative [count] drops that many of the oldest entries. *)
Theorem getRecentHistory_slices (count : Z) (w : World) :
  ∃ recent, getRecentHistory count w = Ok recent w
    ∧ (0 < count → recent = lastn (Z.to_nat count) (hm_history w)
                   ∧ length recent = Nat.min (Z.to_nat count) (length (hm_history w)))
    ∧ (count = 0 → recent = hm_history w)
    ∧ (count < 0 → recent = drop (Z.to_nat (- count)) (hm_history w)).
Proof.
  unfold getRecentHistory. rewrite gets_run. eexists. split; [reflexivity|].
  split; [|split].
  - intros Hc. rewrite slice_from_last by done. split; [done | apply lastn_length].
  - intros ->. by rewrite slice_from_front.
  - intros Hc. apply slice_from_front. lia.
Qed.

Lemma lastn_snoc {A} (n : nat) (l : list A) (x : A) :
  lastn (S n) (l ++ [x]) = lastn n l ++ [x].
Proof.
  unfold lastn. rewrite length_app. simpl.
  replace (length l + 1 - S n)%nat with (length l - n)%nat by lia.
  apply drop_app_le. lia.
Qed.

Lemma filter_snoc_true {A} (f : A → bool) (l : list A) (x : A) :
  f x = true → List.filter f (l ++ [x]) = List.filter f l ++ [x].
Proof. intros H. rewrite List.filter_app. simpl. by rewrite H. Qed.

(** X13. An entry logged for an actor is the newest one that actor's query
    returns.  From a log within its bound, of bound at least one:
    [addActionEntry] files the action under its actor, so that
    [getHistoryByActor] and [getHistoryByType] of ACTION end with it, and
    [addNPCResponseEntry] files the response under the NPC's id in the same
    way; the entries before it are the matching ones among the newest
    [maxHistoryLength - 1] of the old log. *)
Theorem logged_entry_is_newest_of_its_actor (action : BaseAction) (npcId content : jsstring)
    (w : World) :
  (length (hm_history w) ≤ maxHistoryLength w)%nat →
  (1 ≤ maxHistoryLength w)%nat →
  let kept := lastn (maxHistoryLength w - 1) (hm_history w) in
  (∃ entry w',
     addActionEntry action w = Ok entry w'
     ∧ he_type entry = H_ACTION ∧ he_actorId entry = Some (actorId action)
     ∧ he_content entry = act_content action
     ∧ getHistoryByActor (actorId action) None w'
       = Ok (List.filter (by_actor (actorId action)) kept ++ [entry]) w'
     ∧ getHistoryByType H_ACTION None w'
       = Ok (List.filter (λ e, HistoryEntryType_eqb (he_type e) H_ACTION) kept ++ [entry]) w'
     ∧ getRecentHistory 1 w' = Ok [entry] w')
  ∧ (∃ entry w',
     addNPCResponseEntry npcId content w = Ok entry w'
     ∧ he_type entry = H_NPC_RESPONSE ∧ he_npcId entry = Some npcId
     ∧ he_actorId entry = None ∧ he_content entry = content
     ∧ getHistoryByActor npcId None w'
       = Ok (List.filter (by_actor npcId) kept ++ [entry]) w'
     ∧ getHistoryByType H_NPC_RESPONSE None w'
       = Ok (List.filter (λ e, HistoryEntryType_eqb (he_type e) H_NPC_RESPONSE) kept ++ [entry]) w'
     ∧ getRecentHistory 1 w' = Ok [entry] w').
Proof.
  intros Hle Hmax kept.
  assert (∀ c, lastn (maxHistoryLength w) (hm_history w ++ [c]) = kept ++ [c]) as Hsnoc.
  { intros c. unfold kept.
    replace (maxHistoryLength w) with (S (maxHistoryLength w - 1)) at 1 by lia.
    apply lastn_snoc. }
  assert (∀ (l : list HistoryEntry) c, lastn 1 (l ++ [c]) = [c]) as Hlast.
  { intros l c. rewrite lastn_snoc. unfold lastn. by rewrite Nat.sub_0_r, drop_all. }
  split.
  - unfold addActionEntry.
    destruct (addEntry_spec
                {| ei_id := None; ei_timestamp := None; ei_type := H_ACTION;
                   ei_actorId := Some (actorId action); ei_npcId := None;
                   ei_content := act_content action |} w Hle)
      as (c & w' & E & (Ht & Ha & Hn & Hc & _) & Hh & _).
    simpl in Ht, Ha, Hn, Hc. rewrite Hsnoc in Hh.
    exists c, w'. split; [done|]. repeat split; try done.
    + unfold getHistoryByActor. mrun. rewrite Hh, filter_snoc_true; [done|].
      unfold by_actor. rewrite Ha. by rewrite bool_decide_eq_true_2.
    + unfold getHistoryByType. mrun. rewrite Hh, filter_snoc_true; [done|].
      by rewrite Ht.
    + unfold getRecentHistory. mrun. rewrite Hh.
      rewrite (slice_from_last 1) by lia.
      change (Z.to_nat 1) with 1%nat. by rewrite Hlast.
  - unfold addNPCResponseEntry.
    destruct (addEntry_spec
                {| ei_id := None; ei_timestamp := None; ei_type := H_NPC_RESPONSE;
                   ei_actorId := None; ei_npcId := Some npcId;
                   ei_content := content |} w Hle)
      as (c & w' & E & (Ht & Ha & Hn & Hc & _) & Hh & _).
    simpl in Ht, Ha, Hn, Hc. rewrite Hsnoc in Hh.
    exists c, w'. split; [done|]. repeat split; try done.
    + unfold getHistoryByActor. mrun. rewrite Hh, filter_snoc_true; [done|].
      unfold by_actor. rewrite Ht, Hn. rewrite (bool_decide_eq_true_2 (Some npcId = Some npcId)) by done.
      simpl. apply orb_true_r.
    + unfold getHistoryByType. mrun. rewrite Hh, filter_snoc_true; [done|].
      by rewrite Ht.
    + unfold getRecentHistory. mrun. rewrite Hh.
      rewrite (slice_from_last 1) by lia.
      change (Z.to_nat 1) with 1%nat. by rewrite Hlast.
Qed.

Lemma logged_entry_is_newest_of_its_actor_witness :
  ∃ entry w',
    addActionEntry Samples.thanks Samples.empty_world = Ok entry w'
    ∧ getHistoryByActor (actorId Samples.thanks) None w' = Ok [entry] w'.
Proof.
  destruct (logged_entry_is_newest_of_its_actor Samples.thanks (js "npc1") (js "hm")
              Samples.empty_world)
    as [(entry & w' & E & _ & _ & _ & Hq & _) _]; [simpl; lia | simpl; lia |].
  exists entry, w'. split; [exact E | exact Hq].
Defined.

Lemma indexOf_spec (c : N) (s : jsstring) :
  (indexOf c s = -1 ∧ c ∉ s)
  ∨ (∃ pre post, s = pre ++ c :: post ∧ (c ∉ pre) ∧ indexOf c s = Z.of_nat (length pre)).
Proof.
  induction s as [|x r IH]; simpl.
  - left. split; [done | apply not_elem_of_nil].
  - destruct (N.eqb_spec x c) as [->|Hne].
    + right. exists [], r. split; [done|]. split; [apply not_elem_of_nil | done].
    + destruct IH as [[Hi Hn] | (pre & post & -> & Hn & Hi)].
      * left. rewrite Hi. simpl. split; [done|].
        rewrite not_elem_of_cons. split; [congruence | done].
      * right. exists (x :: pre), post. split; [done|]. split.
        -- rewrite not_elem_of_cons. split; [congruence | done].
        -- rewrite Hi. destruct (Z.ltb_spec (Z.of_nat (length pre)) 0); [lia|].
           simpl length. lia.
Qed.

Lemma substring_from_drop (k : nat) (s : jsstring) :
  (k ≤ length s)%nat → substring_from (Z.of_nat k) s = drop k s.
Proof. intros H. unfold substring_from. f_equal. lia. Qed.

(** The truncation at the end of [getHistorySummaryForPrompt]. *)
Lemma truncate_summary_spec (summary : jsstring) (maxLength : Z) :
  0 ≤ maxLength →
  let out := truncate_summary summary maxLength in
  Z.of_nat (length out) ≤ maxLength
  ∧ (Z.of_nat (length summary) ≤ maxLength → out = summary)
  ∧ (maxLength < Z.of_nat (length summary) →
     (∃ pre, summary = pre ++ 10%N :: out)
     ∨ ((10%N ∉ out) ∧ Z.of_nat (length out) = maxLength ∧ ∃ pre, summary = pre ++ out)).
Proof.
  intros Hm out. unfold out, truncate_summary.
  destruct (Z.ltb_spec maxLength (Z.of_nat (length summary))) as [Hlt|Hge].
  - set (k := (length summary - Z.to_nat maxLength)%nat).
    replace (Z.of_nat (length summary) - maxLength) with (Z.of_nat k) by lia.
    rewrite substring_from_drop by lia.
    assert (length (drop k summary) = Z.to_nat maxLength) as Hlen
      by (rewrite length_drop; lia).
    pose proof (take_drop k summary) as Hsplit.
    destruct (indexOf_spec 10%N (drop k summary))
      as [[Hi Hn] | (pre & post & Hcut & Hn & Hi)].
    + rewrite Hi. change (-1 + 1) with (Z.of_nat 0).
      rewrite substring_from_drop by lia. rewrite drop_0.
      split; [lia|]. split; [lia|]. intros _. right.
      split; [done|]. split; [lia|]. by exists (take k summary).
    + rewrite Hi, Hcut in *.
      replace (Z.of_nat (length pre) + 1) with (Z.of_nat (length (pre ++ [10%N])))
        by (rewrite length_app; simpl; lia).
      rewrite (cons_middle _ pre post), app_assoc.
      rewrite substring_from_drop by (rewrite !length_app; simpl; lia).
      rewrite drop_app_length.
      rewrite length_app in Hlen. simpl in Hlen.
      split; [lia|]. split; [lia|]. intros _. left.
      exists (take k summary ++ pre). rewrite <- Hsplit at 1.
      by rewrite <- app_assoc.
  - split; [lia|]. split; [done | lia].
Qed.

(** X14. [getHistorySummaryForPrompt(maxLength)], for [maxLength] not
    negative, reads the log without changing it and returns at most
    [maxLength] code units: the joined lines of the last ten entries when
    they fit, and otherwise a tail of them that either starts right after
    a line break or, when the last [maxLength] units hold no line break,
    is exactly those units, cut inside a line. *)
Theorem getHistorySummaryForPrompt_truncates (description message : HistoryEntry → jsstring)
    (maxLength : Z) (w : World) :
  0 ≤ maxLength →
  let summary :=
    join [10%N] (omap (summary_line description message) (lastn 10 (hm_history w))) in
  ∃ out,
    getHistorySummaryForPrompt description message maxLength w = Ok out w
    ∧ Z.of_nat (length out) ≤ maxLength
    ∧ (Z.of_nat (length summary) ≤ maxLength → out = summary)
    ∧ (maxLength < Z.of_nat (length summary) →
       (∃ pre, summary = pre ++ 10%N :: out)
       ∨ ((10%N ∉ out) ∧ Z.of_nat (length out) = maxLength ∧ ∃ pre, summary = pre ++ out)).
Proof.
  intros Hm summary.
  unfold getHistorySummaryForPrompt, getRecentHistory. mrun.
  rewrite (slice_from_last 10) by lia. change (Z.to_nat 10) with 10%nat.
  eexists. split; [reflexivity|].
  apply (truncate_summary_spec summary maxLength Hm).
Qed.

Lemma getHistorySummaryForPrompt_truncates_witness :
  ∃ out,
    getHistorySummaryForPrompt (λ _, []) (λ _, []) 20 Scenes.logged = Ok out Scenes.logged
    ∧ Z.of_nat (length out) ≤ 20.
Proof.
  destruct (getHistorySummaryForPrompt_truncates (λ _, []) (λ _, []) 20 Scenes.logged)
    as (out & E & H & _); [lia|].
  by exists out.
Defined.

Lemma filter_sublist {A} (f : A → bool) (l : list A) : List.filter f l `sublist_of` l.
Proof.
  induction l as [|x l IH]; simpl; [done|].
  destruct (f x); [by apply sublist_skip | by apply sublist_cons].
Qed.

Lemma slice_from_sublist {A} (start : Z) (l : list A) : slice_from start l `sublist_of` l.
Proof. apply sublist_drop. Qed.

Lemma slice_from_Forall {A} (P : A → Prop) (start : Z) (l : list A) :
  Forall P l → Forall P (slice_from start l).
Proof. apply Forall_drop. Qed.

Lemma filter_Forall {A} (f : A → bool) (l : list A) :
  Forall (λ x, f x = true) (List.filter f l).
Proof. apply Forall_forall. intros x Hx%list_elem_of_In%filter_In. by destruct Hx. Qed.

Lemma HistoryEntryType_eqb_eq (x y : HistoryEntryType) :
  HistoryEntryType_eqb x y = true ↔ x = y.
Proof. by destruct x, y. Qed.

(** X27. The three filtered queries of the log change nothing and select:
    each returns entries of the log in the log's order, none twice, all of
    them passing its test (the type; the actor id, or for an NPC response
    the NPC id; the time stamp within the two bounds, which is nothing for
    an empty range), with or without a count.  After [clearHistory] each
    returns the empty list. *)
Theorem history_queries_select_in_order (type : HistoryEntryType) (actor : jsstring)
    (count : option Z) (startTime endTime : Z) (w : World) :
  (∃ by_type by_whom in_range,
     getHistoryByType type count w = Ok by_type w
     ∧ getHistoryByActor actor count w = Ok by_whom w
     ∧ getHistoryByTimeRange startTime endTime w = Ok in_range w
     ∧ by_type `sublist_of` hm_history w
     ∧ by_whom `sublist_of` hm_history w
     ∧ in_range `sublist_of` hm_history w
     ∧ Forall (λ e, he_type e = type) by_type
     ∧ Forall (λ e, he_actorId e = Some actor
                    ∨ (he_type e = H_NPC_RESPONSE ∧ he_npcId e = Some actor)) by_whom
     ∧ Forall (λ e, startTime ≤ he_timestamp e ≤ endTime) in_range
     ∧ (endTime < startTime → in_range = []))
  ∧ (∃ w', clearHistory w = Ok tt w'
       ∧ getHistory w' = Ok [] w'
       ∧ getHistoryByType type count w' = Ok [] w'
       ∧ getHistoryByActor actor count w' = Ok [] w'
       ∧ getHistoryByTimeRange startTime endTime w' = Ok [] w'
       ∧ getRecentHistory (default 0 count) w' = Ok [] w').
Proof.
  split.
  - unfold getHistoryByType, getHistoryByActor, getHistoryByTimeRange.
    rewrite !bind_run, !gets_run. cbv beta iota.
    set (h := hm_history w).
    assert (Forall (λ e, he_type e = type)
              (List.filter (λ e, HistoryEntryType_eqb (he_type e) type) h)) as Ht.
    { eapply Forall_impl; [apply filter_Forall|]. intros e. apply HistoryEntryType_eqb_eq. }
    assert (Forall (λ e, he_actorId e = Some actor
                         ∨ (he_type e = H_NPC_RESPONSE ∧ he_npcId e = Some actor))
              (List.filter (by_actor actor) h)) as Ha.
    { eapply Forall_impl; [apply filter_Forall|]. intros e. unfold by_actor.
      intros [H%bool_decide_eq_true | [H1%HistoryEntryType_eqb_eq H2%bool_decide_eq_true]
                                        %andb_true_iff]%orb_true_iff; auto. }
    assert (Forall (λ e, startTime ≤ he_timestamp e ≤ endTime)
              (List.filter (λ e, (startTime <=? he_timestamp e)
                                 && (he_timestamp e <=? endTime)) h)) as Hr.
    { eapply Forall_impl; [apply filter_Forall|]. intros e. simpl.
      intros [?%Z.leb_le ?%Z.leb_le]%andb_true_iff. lia. }
    assert (endTime < startTime →
            List.filter (λ e, (startTime <=? he_timestamp e)
                              && (he_timestamp e <=? endTime)) h = []) as Hnone.
    { intros Hempty. clear Ht Ha.
      destruct (List.filter _ h) as [|e l] eqn:E; [done|].
      apply Forall_cons in Hr as [? _]. lia. }
    destruct count as [c|]; mrun; eexists _, _, _;
      (split; [reflexivity|]); (split; [reflexivity|]); (split; [reflexivity|]).
    + split; [etrans; [apply slice_from_sublist | apply filter_sublist]|].
      split; [etrans; [apply slice_from_sublist | apply filter_sublist]|].
      split; [apply filter_sublist|].
      split; [by apply slice_from_Forall|].
      split; [by apply slice_from_Forall|]. done.
    + split; [apply filter_sublist|]. split; [apply filter_sublist|].
      split; [apply filter_sublist|]. done.
  - unfold clearHistory, getHistory, getHistoryByType, getHistoryByActor,
      getHistoryByTimeRange, getRecentHistory.
    rewrite modify_run. eexists. split; [reflexivity|]. mrun. cbn.
    unfold slice_from. rewrite !drop_nil.
    repeat split; destruct count; by rewrite ?mret_run, ?drop_nil.
Qed.

End HistoryQueryFacts.

(** ** The three input patterns *)
Section PatternFacts.

(** The first unit that is not white space splits an input in one way. *)
Lemma first_nonspace (pre pre' x x' : jsstring) (o o' : N) :
  forallb is_space pre = true → forallb is_space pre' = true →
  is_space o = false → is_space o' = false →
  pre ++ o :: x = pre' ++ o' :: x' →
  pre = pre' ∧ o = o' ∧ x = x'.
Proof.
  revert pre'. induction pre as [|a pre IH]; intros [|a' pre'] Hp Hp' Ho Ho' H;
    simpl in *.
  - by injection H as -> ->.
  - injection H as -> _. apply andb_true_iff in Hp' as [? _]. congruence.
  - injection H as -> _. apply andb_true_iff in Hp as [? _]. congruence.
  - injection H as -> H.
    apply andb_true_iff in Hp as [_ Hp]. apply andb_true_iff in Hp' as [_ Hp'].
    destruct (IH pre' Hp Hp' Ho Ho' H) as (-> & -> & ->). done.
Qed.

Lemma forallb_rev (p : N → bool) (l : jsstring) :
  forallb p l = true → forallb p (rev l) = true.
Proof.
  rewrite !forallb_forall. intros H x Hx. apply H. by apply in_rev.
Qed.

(** And so does the last one. *)
Lemma last_nonspace (x x' post post' : jsstring) (c c' : N) :
  forallb is_space post = true → forallb is_space post' = true →
  is_space c = false → is_space c' = false →
  x ++ c :: post = x' ++ c' :: post' →
  x = x' ∧ c = c' ∧ post = post'.
Proof.
  intros Hp Hp' Hc Hc' H.
  apply (f_equal (@rev N)) in H. rewrite !rev_app_distr in H. simpl in H.
  rewrite <- !app_assoc in H. simpl in H.
  destruct (first_nonspace (rev post) (rev post') (rev x) (rev x') c c') as (E1 & E2 & E3);
    try done; try by apply forallb_rev.
  split; [|split; [done|]].
  - by rewrite <- (rev_involutive x), E3, rev_involutive.
  - by rewrite <- (rev_involutive post), E1, rev_involutive.
Qed.

Lemma brackets_units : js "[【" = [91; 12304]%N ∧ js "]】" = [93; 12305]%N
  ∧ js "{「" = [123; 12300]%N ∧ js "}」" = [125; 12301]%N.
Proof. by vm_compute. Qed.

Lemma in_class_two (a b c : N) : in_class [a; b] c = true → c = a ∨ c = b.
Proof.
  unfold in_class. simpl. rewrite orb_false_r.
  intros [H|H]%orb_true_iff; apply N.eqb_eq in H; auto.
Qed.

Lemma in_class_one (a c : N) : in_class [a] c = true → c = a.
Proof.
  unfold in_class. simpl. rewrite orb_false_r. by intros H%N.eqb_eq.
Qed.

(** No opening or closing unit of the three patterns is white space. *)
Lemma action_open_not_space (c : N) :
  in_class (js "[【") c = true → is_space c = false.
Proof.
  destruct brackets_units as (-> & _). by intros [-> | ->]%in_class_two.
Qed.

Lemma action_close_not_space (c : N) :
  in_class (js "]】") c = true → is_space c = false.
Proof.
  destruct brackets_units as (_ & -> & _). by intros [-> | ->]%in_class_two.
Qed.

Lemma item_open_not_space (c : N) :
  in_class (js "{「") c = true → is_space c = false.
Proof.
  destruct brackets_units as (_ & _ & -> & _). by intros [-> | ->]%in_class_two.
Qed.

Lemma item_close_not_space (c : N) :
  in_class (js "}」") c = true → is_space c = false.
Proof.
  destruct brackets_units as (_ & _ & _ & ->). by intros [-> | ->]%in_class_two.
Qed.

Lemma quote_not_space (c : N) : in_class [34%N] c = true → is_space c = false.
Proof. by intros ->%in_class_one. Qed.

(** What a successful match says about the first unit after the leading
    white space. *)
Lemma enclosed_opening (open close : N → bool) (input content : jsstring) :
  enclosed open close input content →
  ∃ pre o rest, input = pre ++ o :: rest ∧ forallb is_space pre = true ∧ open o = true.
Proof.
  intros (pre & o & cl & post & -> & Hp & Ho & _).
  by exists pre, o, (content ++ cl :: post).
Qed.

Lemma opened_opening (open close : N → bool) (input content : jsstring) :
  opened open close input content →
  ∃ pre o rest, input = pre ++ o :: rest ∧ forallb is_space pre = true ∧ open o = true.
Proof.
  intros (pre & o & post & Hp & Ho & _ & _ & _ & [-> | (cl & _ & ->)]).
  - by exists pre, o, (content ++ post).
  - by exists pre, o, (content ++ cl :: post).
Qed.

Lemma openings_disjoint (open open' : N → bool) (input : jsstring) :
  (∀ c, open c = true → is_space c = false) →
  (∀ c, open' c = true → is_space c = false) →
  (∀ c, open c = true → open' c = true → False) →
  (∃ pre o rest, input = pre ++ o :: rest ∧ forallb is_space pre = true ∧ open o = true) →
  (∃ pre o rest, input = pre ++ o :: rest ∧ forallb is_space pre = true ∧ open' o = true) →
  False.
Proof.
  intros Hs Hs' Hd (pre & o & rest & -> & Hp & Ho) (pre' & o' & rest' & E & Hp' & Ho').
  destruct (first_nonspace pre pre' rest rest' o o') as (_ & -> & _); eauto.
Qed.

Lemma action_item_disjoint (c : N) :
  in_class (js "[【") c = true → in_class (js "{「") c = true → False.
Proof.
  destruct brackets_units as (-> & _ & -> & _).
  by intros [-> | ->]%in_class_two [? | ?]%in_class_two.
Qed.

Lemma action_quote_disjoint (c : N) :
  in_class (js "[【") c = true → in_class [34%N] c = true → False.
Proof.
  destruct brackets_units as (-> & _). by intros [-> | ->]%in_class_two ?%in_class_one.
Qed.

Lemma item_quote_disjoint (c : N) :
  in_class (js "{「") c = true → in_class [34%N] c = true → False.
Proof.
  destruct brackets_units as (_ & _ & -> & _).
  by intros [-> | ->]%in_class_two ?%in_class_one.
Qed.

(** X15. No input matches two of the three patterns: what decides is the
    first unit after the leading white space.  So the order in which
    [parseActionInput] tries them never matters: the result is an ACTION
    exactly when the bracket pattern matches and an ITEM exactly when the
    brace pattern matches. *)
Theorem patterns_exclude_each_other (input : jsstring) :
  ¬ (is_Some (actionRegex input) ∧ is_Some (itemRegex input))
  ∧ ¬ (is_Some (actionRegex input) ∧ is_Some (dialogueRegex input))
  ∧ ¬ (is_Some (itemRegex input) ∧ is_Some (dialogueRegex input))
  ∧ (pr_type (parseActionInput input) = ACTION ↔ is_Some (actionRegex input))
  ∧ (pr_type (parseActionInput input) = ITEM ↔ is_Some (itemRegex input)).
Proof.
  assert (¬ (is_Some (actionRegex input) ∧ is_Some (itemRegex input))) as Hai.
  { intros [[c1 H1%exec_enclosed_Some%enclosed_opening] [c2 H2%exec_enclosed_Some%enclosed_opening]].
    eapply (openings_disjoint _ _ input action_open_not_space item_open_not_space
              action_item_disjoint); eauto. }
  split; [done|]. split; [|split; [|split]].
  - intros [[c1 H1%exec_enclosed_Some%enclosed_opening] [c2 H2%exec_opened_Some%opened_opening]].
    eapply (openings_disjoint _ _ input action_open_not_space quote_not_space
              action_quote_disjoint); eauto.
  - intros [[c1 H1%exec_enclosed_Some%enclosed_opening] [c2 H2%exec_opened_Some%opened_opening]].
    eapply (openings_disjoint _ _ input item_open_not_space quote_not_space
              item_quote_disjoint); eauto.
  - unfold parseActionInput.
    destruct (actionRegex input) as [c|]; simpl; [split; eauto|].
    destruct (itemRegex input), (dialogueRegex input); simpl;
      (split; [done | by intros [? ?]]).
  - unfold parseActionInput.
    destruct (actionRegex input) as [c|] eqn:Ea; simpl.
    + split; [done|]. intros Hi. exfalso. apply Hai. split; [eauto | done].
    + destruct (itemRegex input), (dialogueRegex input); simpl;
        split; eauto; try done; by intros [? ?].
Qed.

Lemma enclosed_unique (open close : N → bool) (input c c' : jsstring) :
  (∀ u, open u = true → is_space u = false) →
  (∀ u, close u = true → is_space u = false) →
  enclosed open close input c → enclosed open close input c' → c = c'.
Proof.
  intros Hos Hcs (pre & o & cl & post & -> & Hp & Ho & _ & _ & Hcl & Hpost)
    (pre' & o' & cl' & post' & E & Hp' & Ho' & _ & _ & Hcl' & Hpost').
  destruct (first_nonspace pre pre' (c ++ cl :: post) (c' ++ cl' :: post') o o')
    as (_ & _ & E'); eauto.
  by destruct (last_nonspace c c' post post' cl cl') as (? & _); eauto.
Qed.

Lemma exec_enclosed_iff (open close : N → bool) (input c : jsstring) :
  (∀ u, open u = true → is_space u = false) →
  (∀ u, close u = true → is_space u = false) →
  exec_enclosed open close input = Some c ↔ enclosed open close input c.
Proof.
  intros Hos Hcs. split; [apply exec_enclosed_Some|].
  intros Hc. destruct (exec_enclosed open close input) as [c'|] eqn:E.
  - f_equal. apply exec_enclosed_Some in E.
    exact (enclosed_unique open close input c' c Hos Hcs E Hc).
  - exfalso. exact (proj1 (exec_enclosed_None open close input) E c Hc).
Qed.

(** X16. The bracket and the brace pattern capture exactly the enclosed
    text: an input has at most one reading as white space, opening unit,
    text, closing unit, white space, and the pattern matches with [c]
    if and only if that reading has the text [c].  Where the input ends in
    several closing units, all but the last belong to the text. *)
Theorem enclosed_patterns_capture_exactly (input c : jsstring) :
  (actionRegex input = Some c
   ↔ enclosed (in_class (js "[【")) (in_class (js "]】")) input c)
  ∧ (itemRegex input = Some c
     ↔ enclosed (in_class (js "{「")) (in_class (js "}」")) input c)
  ∧ (∀ pre text closers post,
       forallb is_space pre = true → forallb is_space post = true →
       text ≠ [] → forallb dot text = true →
       forallb (in_class (js "]】")) closers = true →
       actionRegex (pre ++ 91%N :: text ++ closers ++ 93%N :: post)
       = Some (text ++ closers)).
Proof.
  split; [|split].
  - apply exec_enclosed_iff; [apply action_open_not_space | apply action_close_not_space].
  - apply exec_enclosed_iff; [apply item_open_not_space | apply item_close_not_space].
  - intros pre text closers post Hpre Hpost Hne Hdot Hcl.
    apply exec_enclosed_iff; [apply action_open_not_space | apply action_close_not_space|].
    exists pre, 91%N, 93%N, post. rewrite <- app_assoc.
    split; [done|]. split; [done|]. split; [by vm_compute|].
    split; [by destruct text|]. split; [|split; [by vm_compute | done]].
    rewrite forallb_app, Hdot. simpl.
    rewrite forallb_forall in Hcl. apply forallb_forall. intros x Hx.
    specialize (Hcl x Hx). destruct brackets_units as (_ & E & _). rewrite E in Hcl.
    by apply in_class_two in Hcl as [-> | ->].
Qed.

(** The longest run of white space comes first among the successes of
    [\s*]; every other success still starts with white space. *)
Lemma star_greedy_first (p : N → bool) (pre r : jsstring) (o : N) :
  forallb p pre = true → p o = false →
  ∃ others, star_greedy p (pre ++ o :: r) = (o :: r) :: others
    ∧ ∀ s, s ∈ others → ∃ c s', s = c :: s' ∧ p c = true.
Proof.
  intros Hpre Ho. induction pre as [|a pre IH]; simpl in *.
  - rewrite Ho. exists []. split; [done|]. by intros s ?%elem_of_nil.
  - apply andb_true_iff in Hpre as [Ha Hpre]. rewrite Ha.
    destruct (IH Hpre) as (others & -> & Hoth).
    exists (others ++ [a :: pre ++ o :: r]). split; [done|].
    intros s [Hs | ->%list_elem_of_singleton]%elem_of_app; [by apply Hoth | eauto].
Qed.

Lemma bind_all_nil {A B} (f : A → list B) (l : list A) :
  (∀ x, x ∈ l → f x = []) → l ≫= f = [].
Proof.
  induction l as [|x l IH]; intros H; [done|].
  change ((x :: l) ≫= f) with (f x ++ (l ≫= f)).
  rewrite H by apply list_elem_of_here. simpl. apply IH.
  intros y Hy. apply H. by apply list_elem_of_further.
Qed.

(** The lazy quantifier offers its captures from the shortest on. *)
Lemma plus_lazy_sorted (p : N → bool) (s : jsstring) :
  StronglySorted (λ x y : jsstring * jsstring, (length x.1 ≤ length y.1)%nat)
    (plus_lazy p s).
Proof.
  induction s as [|c s IH]; simpl; [constructor|].
  destruct (p c); [|constructor].
  constructor.
  - induction IH as [|x l Hl IHl Hx]; simpl; constructor; [done|].
    apply Forall_fmap. eapply Forall_impl; [exact Hx|]. simpl. intros; lia.
  - apply Forall_fmap, Forall_forall. intros [c' r'] _. simpl. lia.
Qed.

Lemma head_bind_sorted {A B} (R : relation A) (g : A → B) (f : A → list B) (l : list A) :
  StronglySorted R l →
  (∀ x y, y ∈ f x → y = g x) →
  ∀ c, head (l ≫= f) = Some c →
  ∀ c', c' ∈ l ≫= f → ∃ x x', c = g x ∧ c' = g x' ∧ (x = x' ∨ R x x').
Proof.
  intros Hs Hf. induction Hs as [|x l Hl IH Hx]; intros c Hc c' Hc'.
  - by apply elem_of_nil in Hc'.
  - change ((x :: l) ≫= f) with (f x ++ (l ≫= f)) in *.
    destruct (f x) as [|y ys] eqn:Efx.
    + simpl in *. by apply IH.
    + simpl in Hc. injection Hc as <-.
      assert (y = g x) as -> by (apply Hf; rewrite Efx; apply list_elem_of_here).
      apply elem_of_app in Hc' as [Hc' | Hc'].
      * exists x, x. split; [done|]. split; [|by left]. apply Hf. by rewrite Efx.
      * apply list_elem_of_bind in Hc' as (x' & Hin & Hx').
        exists x, x'. split; [done|]. split; [by apply Hf|].
        right. rewrite Forall_forall in Hx. by apply Hx.
Qed.

Lemma exec_opened_shortest (open close : N → bool) (input c c' : jsstring) :
  (∀ u, open u = true → is_space u = false) →
  exec_opened open close input = Some c →
  opened open close input c' → (length c ≤ length c')%nat.
Proof.
  intros Hos Hc Hc'.
  destruct (opened_opening _ _ _ _ Hc') as (pre & o & rest & -> & Hpre & Ho).
  apply opened_successes in Hc'. unfold exec_opened in Hc.
  destruct (star_greedy_first is_space pre rest o Hpre (Hos o Ho)) as (others & E & Hoth).
  rewrite E in Hc, Hc'.
  set (G := λ s2 : jsstring,
         cr ← plus_lazy dot s2;
         s4 ← opt_greedy close cr.2;
         s5 ← star_greedy is_space s4;
         _ ← eos s5;
         [cr.1]) in *.
  set (K := λ s1 : jsstring, s2 ← one open s1; G s2) in *.
  change (((o :: rest) :: others) ≫= K) with (K (o :: rest) ++ (others ≫= K)) in *.
  assert (others ≫= K = []) as Hnil.
  { apply bind_all_nil. intros s (u & s' & -> & Hu)%Hoth. unfold K. simpl.
    destruct (open u) eqn:Hou; [apply Hos in Hou; congruence | done]. }
  assert (K (o :: rest) = G rest) as HK.
  { unfold K. simpl. rewrite Ho.
    change ([rest] ≫= (λ s2 : jsstring, G s2)) with (G rest ++ []).
    by rewrite app_nil_r. }
  rewrite Hnil, app_nil_r, HK in Hc, Hc'. unfold G in Hc, Hc'.
  set (F := λ cr : jsstring * jsstring,
         s4 ← opt_greedy close cr.2;
         s5 ← star_greedy is_space s4;
         _ ← eos s5;
         [cr.1]) in *.
  assert (∀ x y, y ∈ F x → y = x.1) as HF.
  { intros x y (s4 & (s5 & (u & Hy & _)%list_elem_of_bind & _)%list_elem_of_bind
      & _)%list_elem_of_bind.
    by apply list_elem_of_singleton in Hy. }
  destruct (head_bind_sorted _ fst F _ (plus_lazy_sorted dot rest) HF c Hc c' Hc')
    as (x & x' & -> & -> & [-> | Hle]); done.
Qed.

Lemma opened_prefix (open close : N → bool) (pre rest c : jsstring) (o : N) :
  (∀ u, open u = true → is_space u = false) →
  forallb is_space pre = true → open o = true →
  opened open close (pre ++ o :: rest) c → ∃ r, rest = c ++ r.
Proof.
  intros Hos Hpre Ho (pre' & o' & post & Hp' & Ho' & _ & _ & _ & [E | (cl & _ & E)]);
    destruct (first_nonspace pre pre' rest _ o o' Hpre Hp' (Hos o Ho) (Hos o' Ho') E)
      as (_ & _ & ->); eauto.
Qed.

Lemma exec_opened_iff (open close : N → bool) (input c : jsstring) :
  (∀ u, open u = true → is_space u = false) →
  exec_opened open close input = Some c
  ↔ opened open close input c
    ∧ ∀ c', opened open close input c' → (length c ≤ length c')%nat.
Proof.
  intros Hos. split.
  - intros H. split; [by apply exec_opened_Some|].
    intros c' Hc'. by eapply exec_opened_shortest.
  - intros [Hc Hmin]. destruct (exec_opened open close input) as [c0|] eqn:E.
    + f_equal.
      pose proof (exec_opened_Some _ _ _ _ E) as Hc0.
      pose proof (exec_opened_shortest _ _ _ _ _ Hos E Hc) as Hle.
      pose proof (Hmin c0 Hc0) as Hge.
      destruct (opened_opening _ _ _ _ Hc) as (pre & o & rest & -> & Hpre & Ho).
      destruct (opened_prefix _ _ _ _ _ _ Hos Hpre Ho Hc) as (r & Hr).
      destruct (opened_prefix _ _ _ _ _ _ Hos Hpre Ho Hc0) as (r0 & Hr0).
      rewrite Hr in Hr0. apply app_inj_1 in Hr0 as [? _]; [done | lia].
    + exfalso. exact (proj1 (exec_opened_None open close input) E c Hc).
Qed.

(** X17. The quote pattern captures the shortest text that lets the whole
    input match: [dialogueRegex] returns [c] exactly when the input reads
    as white space, a quote, [c], an optional quote, white space, and no
    shorter text reads so.  A closing quote before the trailing white
    space is therefore never part of the captured text. *)
Theorem dialogue_pattern_captures_shortest (input c : jsstring) :
  (dialogueRegex input = Some c
   ↔ opened (in_class [34%N]) (in_class [34%N]) input c
     ∧ ∀ c', opened (in_class [34%N]) (in_class [34%N]) input c' →
             (length c ≤ length c')%nat)
  ∧ (∀ pre text post,
       forallb is_space pre = true → forallb is_space post = true →
       text ≠ [] → forallb dot text = true →
       dialogueRegex (pre ++ 34%N :: text ++ 34%N :: post) = Some text).
Proof.
  split; [apply exec_opened_iff, quote_not_space|].
  intros pre text post Hpre Hpost Hne Hdot.
  apply exec_opened_iff; [apply quote_not_space|]. split.
  - exists pre, 34%N, post. repeat split; try done. right. by exists 34%N.
  - intros c' Hc'.
    destruct Hc' as (pre' & o' & post' & Hp' & Ho' & _ & _ & Hpost' & [E | (cl & Hcl & E)]);
      destruct (first_nonspace pre pre' _ _ 34%N o' Hpre Hp' eq_refl
                  (quote_not_space o' Ho') E) as (_ & _ & E').
    + apply app_eq_inv in E' as [(k & -> & Hk) | (k & -> & _)].
      * rewrite Hk, forallb_app in Hpost'. simpl in Hpost'.
        apply andb_true_iff in Hpost' as [_ ?]. done.
      * rewrite length_app. lia.
    + destruct (last_nonspace text c' post post' 34%N cl Hpost Hpost' eq_refl
                  (quote_not_space cl Hcl) E') as (-> & _). done.
Qed.

(** X18. What [parseActionInput] returns is never longer than the input
    and occurs in it as written; it is empty only for the empty input.
    The text of an ACTION or an ITEM lost at least its two delimiters and
    holds no line break. *)
Theorem parseActionInput_content (input : jsstring) :
  let result := parseActionInput input in
  includes input (pr_content result) = true
  ∧ (length (pr_content result) ≤ length input)%nat
  ∧ (pr_content result = [] ↔ input = [])
  ∧ (pr_type result ≠ DIALOGUE →
     (length (pr_content result) + 2 ≤ length input)%nat
     ∧ forallb dot (pr_content result) = true).
Proof.
  assert (∀ open close c, enclosed open close input c →
            includes input c = true ∧ (length c + 2 ≤ length input)%nat
            ∧ c ≠ [] ∧ forallb dot c = true) as Henc.
  { intros open close c (pre & o & cl & post & -> & _ & _ & Hne & Hdot & _).
    split; [|split; [|done]].
    - apply includes_spec. exists (pre ++ [o]), (cl :: post).
      by rewrite <- app_assoc.
    - rewrite length_app. simpl. rewrite length_app. simpl. lia. }
  assert (∀ open close c, opened open close input c →
            includes input c = true ∧ (length c ≤ length input)%nat ∧ c ≠ []) as Hop.
  { intros open close c (pre & o & post & _ & _ & Hne & _ & _ & [-> | (cl & _ & ->)]).
    - split; [|split; [|done]].
      + apply includes_spec. exists (pre ++ [o]), post. by rewrite <- app_assoc.
      + rewrite length_app. simpl. rewrite length_app. lia.
    - split; [|split; [|done]].
      + apply includes_spec. exists (pre ++ [o]), (cl :: post). by rewrite <- app_assoc.
      + rewrite length_app. simpl. rewrite length_app. lia. }
  assert (input = [] → actionRegex input = None ∧ itemRegex input = None
                       ∧ dialogueRegex input = None) as Hempty by (by intros ->).
  unfold parseActionInput. cbv zeta.
  destruct (actionRegex input) as [c|] eqn:Ea; simpl.
  { destruct (Henc _ _ _ (exec_enclosed_Some _ _ _ _ Ea)) as (Hi & Hl & Hne & Hd).
    repeat split; try done; try lia.
    intros Hin. by destruct (Hempty Hin) as (? & _). }
  destruct (itemRegex input) as [c|] eqn:Ei; simpl.
  { destruct (Henc _ _ _ (exec_enclosed_Some _ _ _ _ Ei)) as (Hi & Hl & Hne & Hd).
    repeat split; try done; try lia.
    intros Hin. by destruct (Hempty Hin) as (? & ? & _). }
  destruct (dialogueRegex input) as [c|] eqn:Ed; simpl.
  { destruct (Hop _ _ _ (exec_opened_Some _ _ _ _ Ed)) as (Hi & Hl & Hne).
    repeat split; try done.
    intros Hin. by destruct (Hempty Hin) as (? & ? & ?). }
  repeat split; try done.
  apply includes_spec. exists [], []. by rewrite app_nil_r.
Qed.

End PatternFacts.

(** ** The memory store and its two mirrors *)

Section MemoryStoreFacts.

Lemma map_get_set_eq {V} (k : jsstring) (v : V) (m : list (jsstring * V)) :
  map_get k (map_set k v m) = Some v.
Proof.
  induction m as [|[k' v'] m IH]; simpl.
  - by rewrite decide_True.
  - destruct (decide (k' = k)); simpl; [by rewrite decide_True|].
    by rewrite decide_False.
Qed.

Lemma map_get_set_ne {V} (k k' : jsstring) (v : V) (m : list (jsstring * V)) :
  k' ≠ k → map_get k' (map_set k v m) = map_get k' m.
Proof.
  intros Hne. induction m as [|[k0 v0] m IH]; simpl.
  - by rewrite decide_False.
  - destruct (decide (k0 = k)) as [->|]; simpl.
    + by rewrite !decide_False.
    + destruct (decide (k0 = k')); done.
Qed.

Lemma map_get_None {V} (k : jsstring) (m : list (jsstring * V)) :
  map_get k m = None ↔ k ∉ m.*1.
Proof.
  induction m as [|[k0 v0] m IH]; simpl.
  - split; [intros _; apply not_elem_of_nil | done].
  - rewrite not_elem_of_cons. destruct (decide (k0 = k)) as [->|Hne].
    + split; [done | by intros [? _]].
    + rewrite IH. split; [by intros ?; split | by intros [_ ?]].
Qed.

Lemma map_get_delete_eq {V} (k : jsstring) (m : list (jsstring * V)) :
  NoDup m.*1 → map_get k (map_delete k m) = None.
Proof.
  induction m as [|[k0 v0] m IH]; simpl; intros Hnd; [done|].
  apply NoDup_cons in Hnd as [Hk Hnd].
  destruct (decide (k0 = k)) as [->|Hne]; simpl.
  - by apply map_get_None.
  - rewrite decide_False by done. by apply IH.
Qed.

Lemma map_get_delete_ne {V} (k k' : jsstring) (m : list (jsstring * V)) :
  k' ≠ k → map_get k' (map_delete k m) = map_get k' m.
Proof.
  intros Hne. induction m as [|[k0 v0] m IH]; simpl; [done|].
  destruct (decide (k0 = k)) as [->|]; simpl.
  - by rewrite decide_False.
  - destruct (decide (k0 = k')); done.
Qed.

Lemma map_set_length {V} (k : jsstring) (v : V) (m : list (jsstring * V)) :
  (length (map_set k v m) ≤ S (length m))%nat
  ∧ (is_Some (map_get k m) → length (map_set k v m) = length m).
Proof.
  induction m as [|[k0 v0] m [IH1 IH2]]; simpl.
  - split; [lia | by intros [? ?]].
  - destruct (decide (k0 = k)); simpl; [split; [lia | done]|].
    split; [lia|]. intros H. by rewrite IH2.
Qed.

Lemma map_get_In {V} (k : jsstring) (v : V) (m : list (jsstring * V)) :
  map_get k m = Some v → In v (map snd m).
Proof.
  induction m as [|[k0 v0] m IH]; simpl; [done|].
  destruct (decide (k0 = k)); [intros [= ->]; by left | intros H; right; by apply IH].
Qed.

(** [updateAgent], with everything it leaves alone. *)
Lemma updateAgent_full (agentId : jsstring) (updates : AgentUpdates) (w : World) :
  ∃ res w', updateAgent agentId updates w = Ok res w'
    ∧ registry_step w w'
    ∧ gs_memories (game w') = gs_memories (game w)
    ∧ reg_agents w' =
        match reg_agents w !! agentId with
        | Some agent =>
          <[agentId := apply_updates agent updates (ISO (clock w (tick w)))]> (reg_agents w)
        | None => reg_agents w
        end.
Proof.
  unfold updateAgent, updatePlayer, updateState_agents, new_Date_toISOString, Date_now.
  munfold. simpl.
  destruct (reg_agents w !! agentId) as [agent|]; simpl;
    [|eexists _, _; split; [reflexivity | by repeat split]].
  destruct (decide (agentId = js "player")); simpl;
    [eexists _, _; split; [reflexivity | by repeat split]|].
  destruct (AgentType_eqb (agent_type agent) NPC); simpl;
    eexists _, _; (split; [reflexivity | by repeat split]).
Qed.

Lemma _updateGameStateMemories_full (w : World) :
  ∃ w', _updateGameStateMemories w = Ok tt w'
    ∧ registry_step w w'
    ∧ reg_agents w' = reg_agents w
    ∧ gs_memories (game w') = map snd (mm_memories w).
Proof. eexists. split; [reflexivity|]. by repeat split. Qed.

(** Writing an agent's id list: the index of the manager and the
    [memoryIds] of the registered agent get the same list. *)
Lemma write_agent_index (agentId : jsstring) (ids : list jsstring) (w : World) :
  ∃ w',
    (_ ← modify (set_mm_agentMemories (λ m, <[agentId := ids]> m));
     agent ← getAgent agentId;
     match agent with
     | Some _ => _ ← updateAgent agentId (memoryIds_update ids); mret tt
     | None => mret tt
     end) w = Ok tt w'
    ∧ mm_memories w' = mm_memories w
    ∧ maxMemories w' = maxMemories w
    ∧ tm_relationships w' = tm_relationships w
    ∧ hm_history w' = hm_history w
    ∧ mm_agentMemories w' = <[agentId := ids]> (mm_agentMemories w)
    ∧ (∀ other, other ≠ agentId → reg_agents w' !! other = reg_agents w !! other)
    ∧ (∀ agent, reg_agents w !! agentId = Some agent →
         ∃ agent', reg_agents w' !! agentId = Some agent' ∧ memoryIds agent' = ids)
    ∧ (reg_agents w !! agentId = None → reg_agents w' !! agentId = None).
Proof.
  mstep. unfold getAgent. mstep.
  set (w1 := set_mm_agentMemories _ w).
  change (reg_agents w1) with (reg_agents w).
  destruct (reg_agents w !! agentId) as [agent|] eqn:Hreg.
  - destruct (updateAgent_full agentId (memoryIds_update ids) w1)
      as (res & w' & E & (Ht & Hm & Ha & Hx & Hh & _) & _ & Hr).
    change (reg_agents w1) with (reg_agents w) in Hr. rewrite Hreg in Hr.
    rewrite bind_run, E. cbv beta iota. rewrite mret_run.
    exists w'. split; [done|]. repeat split; try done.
    + intros other Hne. rewrite Hr. by rewrite lookup_insert_ne.
    + intros ? [= <-]. eexists. rewrite Hr, lookup_insert_eq. done.
  - rewrite mret_run. exists w1. by repeat split.
Qed.

Lemma _dissociateMemoryFromAgent_full (memoryId agentId : jsstring) (w : World) :
  ∃ w', _dissociateMemoryFromAgent memoryId agentId w = Ok tt w'
    ∧ mm_memories w' = mm_memories w
    ∧ maxMemories w' = maxMemories w
    ∧ tm_relationships w' = tm_relationships w
    ∧ hm_history w' = hm_history w
    ∧ mm_agentMemories w' !! agentId
      = filter (λ i, i ≠ memoryId) <$> (mm_agentMemories w !! agentId)
    ∧ (∀ other, other ≠ agentId →
         mm_agentMemories w' !! other = mm_agentMemories w !! other
         ∧ reg_agents w' !! other = reg_agents w !! other)
    ∧ (∀ ids agent, mm_agentMemories w !! agentId = Some ids →
         reg_agents w !! agentId = Some agent →
         ∃ agent', reg_agents w' !! agentId = Some agent'
           ∧ memoryIds agent' = filter (λ i, i ≠ memoryId) ids).
Proof.
  unfold _dissociateMemoryFromAgent. mstep.
  destruct (mm_agentMemories w !! agentId) as [ids|] eqn:Hidx.
  - destruct (write_agent_index agentId (filter (λ i, i ≠ memoryId) ids) w)
      as (w' & E & Hm & Hx & Ht & Hh & Ha & Hother & Hreg & _).
    exists w'. split; [exact E|]. do 4 (split; [done|]).
    split; [by rewrite Ha, lookup_insert_eq|]. split.
    + intros other Hne. split; [|by apply Hother].
      rewrite Ha. by rewrite lookup_insert_ne.
    + intros ? agent [= <-] Hag. by apply (Hreg agent).
  - rewrite mret_run. exists w. do 7 (split; [done|]).
    intros ? ? [=].
Qed.

Lemma _associateMemoryWithAgent_full (memoryId agentId : jsstring) (w : World) :
  ∃ w', _associateMemoryWithAgent memoryId agentId w = Ok tt w'
    ∧ mm_memories w' = mm_memories w
    ∧ maxMemories w' = maxMemories w
    ∧ tm_relationships w' = tm_relationships w
    ∧ hm_history w' = hm_history w
    ∧ mm_agentMemories w'
      = <[agentId := set_add memoryId (default [] (mm_agentMemories w !! agentId))]>
          (mm_agentMemories w)
    ∧ (∀ other, other ≠ agentId → reg_agents w' !! other = reg_agents w !! other)
    ∧ (∀ agent, reg_agents w !! agentId = Some agent →
         ∃ agent', reg_agents w' !! agentId = Some agent'
           ∧ memoryIds agent'
             = set_add memoryId (default [] (mm_agentMemories w !! agentId))).
Proof.
  unfold _associateMemoryWithAgent. mstep.
  destruct (write_agent_index agentId
              (set_add memoryId (default [] (mm_agentMemories w !! agentId))) w)
    as (w' & E & Hm & Hx & Ht & Hh & Ha & Hother & Hreg & _).
  exists w'. split; [exact E|]. by repeat split.
Qed.

Lemma set_add_elem (x : jsstring) (s : list jsstring) : x ∈ set_add x s.
Proof.
  unfold set_add. destruct (decide (x ∈ s)).
  - by rewrite bool_decide_eq_true_2.
  - rewrite bool_decide_eq_false_2 by done. apply elem_of_app. right.
    by apply list_elem_of_singleton.
Qed.

Lemma stores_kept_refl (w : World) : stores_kept w w.
Proof. by repeat split. Qed.

Lemma stores_kept_trans (w1 w2 w3 : World) :
  stores_kept w1 w2 → stores_kept w2 w3 → stores_kept w1 w3.
Proof.
  intros (? & ? & ? & ? & ? & ? & ? & ?) (? & ? & ? & ? & ? & ? & ? & ?).
  repeat split; congruence.
Qed.

(** Below capacity [addMemory] only writes the store and its mirror. *)
Lemma addMemory_below_capacity (memory : MemoryInput) (w : World) :
  (length (mm_memories w) < maxMemories w)%nat →
  ∃ id m w', addMemory memory w = Ok id w'
    ∧ stored_as memory id m
    ∧ mm_memories w' = map_set id m (mm_memories w)
    ∧ gs_memories (game w') = map snd (mm_memories w')
    ∧ reg_agents w' = reg_agents w
    ∧ mm_agentMemories w' = mm_agentMemories w
    ∧ maxMemories w' = maxMemories w
    ∧ tm_relationships w' = tm_relationships w
    ∧ hm_history w' = hm_history w.
Proof.
  intros Hlt. unfold addMemory.
  assert (∃ id w1, (if from_option truthy false (mi_id memory)
                    then mret (default [] (mi_id memory)) else _generateMemoryId) w
                   = Ok id w1
                   ∧ stores_kept w w1
                   ∧ (∀ i, mi_id memory = Some i → i ≠ [] → id = i))
    as (id & w1 & E1 & K1 & Hid).
  { destruct (mi_id memory) as [[|c i]|]; simpl;
      eexists _, _; (split; [reflexivity|]); (split; [by repeat split|]);
      intros ? [= <-]; done. }
  rewrite bind_run, E1. cbv beta iota.
  assert (∃ created w2, (if from_option date_truthy false (mi_createdAt memory)
                         then mret (default (Text []) (mi_createdAt memory))
                         else new_Date_toISOString) w1 = Ok created w2
                   ∧ stores_kept w1 w2
                   ∧ (∀ c, mi_createdAt memory = Some c → date_truthy c = true → created = c))
    as (created & w2 & E2 & K2 & Hcr).
  { destruct (mi_createdAt memory) as [c|]; simpl; [destruct (date_truthy c) eqn:Hc|];
      eexists _, _; (split; [reflexivity|]); (split; [by repeat split|]);
      intros ? [= <-]; congruence. }
  rewrite bind_run, E2. cbv beta iota.
  pose proof (stores_kept_trans _ _ _ K1 K2) as (Kt & Kr & Kg & Km & Ka & Kx & Kh & _).
  mstep. cbv zeta. mstep. do 2 mstep.
  match goal with |- context [map_set id ?m] => set (stored := m) end.
  set (w3 := set_mm_memories (map_set id stored) (set_tick S w2)).
  assert (mm_memories w3 = map_set id stored (mm_memories w)) as Hm3
    by (unfold w3; simpl; congruence).
  assert (maxMemories w3 = maxMemories w) as Hx3 by (unfold w3; simpl; congruence).
  rewrite Hx3.
  destruct (Nat.ltb_spec (maxMemories w) (length (mm_memories w3))) as [Hover|_].
  { rewrite Hm3 in Hover. pose proof (map_set_length id stored (mm_memories w)) as [? _]. lia. }
  mstep.
  destruct (_updateGameStateMemories_full w3) as (w5 & E5 & (Ht5 & Hm5 & Ha5 & Hx5 & Hh5 & _) & Hr5 & Hg5).
  rewrite bind_run, E5. cbv beta iota. rewrite mret_run.
  exists id, stored, w5. split; [done|].
  split; [by repeat split|].
  split; [congruence|]. split; [by rewrite Hg5, Hm5|].
  unfold w3 in *. simpl in *. repeat split; congruence.
Qed.

(** X19. Below capacity a memory that was added can be looked up: the
    store holds it under the returned id, which is the given id when that
    is not empty; the other ids keep their memories; the game state's list
    of memories is the store's again; and a second [addMemory] with an id
    already stored replaces the memory without growing the store.  The
    per-agent index is not written, even for a memory that names an agent. *)
Theorem addMemory_then_lookup (memory : MemoryInput) (w : World) :
  (length (mm_memories w) < maxMemories w)%nat →
  ∃ id m w',
    addMemory memory w = Ok id w'
    ∧ stored_as memory id m
    ∧ map_get id (mm_memories w') = Some m
    ∧ (∀ k, k ≠ id → map_get k (mm_memories w') = map_get k (mm_memories w))
    ∧ gs_memories (game w') = map snd (mm_memories w')
    ∧ In m (gs_memories (game w'))
    ∧ (is_Some (map_get id (mm_memories w)) →
       length (mm_memories w') = length (mm_memories w))
    ∧ (map_get id (mm_memories w) = None →
       length (mm_memories w') = S (length (mm_memories w)))
    ∧ mm_agentMemories w' = mm_agentMemories w
    ∧ reg_agents w' = reg_agents w
    ∧ ∃ same_type, getMemoriesByType (mi_type memory) w' = Ok same_type w'
                   ∧ In m same_type.
Proof.
  intros Hlt.
  destruct (addMemory_below_capacity memory w Hlt)
    as (id & m & w' & E & Hst & Hm & Hg & Hr & Ha & _).
  exists id, m, w'. split; [done|]. split; [done|].
  unfold getMemoriesByType. rewrite gets_run, Hg, Hm.
  split; [apply map_get_set_eq|].
  split; [intros k Hne; by apply map_get_set_ne|].
  split; [done|].
  split; [apply (map_get_In id), map_get_set_eq|].
  split; [apply map_set_length|].
  split; [|split; [done|split; [done|]]].
  - intros Hnone. clear -Hnone.
    induction (mm_memories w) as [|[k0 v0] l IH]; simpl in *; [done|].
    destruct (decide (k0 = id)); [done|]. simpl. by rewrite IH.
  - eexists. split; [reflexivity|]. apply filter_In. split.
    + apply (map_get_In id), map_get_set_eq.
    + destruct Hst as (_ & -> & _). by destruct (mi_type memory).
Qed.

Lemma addMemory_then_lookup_witness :
  ∃ id m w',
    addMemory (Samples.memory "m1" 2 100) Samples.empty_world = Ok id w'
    ∧ map_get id (mm_memories w') = Some m
    ∧ mem_content m = js "m1".
Proof.
  destruct (addMemory_then_lookup (Samples.memory "m1" 2 100) Samples.empty_world)
    as (id & m & w' & E & (_ & _ & Hc & _) & Hl & _); [simpl; lia|].
  by exists id, m, w'.
Defined.

(** X20. [deleteMemory] on a store with distinct ids.  An id that is not
    stored gives false and changes nothing.  A stored id gives true; the
    memory is gone from the store, the other ids keep their memories, the
    game state's list is the store's again, and when the memory named an
    agent its id is struck from that agent's index and from the registered
    agent's [memoryIds]. *)
Theorem deleteMemory_removes (memoryId : jsstring) (w : World) :
  NoDup (mm_memories w).*1 →
  (map_get memoryId (mm_memories w) = None → deleteMemory memoryId w = Ok false w)
  ∧ (∀ memory, map_get memoryId (mm_memories w) = Some memory →
     ∃ w', deleteMemory memoryId w = Ok true w'
       ∧ map_get memoryId (mm_memories w') = None
       ∧ (∀ k, k ≠ memoryId → map_get k (mm_memories w') = map_get k (mm_memories w))
       ∧ gs_memories (game w') = map snd (mm_memories w')
       ∧ tm_relationships w' = tm_relationships w
       ∧ hm_history w' = hm_history w
       ∧ (∀ agentId ids, mem_agentId memory = Some agentId → agentId ≠ [] →
            mm_agentMemories w !! agentId = Some ids →
            mm_agentMemories w' !! agentId = Some (filter (λ i, i ≠ memoryId) ids)
            ∧ ∀ agent, reg_agents w !! agentId = Some agent →
                ∃ agent', reg_agents w' !! agentId = Some agent'
                  ∧ memoryIds agent' = filter (λ i, i ≠ memoryId) ids)).
Proof.
  intros Hnd. unfold deleteMemory. split.
  - intros Hnone. mstep. by rewrite Hnone.
  - intros memory Hget. mstep. rewrite Hget. mstep.
    set (w1 := set_mm_memories (map_delete memoryId) w).
    assert (∃ w2, (if from_option truthy false (mem_agentId memory)
                   then _dissociateMemoryFromAgent memoryId (default [] (mem_agentId memory))
                   else mret tt) w1 = Ok tt w2
                  ∧ mm_memories w2 = mm_memories w1
                  ∧ tm_relationships w2 = tm_relationships w1
                  ∧ hm_history w2 = hm_history w1
                  ∧ (∀ agentId ids, mem_agentId memory = Some agentId → agentId ≠ [] →
                       mm_agentMemories w !! agentId = Some ids →
                       mm_agentMemories w2 !! agentId = Some (filter (λ i, i ≠ memoryId) ids)
                       ∧ ∀ agent, reg_agents w !! agentId = Some agent →
                           ∃ agent', reg_agents w2 !! agentId = Some agent'
                             ∧ memoryIds agent' = filter (λ i, i ≠ memoryId) ids))
      as (w2 & E2 & Hm2 & Ht2 & Hh2 & Hidx).
    { destruct (mem_agentId memory) as [[|c a]|] eqn:Hag; simpl.
      - exists w1. rewrite mret_run. do 4 (split; [done|]). by intros ? ? [= <-].
      - destruct (_dissociateMemoryFromAgent_full memoryId (c :: a) w1)
          as (w2 & E & Hm & _ & Ht & Hh & Ha & _ & Hreg).
        exists w2. split; [done|]. do 3 (split; [done|]).
        intros ? ids [= <-] _ Hids.
        change (mm_agentMemories w1) with (mm_agentMemories w) in *.
        change (reg_agents w1) with (reg_agents w) in *.
        rewrite Ha, Hids. split; [done|].
        intros agent Hagent. by apply (Hreg ids agent).
      - exists w1. rewrite mret_run. do 4 (split; [done|]). by intros ? ? [=]. }
    rewrite bind_run, E2. cbv beta iota.
    destruct (_updateGameStateMemories_full w2)
      as (w3 & E3 & (Ht3 & Hm3 & Ha3 & _ & Hh3 & _) & Hr3 & Hg3).
    rewrite bind_run, E3. cbv beta iota. rewrite mret_run.
    exists w3. split; [done|].
    rewrite Hg3, Hm3, Hm2, Ht3, Ht2, Hh3, Hh2, Ha3, Hr3. unfold w1. simpl.
    split; [by apply map_get_delete_eq|].
    split; [intros k Hne; by apply map_get_delete_ne|].
    done.
Qed.

Lemma deleteMemory_removes_witness :
  ∃ w',
    deleteMemory (js "m1") Scenes.remembering = Ok true w'
    ∧ map_get (js "m1") (mm_memories w') = None
    ∧ mm_agentMemories w' !! js "npc1" = Some (filter (λ i, i ≠ js "m1") [js "m1"]).
Proof.
  assert (NoDup (mm_memories Scenes.remembering).*1) as Hnd
    by (simpl; apply NoDup_singleton).
  destruct (proj2 (deleteMemory_removes (js "m1") Scenes.remembering Hnd)
              Scenes.keepsake eq_refl)
    as (w' & E & Hn & _ & _ & _ & _ & Hidx).
  exists w'. split; [exact E|]. split; [exact Hn|].
  apply (Hidx (js "npc1") [js "m1"]); [reflexivity | discriminate | reflexivity].
Defined.

(** X21. [createAgentMemory] for an agent the registry does not know
    throws, naming the id, before anything is drawn or written: the state
    at the throw is the state before the call. *)
Theorem createAgentMemory_unknown_agent_throws (agentId content : jsstring)
    (type : option MemoryType) (importance : option Z) (w : World) :
  reg_agents w !! agentId = None →
  createAgentMemory agentId content type importance w
  = Throw (js "角色不存在: " ++ agentId) w.
Proof.
  intros Hreg. unfold createAgentMemory, getAgent. mstep. by rewrite Hreg.
Qed.

Lemma createAgentMemory_unknown_agent_throws_witness :
  createAgentMemory (js "ghost") (js "boo") None None Samples.empty_world
  = Throw (js "角色不存在: ghost") Samples.empty_world.
Proof.
  apply (createAgentMemory_unknown_agent_throws (js "ghost") (js "boo") None None
           Samples.empty_world).
  reflexivity.
Defined.

(** X22. [createAgentMemory] for a registered agent, below capacity: the
    new memory is in the store under the returned id, with the agent's id,
    the content, type CHARACTER and importance MEDIUM unless given (an
    importance of 0 counts as not given); its id is in the agent's index,
    and the registered agent's [memoryIds] is that index. *)
Theorem createAgentMemory_indexes_memory (agentId content : jsstring)
    (type : option MemoryType) (level : option Z) (agent : Agent) (w : World) :
  reg_agents w !! agentId = Some agent →
  (length (mm_memories w) < maxMemories w)%nat →
  ∃ id m ids agent' w',
    createAgentMemory agentId content type level w = Ok id w'
    ∧ map_get id (mm_memories w') = Some m
    ∧ mem_agentId m = Some agentId
    ∧ mem_content m = content
    ∧ mem_type m = default MEM_CHARACTER type
    ∧ (∀ i, level = Some i → i ≠ 0 → importance m = i)
    ∧ (level = Some 0 ∨ level = None → importance m = MEDIUM)
    ∧ mm_agentMemories w' !! agentId = Some ids
    ∧ id ∈ ids
    ∧ reg_agents w' !! agentId = Some agent'
    ∧ memoryIds agent' = ids.
Proof.
  intros Hreg Hlt. unfold createAgentMemory, getAgent. mstep. rewrite Hreg.
  unfold _generateMemoryId, Date_now, draw_id.
  rewrite !bind_run. cbv beta iota. rewrite mret_run. cbv beta iota.
  do 3 mstep.
  match goal with |- context [addMemory ?mi ≫= _] => set (input := mi) end.
  match goal with |- context [(addMemory input ≫= _) ?w0] => set (w4 := w0) end.
  destruct (addMemory_below_capacity input w4 Hlt)
    as (id & m & w5 & E5 & (_ & Hty & Hco & Hag & Him & Hid & _) & Hm5 & _ & Hr5 & Ha5 & _).
  rewrite bind_run, E5. cbv beta iota.
  destruct (_associateMemoryWithAgent_full id agentId w5)
    as (w6 & E6 & Hm6 & _ & _ & _ & Ha6 & _ & Hr6).
  rewrite bind_run, E6. cbv beta iota. rewrite mret_run.
  destruct (Hr6 agent) as (agent' & Hag' & Hids); [by rewrite Hr5|].
  exists id, m, (set_add id (default [] (mm_agentMemories w5 !! agentId))), agent', w6.
  split; [done|].
  split; [rewrite Hm6, Hm5; apply map_get_set_eq|].
  simpl in Hty, Hco, Hag, Him.
  do 3 (split; [done|]).
  split; [intros i -> Hi; rewrite Him; by rewrite decide_False|].
  split; [intros [-> | ->]; by rewrite Him|].
  split; [by rewrite Ha6, lookup_insert_eq|].
  split; [apply set_add_elem | done].
Qed.

Lemma createAgentMemory_indexes_memory_witness :
  ∃ id m ids agent' w',
    createAgentMemory (js "npc1") (js "saw a door") None (Some 0) Samples.empty_world
    = Ok id w'
    ∧ map_get id (mm_memories w') = Some m
    ∧ importance m = MEDIUM
    ∧ id ∈ ids
    ∧ reg_agents w' !! js "npc1" = Some agent'
    ∧ memoryIds agent' = ids.
Proof.
  destruct (createAgentMemory_indexes_memory (js "npc1") (js "saw a door") None (Some 0)
              (Samples.agent (js "npc1") NPC) Samples.empty_world)
    as (id & m & ids & agent' & w' & E & Hg & _ & _ & _ & _ & Hi & _ & Hin & Hr & Hm);
    [reflexivity | simpl; lia |].
  exists id, m, ids, agent', w'. repeat split; try done. apply Hi. by left.
Defined.

End MemoryStoreFacts.

(** ** A store full of critical memories *)
Section CriticalStoreFacts.

Lemma map_set_fresh {V} (k : jsstring) (v : V) (m : list (jsstring * V)) :
  map_get k m = None → map_set k v m = m ++ [(k, v)].
Proof.
  induction m as [|[k0 v0] m IH]; simpl; [done|].
  destruct (decide (k0 = k)); [done|]. intros H. by rewrite IH.
Qed.

Lemma map_get_snoc_fresh {V} (k : jsstring) (v : V) (m : list (jsstring * V)) :
  map_get k m = None → map_get k (m ++ [(k, v)]) = Some v.
Proof.
  induction m as [|[k0 v0] m IH]; simpl; [by rewrite decide_True|].
  destruct (decide (k0 = k)); [done | apply IH].
Qed.

Lemma map_delete_snoc_fresh {V} (k : jsstring) (v : V) (m : list (jsstring * V)) :
  map_get k m = None → map_delete k (m ++ [(k, v)]) = m.
Proof.
  induction m as [|[k0 v0] m IH]; simpl; [by rewrite decide_True|].
  destruct (decide (k0 = k)); [done|]. intros H. by rewrite IH.
Qed.

(** The scan for a victim passes over critical memories. *)
Lemma scan_all_critical (parse : jsstring → option Z) (l : list (jsstring * Memory))
    (acc : option jsstring * Z) :
  (∀ k m, (k, m) ∈ l → CRITICAL ≤ importance m) →
  fold_left (scan_step parse) l acc = acc.
Proof.
  revert acc. induction l as [|[k m] l IH]; intros acc Hall; simpl; [done|].
  assert (scan_step parse acc (k, m) = acc) as ->.
  { unfold scan_step. simpl.
    destruct (Z.ltb_spec (importance m) CRITICAL) as [Hlt|]; [|done].
    specialize (Hall k m (list_elem_of_here _ _)). lia. }
  apply IH. intros k' m' Hin. apply (Hall k' m'). by apply list_elem_of_further.
Qed.

(** X23. A non-critical memory added, under a fresh id and with its own
    creation time, to a store that is full of critical memories.  If the
    clock at the eviction reads later than that creation time, the new
    memory is the one evicted: [addMemory] returns its id, and the store
    is as before, without it.  If not, nothing is evicted and the store
    holds one memory more than its maximum.  Either way the game state's
    list is the store's again. *)
Theorem addMemory_into_critical_store (memory : MemoryInput) (mid : jsstring) (t : Z)
    (w : World) :
  (∀ k m, (k, m) ∈ mm_memories w → CRITICAL ≤ importance m) →
  length (mm_memories w) = maxMemories w →
  mi_id memory = Some mid → mid ≠ [] → map_get mid (mm_memories w) = None →
  mi_createdAt memory = Some (ISO t) →
  mi_importance memory < CRITICAL →
  ∃ m w',
    addMemory memory w = Ok mid w'
    ∧ stored_as memory mid m
    ∧ (t < clock w (S (tick w)) →
       mm_memories w' = mm_memories w ∧ map_get mid (mm_memories w') = None)
    ∧ (clock w (S (tick w)) ≤ t →
       mm_memories w' = mm_memories w ++ [(mid, m)]
       ∧ length (mm_memories w') = S (maxMemories w))
    ∧ gs_memories (game w') = map snd (mm_memories w').
Proof.
  intros Hcrit Hfull Hid Hne Hfresh Hcreated Himp.
  unfold addMemory. rewrite Hid, Hcreated.
  destruct mid as [|c mid]; [done|]. cbn [from_option truthy date_truthy default Datatypes.id].
  do 3 mstep. cbv zeta. do 3 mstep.
  set (stored := {| mem_id := c :: mid; mem_type := mi_type memory;
                    mem_content := mi_content memory; mem_agentId := mi_agentId memory;
                    importance := mi_importance memory;
                    accessCount := mi_accessCount memory;
                    mem_createdAt := ISO t;
                    mem_updatedAt := ISO (clock w (tick w)) |}).
  set (w3 := set_mm_memories (map_set (c :: mid) stored) (set_tick S w)).
  assert (mm_memories w3 = mm_memories w ++ [(c :: mid, stored)]) as Hm3
    by (unfold w3; simpl; by rewrite map_set_fresh).
  assert (stored_as memory (c :: mid) stored) as Hst.
  { repeat split; try done.
    - intros i. rewrite Hid. by intros [= <-].
    - intros d. rewrite Hcreated. by intros [= <-]. }
  change (maxMemories w3) with (maxMemories w).
  assert ((maxMemories w <? length (mm_memories w3))%nat = true) as ->.
  { apply Nat.ltb_lt. rewrite Hm3, length_app. simpl. lia. }
  assert (∃ w4, _removeOldestMemory w3 = Ok tt w4
            ∧ (t < clock w (S (tick w)) → mm_memories w4 = mm_memories w)
            ∧ (clock w (S (tick w)) ≤ t → mm_memories w4 = mm_memories w3))
    as (w4 & E4 & Hev & Hkeep).
  { unfold _removeOldestMemory, Date_now. rewrite bind_run. cbv beta iota. do 2 mstep.
    change (mm_memories (set_tick S w3)) with (mm_memories w3).
    change (clock w3 (tick w3)) with (clock w (S (tick w))).
    rewrite Hm3, fold_left_app, (scan_all_critical _ _ _ Hcrit). simpl.
    unfold scan_step. simpl.
    destruct (Z.ltb_spec (mi_importance memory) CRITICAL) as [_|]; [|lia].
    destruct (Z.ltb_spec t (clock w (S (tick w)))) as [Hlt|Hge]; simpl.
    - destruct (deleteMemory_spec (c :: mid) (set_tick S w3)) as (res & w4 & E & _ & Hm4).
      change (mm_memories (set_tick S w3)) with (mm_memories w3) in Hm4.
      rewrite Hm3, map_get_snoc_fresh, map_delete_snoc_fresh in Hm4 by done.
      rewrite bind_run, E. cbv beta iota. rewrite mret_run.
      exists w4. split; [done|]. split; [done | lia].
    - rewrite mret_run. exists (set_tick S w3). split; [done|]. split; [lia | done]. }
  rewrite bind_run, E4. cbv beta iota.
  destruct (_updateGameStateMemories_full w4) as (w5 & E5 & (_ & Hm5 & _) & _ & Hg5).
  rewrite bind_run, E5. cbv beta iota. rewrite mret_run.
  exists stored, w5. split; [done|]. split; [done|].
  rewrite Hg5, Hm5. split; [|split; [|done]].
  - intros Hlt. rewrite (Hev Hlt). done.
  - intros Hge. rewrite (Hkeep Hge), Hm3, length_app. simpl. split; [done | lia].
Qed.

Lemma addMemory_into_critical_store_witness :
  ∃ w',
    addMemory (Samples.memory "m1" 2 100) Scenes.guarded = Ok (js "m1") w'
    ∧ map_get (js "m1") (mm_memories w') = None.
Proof.
  destruct (addMemory_into_critical_store (Samples.memory "m1" 2 100) (js "m1") 100
              Scenes.guarded)
    as (m & w' & E & _ & Hev & _); try reflexivity; try discriminate.
  - intros k m [[= _ ->] | [[= _ ->] | []%elem_of_nil]%elem_of_cons]%elem_of_cons;
      discriminate.
  - exists w'. split; [exact E|]. apply Hev. reflexivity.
Defined.

End CriticalStoreFacts.

(** ** The response policy *)
Section ResponseFacts.

(** X24. [_determineResponseType] never answers ACTION.  It answers
    REJECTION only to an agent that bears the actor a trust below 20, and
    only on a draw above 0.7; without such a relationship the draw plays
    no part in the answer. *)
Theorem response_type_limits (context : Context) :
  (∀ u, _determineResponseType u context ≠ R_ACTION)
  ∧ (∀ u, _determineResponseType u context = R_REJECTION →
          draw_decides context ∧ (7 # 10 < u)%Q)
  ∧ (low_trust (ctx_relationship context) = false →
     ∀ u u', _determineResponseType u context = _determineResponseType u' context).
Proof.
  unfold _determineResponseType.
  destruct (ActionType_eqb (cx_type (ctx_action context)) DIALOGUE
            && bool_decide (cx_targetId (ctx_action context)
                            = Some (ca_id (ctx_agent context)))) eqn:Hd.
  { by repeat split. }
  destruct (Z.ltb_spec 70 (ca_emotionIntensity (ctx_agent context))) as [|Hint].
  { by repeat split. }
  destruct (includes (cx_content (ctx_action context)) (js "请求")) eqn:H1.
  { by repeat split. }
  destruct (includes (cx_content (ctx_action context)) (js "帮助")) eqn:H2.
  { by repeat split. }
  cbn [orb].
  destruct (low_trust (ctx_relationship context)) eqn:Hlow; [|by repeat split].
  split; [intros u; by destruct (negb _)|]. split; [|done].
  intros u Hu. split.
  - split; [|split; [done|split; [done|split; [done|]]]].
    + intros Ha%addressed_dialogue_true. congruence.
    + by apply low_trust_true.
  - destruct (Qle_bool u (7 # 10)) eqn:Hle; [done|].
    apply Qnot_le_lt. intros Hq%Qle_bool_iff. congruence.
Qed.

End ResponseFacts.

(** ** Action constructors and the game state's agent list *)
Section ConstructorFacts.

Lemma createBaseAction_spec (type : ActionType) (actor content : jsstring)
    (target_type : TargetType) (target : option jsstring) (w : World) :
  ∃ action w',
    createBaseAction type actor content target_type target w = Ok action w'
    ∧ stores_kept w w'
    ∧ act_type action = type ∧ actorId action = actor ∧ act_content action = content
    ∧ targetType action = target_type ∧ targetId action = target
    ∧ act_id action ≠ [].
Proof.
  unfold createBaseAction, generateActionId, Date_now, draw_id.
  eexists _, _. split; [reflexivity|]. split; [by repeat split|].
  do 5 (split; [done|]). cbn [act_id].
  apply truthy_nonempty. by apply generated_id_nonempty.
Qed.

(** X25. The two constructors only read the clock and draw an id.
    [createDialogueAction] returns a DIALOGUE of the actor whose target
    type is CHARACTER exactly when a non-empty target id is given, and
    NONE otherwise; built without a target, or with the actor as its own
    target, it is an action [processActionEffect] ignores.
    [createPhysicalAction] keeps the given target type and never returns
    intensity 0: an intensity of 0 or none becomes 50.  Both give the action
    a non-empty id. *)
Theorem constructed_actions (actor content : jsstring) (target tone emotion : option jsstring)
    (target_type : TargetType) (intensity : option Z) (bodyPart : option jsstring)
    (isStealthy : option bool) (w : World) :
  (∃ d w',
     createDialogueAction actor content target tone emotion w = Ok d w'
     ∧ stores_kept w w'
     ∧ act_type (da_action d) = DIALOGUE
     ∧ actorId (da_action d) = actor
     ∧ act_content (da_action d) = content
     ∧ targetId (da_action d) = target
     ∧ act_id (da_action d) ≠ []
     ∧ (targetType (da_action d) = CHARACTER ↔ ∃ t, target = Some t ∧ t ≠ [])
     ∧ (targetType (da_action d) ≠ CHARACTER → targetType (da_action d) = NONE)
     ∧ (target = None ∨ target = Some [] ∨ target = Some actor →
        processActionEffect (da_action d) w' = Ok None w'))
  ∧ (∃ p w',
       createPhysicalAction actor content target_type target intensity bodyPart isStealthy w
       = Ok p w'
       ∧ stores_kept w w'
       ∧ act_type (pa_action p) = ACTION
       ∧ actorId (pa_action p) = actor
       ∧ targetType (pa_action p) = target_type
       ∧ targetId (pa_action p) = target
       ∧ act_id (pa_action p) ≠ []
       ∧ pa_intensity p ≠ 0
       ∧ (∀ i, intensity = Some i → i ≠ 0 → pa_intensity p = i)
       ∧ (intensity = None ∨ intensity = Some 0 → pa_intensity p = 50)).
Proof.
  split.
  - unfold createDialogueAction.
    destruct (createBaseAction_spec DIALOGUE actor content
                (if from_option truthy false target then CHARACTER else NONE) target w)
      as (action & w' & E & K & Hty & Hac & Hco & Htt & Htid & Hid).
    rewrite bind_run, E. cbv beta iota. rewrite mret_run.
    eexists _, w'. split; [reflexivity|]. cbn [da_action].
    do 6 (split; [done|]). rewrite Htt. split; [|split].
    + destruct target as [[|c t]|]; simpl; split; try done.
      * by intros (? & [= <-] & ?).
      * intros _. by eexists.
      * by intros (? & [=] & _).
    + by destruct (from_option truthy false target).
    + intros Hcase. unfold processActionEffect. rewrite Htt, Htid, Hac.
      destruct Hcase as [-> | [-> | ->]]; simpl; [done | done |].
      destruct (truthy actor); simpl; [|done]. by rewrite decide_True.
  - unfold createPhysicalAction.
    destruct (createBaseAction_spec ACTION actor content target_type target w)
      as (action & w' & E & K & Hty & Hac & Hco & Htt & Htid & Hid).
    rewrite bind_run, E. cbv beta iota. rewrite mret_run.
    eexists _, w'. split; [reflexivity|]. cbn [pa_action pa_intensity].
    do 6 (split; [done|]). split; [|split].
    + destruct intensity as [i|]; [|done]. by destruct (decide (i = 0)).
    + intros i -> Hi. by rewrite decide_False.
    + by intros [-> | ->].
Qed.

Lemma findIndex_Some_inv (agentId : jsstring) (agents : list Agent) (i : nat) :
  findIndex agentId agents = Some i →
  ∃ a, agents !! i = Some a ∧ agent_id a = agentId.
Proof.
  revert i. induction agents as [|a rest IH]; intros i; simpl; [done|].
  destruct (decide (agent_id a = agentId)) as [Heq|Hne].
  - intros [= <-]. by exists a.
  - destruct (findIndex agentId rest) as [j|]; [|done].
    intros [= <-]. by apply IH.
Qed.

Lemma findIndex_None_notin (agentId : jsstring) (agents : list Agent) :
  findIndex agentId agents = None → agentId ∉ agent_id <$> agents.
Proof.
  induction agents as [|a rest IH]; simpl; [intros _; apply not_elem_of_nil|].
  destruct (decide (agent_id a = agentId)) as [Heq|Hne]; [done|].
  destruct (findIndex agentId rest); [done|]. intros _.
  rewrite not_elem_of_cons. split; [done | by apply IH].
Qed.

Lemma findIndex_Some_find (agentId : jsstring) (agents : list Agent) (i : nat) :
  findIndex agentId agents = Some i →
  agents !! i = List.find (λ a, bool_decide (agent_id a = agentId)) agents.
Proof.
  revert i. induction agents as [|a rest IH]; intros i; simpl; [done|].
  destruct (decide (agent_id a = agentId)) as [Heq|Hne].
  - intros [= <-]. by rewrite bool_decide_eq_true_2.
  - rewrite bool_decide_eq_false_2 by done.
    destruct (findIndex agentId rest) as [j|]; [|done].
    intros [= <-]. by apply IH.
Qed.

Lemma spread_over_complete (existing : option Agent) (agent : Agent) :
  existing = None ∨ is_Some (relationships agent) → spread_over existing agent = agent.
Proof.
  unfold spread_over. destruct agent as [i n t e ei l r m c u]. cbn.
  intros [-> | [r' ->]]; [by destruct r | done].
Qed.

(** X26. The game state's [addAgent] refuses an agent without id by
    throwing, with the state as it was.  Otherwise the agent is listed:
    the game state's [getAgent] finds under its id the agent spread over
    the one listed under that id before, which is the agent itself when
    the id is new or the agent carries its relationships, and which keeps
    the relationships of the one listed before otherwise.  An id already
    listed keeps its place and the list its length, a new id goes to the
    end; a list of distinct ids stays one; the player slot and the registry
    stay as they were. *)
Theorem gameState_addAgent_lists (agent : Agent) (w : World) :
  (agent_id agent = [] → gameState_addAgent agent w = Throw (js "代理必须有ID") w)
  ∧ (agent_id agent ≠ [] →
     ∃ existing listed w',
       gameState_getAgent (agent_id agent) w = Ok existing w
       ∧ gameState_addAgent agent w = Ok listed w'
       ∧ gs_agents (game w') = listed
       ∧ gameState_getAgent (agent_id agent) w'
         = Ok (Some (spread_over existing agent)) w'
       ∧ (existing = None ∨ is_Some (relationships agent) →
          gameState_getAgent (agent_id agent) w' = Ok (Some agent) w')
       ∧ (relationships agent = None →
          ∃ merged, gameState_getAgent (agent_id agent) w' = Ok (Some merged) w'
                    ∧ relationships merged = existing ≫= relationships)
       ∧ agent_id <$> listed
         = (if bool_decide (agent_id agent ∈ agent_id <$> gs_agents (game w))
            then agent_id <$> gs_agents (game w)
            else (agent_id <$> gs_agents (game w)) ++ [agent_id agent])
       ∧ (NoDup (agent_id <$> gs_agents (game w)) → NoDup (agent_id <$> listed))
       ∧ gs_player (game w') = gs_player (game w)
       ∧ reg_agents w' = reg_agents w).
Proof.
  unfold gameState_addAgent. split.
  - by intros ->.
  - intros Hne. apply truthy_nonempty in Hne. rewrite Hne. cbn [negb].
    mrun. eexists _, _, _. split; [reflexivity|]. split; [reflexivity|]. cbn.
    split; [done|]. unfold gameState_getAgent. rewrite gets_run. cbn.
    set (agents := gs_agents (game w)).
    set (existing := List.find (λ a, bool_decide (agent_id a = agent_id agent)) agents).
    assert (agent_id <$> match findIndex (agent_id agent) agents with
                         | Some i => <[i := spread_over (agents !! i) agent]> agents
                         | None => agents ++ [agent]
                         end
            = if bool_decide (agent_id agent ∈ agent_id <$> agents)
              then agent_id <$> agents
              else (agent_id <$> agents) ++ [agent_id agent]) as Hids.
    { destruct (findIndex (agent_id agent) agents) as [i|] eqn:Ei.
      - destruct (findIndex_Some_inv _ _ _ Ei) as (a & Ha & Hid).
        rewrite bool_decide_eq_true_2.
        + rewrite list_fmap_insert. cbn [spread_over agent_id].
          rewrite <- Hid. apply list_insert_id.
          by rewrite list_lookup_fmap, Ha.
        + apply list_elem_of_fmap. exists a. split; [done|].
          by eapply list_elem_of_lookup_2.
      - rewrite bool_decide_eq_false_2 by (by apply findIndex_None_notin).
        by rewrite fmap_app. }
    assert (List.find (λ a, bool_decide (agent_id a = agent_id agent))
              match findIndex (agent_id agent) agents with
              | Some i => <[i := spread_over (agents !! i) agent]> agents
              | None => agents ++ [agent]
              end
            = Some (spread_over existing agent)) as Hfound.
    { destruct (findIndex (agent_id agent) agents) as [i|] eqn:Ei.
      - rewrite (findIndex_Some_find _ _ _ Ei). by apply findIndex_Some_replace.
      - unfold existing. rewrite (findIndex_None_find _ _ Ei).
        rewrite spread_over_complete by auto.
        apply find_app_last; [by apply findIndex_None_find | done]. }
    rewrite Hfound.
    split; [done|]. split; [|split; [|split; [exact Hids|split; [|done]]]].
    + intros Hcase. by rewrite spread_over_complete.
    + intros Hnone. eexists. split; [reflexivity|]. cbn. by rewrite Hnone.
    + intros Hnd. rewrite Hids.
      destruct (decide (agent_id agent ∈ agent_id <$> agents)) as [Hin|Hout].
      * by rewrite bool_decide_eq_true_2.
      * rewrite bool_decide_eq_false_2 by done.
        apply NoDup_app. split; [done|]. split; [|apply NoDup_singleton].
        intros x Hx ->%list_elem_of_singleton. done.
Qed.

End ConstructorFacts.
